(** * mergefs: a merged file over append-only segment logs

    Shallow embedding of the Go package [mergefs] (hslam/mergefs) and the
    properties of its frame format, per-shard replay, window query,
    merge of frame sequences and merged read path.

    Conventions of the embedding.
    - Go's [uint64], [int64] and [int] (64-bit platform) are integers in [Z];
      every arithmetic operation of the source that can wrap is followed by
      [u64] or [i64], the reduction into the unsigned or signed 64-bit range.
    - A slice is a [list]; indexing and slicing outside the bounds is a
      run-time panic in Go and is the [Panic] outcome here.
    - [os.File] is modelled by its byte content and an open/closed flag;
      [rand.Intn] is an explicit argument of the write. *)

From Stdlib Require Import ZArith Lia List.
From stdpp Require Import base list sorting strings pretty gmap.
From coqutil Require Import Byte Word.LittleEndianList.
Local Open Scope Z_scope.

(** ** Machine integers *)

Definition u64 (z : Z) : Z := z mod 2 ^ 64.
Definition i64 (z : Z) : Z := (z + 2 ^ 63) mod 2 ^ 64 - 2 ^ 63.

Definition len {A} (l : list A) : Z := Z.of_nat (length l).

(** ** Errors and outcomes *)

Inductive error : Type :=
| EOF                (* io.EOF *)
| ErrClosed          (* os.ErrClosed: the handle was closed before *)
| ErrNegativeOffset. (* os: "negative offset" of ReadAt and WriteAt *)

Inductive outcome (A : Type) : Type :=
| Ok (a : A)
| Panic.
Arguments Ok {A} a.
Arguments Panic {A}.

#[export] Instance outcome_ret : MRet outcome := fun A a => Ok a.
#[export] Instance outcome_bind : MBind outcome := fun A B k x =>
  match x with
  | Ok a => k a
  | Panic => Panic
  end.

(** ** Frames *)

Definition segHeaderSize : Z := 16.

Record segHeader := { h_off : Z; h_size : Z }.

Record seg := { seg_off : Z; seg_size : Z; seg_pos : Z; seg_data : list byte }.

Definition seg0 : seg := {| seg_off := 0; seg_size := 0; seg_pos := 0; seg_data := [] |}.

(** [l[i]] on a slice whose index is known to be in range. *)
Definition idx (l : list seg) (i : Z) : seg := default seg0 (l !! Z.to_nat i).

(** The condition of the branch in [mergeSegs]:
    [x.off > y.off || x.off == y.off && (x.size == y.size || x.size > y.size)]. *)
Definition seg_ge (x y : seg) : bool :=
  (seg_off y <? seg_off x)
  || ((seg_off x =? seg_off y)
      && ((seg_size x =? seg_size y) || (seg_size y <? seg_size x))).

(** First loop of [mergeSegs]: [for i >= 0 && j >= 0]. *)
Fixpoint merge_loop (fuel : nat) (n m : list seg) (i j k : Z) : list seg * Z * Z :=
  match fuel with
  | O => (m, j, k)
  | S fuel' =>
      if (0 <=? i) && (0 <=? j) then
        if seg_ge (idx m i) (idx n j)
        then merge_loop fuel' n (<[Z.to_nat k := idx m i]> m) (i - 1) j (k - 1)
        else merge_loop fuel' n (<[Z.to_nat k := idx n j]> m) i (j - 1) (k - 1)
      else (m, j, k)
  end.

(** Second loop of [mergeSegs]: [for j >= 0]. *)
Fixpoint drain_loop (fuel : nat) (n m : list seg) (j k : Z) : list seg :=
  match fuel with
  | O => m
  | S fuel' =>
      if 0 <=? j
      then drain_loop fuel' n (<[Z.to_nat k := idx n j]> m) (j - 1) (k - 1)
      else m
  end.

(** [mergeSegs]. [append(m, n...)] never shares storage with [n]: the two
    arguments are slices built by separate calls. *)
Definition mergeSegs (a b : list seg) : list seg :=
  if len a =? 0 then b
  else if len b =? 0 then a
  else
    let '(m, n) := if len a <? len b then (b, a) else (a, b) in
    let i := len m - 1 in
    let j := len n - 1 in
    let k := len m + len n - 1 in
    let m := m ++ n in
    let '(m, j, k) := merge_loop (length m) n m i j k in
    drain_loop (length n) n m j k.

(** The same merge as a recursion from the back of both slices: the
    arguments are the reversed slices, the result is the reversed output. *)
Fixpoint merge_desc (xs : list seg) : list seg → list seg :=
  fix merge_aux (ys : list seg) : list seg :=
    match xs, ys with
    | [], _ => ys
    | _, [] => xs
    | x :: xs', y :: ys' =>
        if seg_ge x y then x :: merge_desc xs' ys else y :: merge_aux ys'
    end.

Definition merge_asc (m n : list seg) : list seg :=
  reverse (merge_desc (reverse m) (reverse n)).

(** ** The backing store: [os.File]

    A handle owns the bytes of its file and remembers whether it was closed.
    [ReadAt] and [WriteAt] follow package [os]: a negative offset is refused
    first, an empty buffer needs no system call and succeeds, a closed handle
    fails, a read that meets the end of the file is short and reports
    [io.EOF], a write past the end fills the hole with zero bytes. *)

Record OsFile := { fname : string; content : list byte; closed : bool }.

Definition os_ReadAt (f : OsFile) (n : Z) (off : Z) : list byte * option error :=
  if off <? 0 then ([], Some ErrNegativeOffset)
  else if n <=? 0 then ([], None)
  else if closed f then ([], Some ErrClosed)
  else
    let got := take (Z.to_nat n) (drop (Z.to_nat off) (content f)) in
    (got, if len got <? n then Some EOF else None).

Definition write_bytes (c : list byte) (off : nat) (b : list byte) : list byte :=
  take off c ++ replicate (off - length c)%nat Byte.x00 ++ b ++ drop (off + length b)%nat c.

Definition os_WriteAt (f : OsFile) (b : list byte) (off : Z) : OsFile * Z * option error :=
  if off <? 0 then (f, 0, Some ErrNegativeOffset)
  else if len b <=? 0 then (f, 0, None)
  else if closed f then (f, 0, Some ErrClosed)
  else
    ({| fname := fname f; content := write_bytes (content f) (Z.to_nat off) b; closed := false |},
     len b, None).

Definition os_Close (f : OsFile) : OsFile * option error :=
  if closed f then (f, Some ErrClosed)
  else ({| fname := fname f; content := content f; closed := true |}, None).

(** The file system: the bytes stored under each name. [os.OpenFile] with
    [O_CREATE|O_RDWR] opens an absent file as an empty one; a handle leaves
    its bytes under its name. *)
Definition os_OpenFile (d : gmap string (list byte)) (name : string) : OsFile :=
  {| fname := name; content := default [] (d !! name); closed := false |}.

Definition os_persist (f : OsFile) (d : gmap string (list byte)) : gmap string (list byte) :=
  <[fname f := content f]> d.

(** ** The frame header: two 64-bit words in the byte order of the machine
    (little-endian, as on amd64 and arm64). *)

Definition marshal (h : segHeader) : list byte :=
  le_split 8 (h_off h) ++ le_split 8 (h_size h).

Definition unmarshal (b : list byte) : segHeader :=
  {| h_off := le_combine (take 8 b); h_size := le_combine (take 8 (drop 8 b)) |}.

(** ** SegFile: one shard *)

Record SegFile := {
  sf_name : string;
  sf_file : OsFile;
  sf_size : Z;
  sf_off : Z;
  sf_segs : list seg
}.

(** The loop of [OpenSegFile]. [None] stands for a replay that never ends:
    a header whose size wraps the cursor back onto an earlier record. *)
Fixpoint replay (fuel : nat) (f : SegFile) (off : Z) : option (SegFile + error) :=
  match fuel with
  | O => None
  | S fuel' =>
      let '(buf, err) := os_ReadAt (sf_file f) segHeaderSize off in
      match err with
      | Some EOF => Some (inl f)
      | Some e => Some (inr e)
      | None =>
          if negb (len buf =? segHeaderSize) then Some (inl f)
          else
            let h := unmarshal buf in
            let s := {| seg_off := h_off h; seg_size := h_size h;
                        seg_pos := u64 (u64 off + u64 segHeaderSize); seg_data := [] |} in
            let off' := i64 (sf_off f + i64 (i64 segHeaderSize + i64 (seg_size s))) in
            replay fuel'
              {| sf_name := sf_name f; sf_file := sf_file f;
                 sf_size := i64 (u64 (seg_off s + seg_size s));
                 sf_off := off';
                 sf_segs := sf_segs f ++ [s] |}
              (i64 off')
      end
  end.

(** Every round of the loop that continues reads a whole header at its
    offset, so the offsets of a replay that ends are pairwise distinct
    positions of the file: one round more than the file has bytes is enough. *)
Definition OpenSegFile (d : gmap string (list byte)) (name : string) : option (SegFile + error) :=
  let file := os_OpenFile d name in
  replay (S (length (content file)))
    {| sf_name := name; sf_file := file; sf_size := 0; sf_off := 0; sf_segs := [] |} 0.

Definition SegFile_WriteAt (f : SegFile) (b : list byte) (off : Z) : SegFile * Z * option error :=
  let s := {| seg_off := u64 off; seg_size := u64 (len b);
              seg_pos := u64 (i64 (sf_off f + i64 segHeaderSize)); seg_data := [] |} in
  let '(file1, _, _) :=
    os_WriteAt (sf_file f) (marshal {| h_off := seg_off s; h_size := seg_size s |}) (i64 (sf_off f)) in
  let '(file2, n, err) := os_WriteAt file1 b (i64 (seg_pos s)) in
  ({| sf_name := sf_name f; sf_file := file2;
      sf_size := i64 (sf_size f + i64 (seg_size s));
      sf_off := i64 (sf_off f + i64 (i64 segHeaderSize + i64 (seg_size s)));
      sf_segs := sf_segs f ++ [s] |}, n, err).

(** [sort.Search(n, f)] of the Go library: binary search for the least index
    in [0, n] from which [f] holds. *)
Fixpoint search_loop (fuel : nat) (f : Z → bool) (i j : Z) : Z :=
  match fuel with
  | O => i
  | S fuel' =>
      if i <? j then
        let h := i64 (Z.shiftr (u64 (i + j)) 1) in
        if negb (f h) then search_loop fuel' f (h + 1) j
        else search_loop fuel' f i h
      else i
  end.

Definition sort_Search (n : Z) (f : Z → bool) : Z := search_loop (Z.to_nat n) f 0 n.

(** [make([]byte, n)] panics when [n] exceeds what the runtime can allocate. *)
Definition maxAlloc : Z := 2 ^ 48.

(** The bytes a read leaves in a buffer: the bytes read, then the rest of
    the buffer as it was. *)
Definition overlay (got b : list byte) : list byte := got ++ drop (length got) b.

(** The scan of [SegFile.ReadAt], over [f.segs[start:]]. *)
Fixpoint scan (file : OsFile) (off size : Z) (l : list seg)
    (segs : list seg) (err : option error) : outcome (list seg * option error) :=
  match l with
  | [] => Ok (segs, err)
  | s :: l' =>
      if i64 (u64 (seg_off s + seg_size s)) <=? off then scan file off size l' segs err
      else if i64 (off + size) <=? i64 (seg_off s) then Ok (segs, err)
      else if maxAlloc <? seg_size s then Panic
      else
        let b := replicate (Z.to_nat (seg_size s)) Byte.x00 in
        let '(got, e) := os_ReadAt file (len b) (i64 (seg_pos s)) in
        let cp := {| seg_off := seg_off s; seg_size := seg_size s; seg_pos := seg_pos s;
                     seg_data := overlay got b |} in
        scan file off size l' (segs ++ [cp]) e
  end.

Definition SegFile_ReadAt (f : SegFile) (off size : Z) : outcome (list seg * option error) :=
  let i := sort_Search (len (sf_segs f)) (fun i => u64 off <? seg_off (idx (sf_segs f) i)) in
  let start := i - 1 in
  let start := if start <? 0 then 0 else start in
  scan (sf_file f) off size (drop (Z.to_nat start) (sf_segs f)) [] None.

Definition SegFile_Close (f : SegFile) : SegFile * option error :=
  let '(file, err) := os_Close (sf_file f) in
  ({| sf_name := sf_name f; sf_file := file; sf_size := sf_size f;
      sf_off := sf_off f; sf_segs := sf_segs f |}, err).

(** ** File: the merged file *)

Definition numFiles : nat := 2.

Record File := { f_files : list SegFile; f_size : Z }.

(** [fmt.Sprintf("%s-%d", name, i)] *)
Definition shard_name (name : string) (i : nat) : string :=
  (name +:+ "-" +:+ pretty i)%string.

Fixpoint open_shards (d : gmap string (list byte)) (name : string) (ixs : list nat)
    (files : list SegFile) (size : Z) : option (File + error) :=
  match ixs with
  | [] => Some (inl {| f_files := files; f_size := size |})
  | i :: ixs' =>
      match OpenSegFile d (shard_name name i) with
      | None => None
      | Some (inr e) => Some (inr e)
      | Some (inl file) =>
          open_shards d name ixs' (files ++ [file])
            (if size <? i64 (sf_size file) then i64 (sf_size file) else size)
      end
  end.

Definition OpenFile (d : gmap string (list byte)) (name : string) : option (File + error) :=
  open_shards d name (seq 0 numFiles) [] 0.

(** [File.WriteAt]; [r] is the value of [rand.Intn(len(f.files))]. The
    shards are held by pointer: the chosen one is updated also when the
    write fails. *)
Definition File_WriteAt (f : File) (r : nat) (b : list byte) (off : Z)
    : outcome (File * Z * option error) :=
  match f_files f !! r with
  | None => Panic
  | Some sf =>
      let '(sf', n, err) := SegFile_WriteAt sf b off in
      let files := <[r := sf']> (f_files f) in
      match err with
      | Some e => Ok ({| f_files := files; f_size := f_size f |}, n, Some e)
      | None => Ok ({| f_files := files; f_size := i64 (f_size f + i64 (len b)) |}, n, None)
      end
  end.

(** The first loop of [File.ReadAt]: query every shard and merge. *)
Fixpoint gather (fs : list SegFile) (off n : Z) (segs : list seg) : outcome (list seg + error) :=
  match fs with
  | [] => Ok (inl segs)
  | sf :: fs' =>
      r ← SegFile_ReadAt sf off n;
      match r.2 with
      | None | Some EOF => gather fs' off n (mergeSegs segs r.1)
      | Some e => Ok (inr e)
      end
  end.

(** [l[lo:hi]] and [l[lo:]] with the bounds checks of the language. *)
Definition slice (l : list byte) (lo hi : Z) : outcome (list byte) :=
  if (0 <=? lo) && (lo <=? hi) && (hi <=? len l)
  then Ok (take (Z.to_nat (hi - lo)) (drop (Z.to_nat lo) l))
  else Panic.

Definition slice_from (l : list byte) (lo : Z) : outcome (list byte) := slice l lo (len l).

(** The copy loop of [File.ReadAt]; returns the buffer and [n]. *)
Fixpoint copy_loop (segs : list seg) (b : list byte) (off n : Z) : outcome (list byte * Z) :=
  match segs with
  | [] => Ok (b, n)
  | s :: segs' =>
      if n <? len b then
        let segOff := i64 (off - i64 (seg_off s)) in
        let segRemain := i64 (u64 (seg_size s - u64 segOff)) in
        let readSize := if len b - n <? segRemain then len b - n else segRemain in
        dst ← slice b n (n + readSize);
        src ← slice_from (seg_data s) segOff;
        let num := Z.min (len dst) (len src) in
        let b' := take (Z.to_nat n) b ++ take (Z.to_nat num) src
                    ++ drop (Z.to_nat (n + num)) b in
        copy_loop segs' b' (i64 (off + num)) (n + num)
      else Ok (b, n)
  end.

(** [File.ReadAt]: the buffer after the call, [n] and [err]. The error of
    a shard is local to the loop body; the result's error is set on the
    first line only. *)
Definition File_ReadAt (f : File) (b : list byte) (off : Z)
    : outcome (list byte * Z * option error) :=
  if f_size f <? off then Ok (b, 0, Some EOF)
  else
    g ← gather (f_files f) off (len b) [];
    match g with
    | inr e => Ok (b, 0, Some e)
    | inl segs =>
        r ← copy_loop segs b off 0;
        Ok (r.1, r.2, None)
    end.

(** [File.Close] *)
Fixpoint close_loop (fs : list SegFile) : list SegFile * option error :=
  match fs with
  | [] => ([], None)
  | sf :: fs' =>
      let '(sf', err) := SegFile_Close sf in
      match err with
      | Some e => (sf' :: fs', Some e)
      | None => let '(fs'', e) := close_loop fs' in (sf' :: fs'', e)
      end
  end.

Definition File_Close (f : File) : File * option error :=
  let '(fs, err) := close_loop (f_files f) in
  ({| f_files := fs; f_size := f_size f |}, err).

(** ** Orders on frames *)

Definition off_le (x y : seg) : Prop := seg_off x ≤ seg_off y.
Definition key_le (x y : seg) : Prop :=
  seg_off x < seg_off y ∨ (seg_off x = seg_off y ∧ seg_size x ≤ seg_size y).
Definition key_ge (x y : seg) : Prop := key_le y x.

(** A descriptor without payload, for examples. *)
Definition sg (o s : Z) : seg := {| seg_off := o; seg_size := s; seg_pos := 0; seg_data := [] |}.

(** ** Closing *)

Definition is_closed (sf : SegFile) : Prop := closed (sf_file sf) = true.
Definition is_open (sf : SegFile) : Prop := closed (sf_file sf) = false.

Definition all_closed (f : File) : Prop := Forall is_closed (f_files f).

(** A shard on an empty file, and the same shard after its handle was closed. *)
Definition empty_shard (name : string) : SegFile :=
  {| sf_name := name; sf_file := os_OpenFile ∅ name; sf_size := 0; sf_off := 0; sf_segs := [] |}.

Definition closed_shard (name : string) : SegFile := (SegFile_Close (empty_shard name)).1.

(** A merged file whose first shard is closed already and whose second
    shard is open. *)
Definition half_closed : File :=
  {| f_files := [closed_shard "m-0"; empty_shard "m-1"]; f_size := 0 |}.

(** ** The log of a shard *)

(** The bytes all frames of a descriptor list take in the log. *)
Definition frame_bytes (l : list seg) : Z :=
  foldr (λ s acc, segHeaderSize + seg_size s + acc) 0 l.

(** The position invariant of a shard: the first payload sits right after
    the first header, each later payload one header after the end of the
    payload before it, and the append cursor is the size of all frames. *)
Definition log_inv (f : SegFile) : Prop :=
  (∀ s, head (sf_segs f) = Some s → seg_pos s = segHeaderSize)
  ∧ (∀ i s t, sf_segs f !! i = Some s → sf_segs f !! S i = Some t →
       seg_pos t = seg_pos s + seg_size s + segHeaderSize)
  ∧ sf_off f = frame_bytes (sf_segs f).

(** The same positions, counted from a cursor. *)
Fixpoint chain (cursor : Z) (l : list seg) : Prop :=
  match l with
  | [] => True
  | s :: l' =>
      seg_pos s = cursor + segHeaderSize
      ∧ chain (cursor + segHeaderSize + seg_size s) l'
  end.

(** A logged frame: the logical offset and the payload of one write. *)
Record frame := { fr_off : Z; fr_data : list byte }.

Definition encode_frame (fr : frame) : list byte :=
  marshal {| h_off := fr_off fr; h_size := len (fr_data fr) |} ++ fr_data fr.

Definition encode_log (frs : list frame) : list byte := concat (encode_frame <$> frs).

(** The descriptors of the frames of a log that starts at [cursor]. *)
Fixpoint descriptors (cursor : Z) (frs : list frame) : list seg :=
  match frs with
  | [] => []
  | fr :: frs' =>
      {| seg_off := fr_off fr; seg_size := len (fr_data fr);
         seg_pos := cursor + segHeaderSize; seg_data := [] |}
      :: descriptors (cursor + segHeaderSize + len (fr_data fr)) frs'
  end.

(** A well-formed log: whole frames, offsets that are 64-bit words, and a
    size within the range of a file offset. *)
Definition wf_log (frs : list frame) : Prop :=
  Forall (λ fr, 0 ≤ fr_off fr < 2 ^ 64) frs ∧ len (encode_log frs) < 2 ^ 63.

(** The size field a replay leaves: the end of the last frame read. *)
Definition replay_size (sz : Z) (frs : list frame) : Z :=
  foldl (λ _ fr, i64 (u64 (fr_off fr + len (fr_data fr)))) sz frs.

(** A log of one frame, one byte written at offset 0, stored under "m-0". *)
Definition one_frame_log : list frame := [{| fr_off := 0; fr_data := [Byte.x01] |}].

Definition one_frame_disk : gmap string (list byte) :=
  {[ "m-0"%string := encode_log one_frame_log ]}.

(** ** The window query of a shard *)

(** The test of the scan: the frame ends after the window's start and
    starts before the window's end. *)
Definition hits (off size : Z) (s : seg) : bool :=
  (off <? seg_off s + seg_size s) && (seg_off s <? off + size).

(** The frame's interval and the window share a byte position. *)
Definition intersects (off size : Z) (s : seg) : Prop :=
  ∃ x, (off ≤ x < off + size) ∧ (seg_off s ≤ x < seg_off s + seg_size s).

(** [x] ends at or before the start of [y]. *)
Definition ends_before (x y : seg) : Prop := seg_off x + seg_size x ≤ seg_off y.

(** The fields of a descriptor are within the ranges in which the
    conversions between [uint64], [int64] and [int] keep the value, and the
    payload can be allocated. *)
Definition seg_ok (s : seg) : Prop :=
  0 ≤ seg_off s ∧ 0 ≤ seg_size s ≤ maxAlloc
  ∧ seg_off s + seg_size s < 2 ^ 63 ∧ 0 ≤ seg_pos s < 2 ^ 63.

Definition descriptor (s : seg) : seg :=
  {| seg_off := seg_off s; seg_size := seg_size s; seg_pos := seg_pos s; seg_data := [] |}.

(** The frame the scan builds for a descriptor: the payload buffer after
    the read at the storage position. *)
Definition load (file : OsFile) (s : seg) : seg :=
  {| seg_off := seg_off s; seg_size := seg_size s; seg_pos := seg_pos s;
     seg_data :=
       overlay (os_ReadAt file (seg_size s) (i64 (seg_pos s))).1
               (replicate (Z.to_nat (seg_size s)) Byte.x00) |}.

(** The error the scan returns: the one of the last read. *)
Definition scan_err (file : OsFile) (err : option error) (l : list seg) : option error :=
  foldl (λ _ s, (os_ReadAt file (seg_size s) (i64 (seg_pos s))).2) err l.

(** A shard that holds a frame of 100 bytes at offset 0 and, written after
    it, a frame of 5 bytes at offset 10. *)
Definition overlap_shard : SegFile :=
  (SegFile_WriteAt
     (SegFile_WriteAt (empty_shard "m-0") (replicate 100 Byte.x01) 0).1.1
     (replicate 5 Byte.x02) 10).1.1.

(** A shard of three frames one after the other: offsets 0, 4 and 6. *)
Definition three_frame_shard : SegFile :=
  (SegFile_WriteAt
     (SegFile_WriteAt
        (SegFile_WriteAt (empty_shard "m-0") (replicate 4 Byte.x01) 0).1.1
        (replicate 2 Byte.x02) 4).1.1
     (replicate 3 Byte.x03) 6).1.1.

(** ** Stores described by their logs *)


(** The frames of a log with their payloads in memory, as a query returns
    them. *)
Fixpoint loaded (cursor : Z) (frs : list frame) : list seg :=
  match frs with
  | [] => []
  | fr :: frs' =>
      {| seg_off := fr_off fr; seg_size := len (fr_data fr);
         seg_pos := cursor + segHeaderSize; seg_data := fr_data fr |}
      :: loaded (cursor + segHeaderSize + len (fr_data fr)) frs'
  end.

Definition fr_end (fr : frame) : Z := fr_off fr + len (fr_data fr).


(** The shard holds exactly the log [l]: its handle is open, its file is the
    encoding of [l], its descriptors and its cursor are those of [l]. *)
Definition holds (sf : SegFile) (l : list frame) : Prop :=
  is_open sf
  ∧ content (sf_file sf) = encode_log l
  ∧ sf_off sf = len (encode_log l)
  ∧ sf_segs sf = descriptors 0 l.

(** The frames of a log are within the ranges of the machine integers. *)
Definition frame_ok (fr : frame) : Prop :=
  0 ≤ fr_off fr ∧ fr_end fr < 2 ^ 63 ∧ len (fr_data fr) ≤ maxAlloc.

Definition log_ok (l : list frame) : Prop :=
  Forall frame_ok l ∧ len (encode_log l) < 2 ^ 63.

(** Frames that follow one another without gap or overlap from offset [o]. *)
Fixpoint contig (o : Z) (fs : list frame) : Prop :=
  match fs with
  | [] => True
  | fr :: fs' => fr_off fr = o ∧ contig (o + len (fr_data fr)) fs'
  end.

(** The bytes of a sequence of frames, one payload after the other. *)
Definition payload (fs : list frame) : list byte := concat (fr_data <$> fs).

Definition ends_beforeF (x y : frame) : Prop := fr_end x ≤ fr_off y.

(** The frames a query of the window returns from a shard that holds [l]. *)
Definition window (off size : Z) (l : list frame) : list seg :=
  filter (hits off size) (loaded 0 l).

(** ** The copy into the caller's buffer *)

(** The buffer [b] with the bytes [x] copied in from index [n] on. *)
Definition splice (b : list byte) (n : nat) (x : list byte) : list byte :=
  take n b ++ x ++ drop (n + length x) b.

(** A frame in memory without its storage position. *)
Definition strip (s : seg) : seg :=
  {| seg_off := seg_off s; seg_size := seg_size s; seg_pos := 0; seg_data := seg_data s |}.

Definition bare (fr : frame) : seg :=
  {| seg_off := fr_off fr; seg_size := len (fr_data fr); seg_pos := 0; seg_data := fr_data fr |}.

(** The merged file [f] holds the logs [logs], one per shard. *)
Definition stored (f : File) (logs : list (list frame)) : Prop :=
  Forall2 holds (f_files f) logs.

(** The frames of all shards together are the gapless chain [fs] that
    starts at offset 0, and every shard has its frames in the order of the
    chain. *)
Definition gapless (logs : list (list frame)) (fs : list frame) : Prop :=
  concat logs ≡ₚ fs ∧ Forall (Sorted ends_beforeF) logs ∧ contig 0 fs.

(** ** Sequences of writes *)

(** One call of [File.WriteAt]: the shard [rand.Intn] picks, the payload
    and the logical offset. *)
Record write := { w_shard : nat; w_data : list byte; w_off : Z }.

Fixpoint run_writes (f : File) (ws : list write) : outcome File :=
  match ws with
  | [] => Ok f
  | w :: ws' =>
      r ← File_WriteAt f (w_shard w) (w_data w) (w_off w);
      run_writes r.1.1 ws'
  end.

(** The frame a write appends. *)
Definition w_frame (w : write) : frame := {| fr_off := u64 (w_off w); fr_data := w_data w |}.

(** The logs of the shards after a write on shard [r]. *)
Definition log_write (logs : list (list frame)) (w : write) : list (list frame) :=
  alter (λ l, l ++ [w_frame w]) (w_shard w) logs.

(** Writes that follow one another from offset [o] on: each starts where
    the one before ended, on a shard that exists. *)
Fixpoint contig_writes (o : Z) (ws : list write) : Prop :=
  match ws with
  | [] => True
  | w :: ws' =>
      w_off w = o ∧ (w_shard w < numFiles)%nat
      ∧ contig_writes (o + len (w_data w)) ws'
  end.

(** The payloads can be allocated and the logs stay within the range of a
    file offset. *)
Definition writes_fit (ws : list write) : Prop :=
  Forall (λ w, len (w_data w) ≤ maxAlloc) ws
  ∧ len (encode_log (w_frame <$> ws)) < 2 ^ 63.

(** The bytes written, in the order of the writes. *)
Definition written (ws : list write) : list byte := payload (w_frame <$> ws).

(** The merged file opened on an empty file system. *)
Definition fresh (name : string) : File :=
  {| f_files := [empty_shard (shard_name name 0); empty_shard (shard_name name 1)];
     f_size := 0 |}.

(** The merged file [f] holds the logs [logs], whose frames are the gapless
    chain [fs]; the known size is the end of the chain. *)
Definition sound (f : File) (logs : list (list frame)) (fs : list frame) : Prop :=
  stored f logs ∧ gapless logs fs ∧ Forall frame_ok fs
  ∧ f_size f = len (payload fs) ∧ length logs = numFiles.

(** One byte written at offset 5 on shard 0: a store with a gap in front. *)
Definition sparse_writes : list write :=
  [{| w_shard := 0; w_data := [Byte.x01]; w_off := 5 |}].

(** Two bytes at offset 0 and two bytes at offset 5: a gap in the middle. *)
Definition gap_writes : list write :=
  [{| w_shard := 0; w_data := [Byte.x01; Byte.x02]; w_off := 0 |};
   {| w_shard := 1; w_data := [Byte.x03; Byte.x04]; w_off := 5 |}].

(** Four bytes at offset 0 on shard 0, then two bytes at offset 4 on
    shard 1. *)
Definition two_writes : list write :=
  [{| w_shard := 0; w_data := [Byte.x01; Byte.x02; Byte.x03; Byte.x04]; w_off := 0 |};
   {| w_shard := 1; w_data := [Byte.x05; Byte.x06]; w_off := 4 |}].

(** ** Two frames at one offset *)



(** Two bytes at offset 0 and then one byte at offset 0, both on shard 0. *)
Definition rewrite_writes : list write :=
  [{| w_shard := 0; w_data := [Byte.x02; Byte.x03]; w_off := 0 |};
   {| w_shard := 0; w_data := [Byte.x01]; w_off := 0 |}].

(** The store after a sequence of writes on the empty store "m". *)
Definition store_after (ws : list write) : File :=
  match run_writes (fresh "m") ws with
  | Ok f => f
  | Panic => fresh "m"
  end.

(** ** Closing and reopening *)

(** The file system after the handles of [f] left their bytes in it. *)
Definition File_persist (f : File) (d : gmap string (list byte)) : gmap string (list byte) :=
  foldr (λ sf d, os_persist (sf_file sf) d) d (f_files f).

(** The shards of [f] have their files under the names of [name]. *)
Definition named (name : string) (f : File) : Prop :=
  (λ sf, fname (sf_file sf)) <$> f_files f
  = shard_name name <$> seq 0 (length (f_files f)).

(** The merged file [f] of [name] holds the logs [logs] of frames whose
    offsets are 64-bit words. *)
Definition kept (name : string) (f : File) (logs : list (list frame)) : Prop :=
  stored f logs ∧ named name f ∧ length logs = numFiles
  ∧ Forall (Forall (λ fr, 0 ≤ fr_off fr < 2 ^ 64)) logs.

(** The size [OpenFile] computes from the shards it opened. *)
Definition known_size (logs : list (list frame)) : Z :=
  foldl (λ size l, if size <? i64 (replay_size 0 l) then i64 (replay_size 0 l) else size)
        0 logs.

(** ** Removing

    [os.Remove] deletes what is stored under a name; when nothing is stored
    under it the call fails with a [*PathError] that carries the operation
    and the path (its cause is [ENOENT]). *)

Record PathError := { pe_op : string; pe_path : string }.

Definition os_Remove (d : gmap string (list byte)) (name : string)
    : gmap string (list byte) * option PathError :=
  match d !! name with
  | Some _ => (delete name d, None)
  | None => (d, Some {| pe_op := "remove"; pe_path := name |})
  end.

(** The loop of [Remove]: one [os.Remove] per shard, returning at the first
    error. *)
Fixpoint remove_loop (d : gmap string (list byte)) (name : string) (ixs : list nat)
    : gmap string (list byte) * option PathError :=
  match ixs with
  | [] => (d, None)
  | i :: ixs' =>
      let '(d', err) := os_Remove d (shard_name name i) in
      match err with
      | Some e => (d', Some e)
      | None => remove_loop d' name ixs'
      end
  end.

Definition Remove (d : gmap string (list byte)) (name : string)
    : gmap string (list byte) * option PathError :=
  remove_loop d name (seq 0 numFiles).

(** ** Headers that do not come from a write *)

(** The state [OpenSegFile] starts its loop in. *)
Definition opened (d : gmap string (list byte)) (name : string) : SegFile :=
  {| sf_name := name; sf_file := os_OpenFile d name; sf_size := 0; sf_off := 0; sf_segs := [] |}.

(** ** Closed stores *)

(** The shard with its handle closed. *)
Definition shut (sf : SegFile) : SegFile := (SegFile_Close sf).1.

(** * Properties *)

(** * The merge of two frame sequences *)

Example mergeSegs_ex1 :
  mergeSegs [sg 0 1] [sg 0 2] = [sg 0 1; sg 0 2].
Proof. reflexivity. Qed.

Example mergeSegs_ex2 :
  mergeSegs [sg 0 2; sg 5 1] [sg 0 1; sg 3 1; sg 7 7]
  = [sg 0 1; sg 0 2; sg 3 1; sg 5 1; sg 7 7].
Proof. reflexivity. Qed.

Lemma idx_middle (P Q : list seg) (x : seg) (i : Z) :
  i = len P → idx (P ++ x :: Q) i = x.
Proof.
  intros ->. unfold idx, len. rewrite Nat2Z.id.
  by rewrite list_lookup_middle.
Qed.

Lemma insert_middle (P Q : list seg) (x v : seg) (k : Z) :
  k = len P → <[Z.to_nat k := v]> (P ++ x :: Q) = P ++ v :: Q.
Proof.
  intros ->. unfold len. rewrite Nat2Z.id.
  rewrite insert_app_r_alt by lia. by rewrite Nat.sub_diag.
Qed.

Lemma len_app {A} (l1 l2 : list A) : len (l1 ++ l2) = len l1 + len l2.
Proof. unfold len. rewrite length_app. lia. Qed.

Lemma len_cons {A} (x : A) (l : list A) : len (x :: l) = 1 + len l.
Proof. unfold len. simpl. lia. Qed.

Lemma len_nonneg {A} (l : list A) : 0 ≤ len l.
Proof. unfold len. lia. Qed.

Lemma merge_desc_nil_r xs : merge_desc xs [] = xs.
Proof. by destruct xs. Qed.

Lemma merge_desc_nil_l ys : merge_desc [] ys = ys.
Proof. by destruct ys. Qed.

Lemma merge_asc_nil_l ns : merge_asc [] ns = ns.
Proof. unfold merge_asc. rewrite reverse_nil, merge_desc_nil_l. by rewrite reverse_involutive. Qed.

Lemma merge_asc_nil_r ms : merge_asc ms [] = ms.
Proof. unfold merge_asc. rewrite reverse_nil, merge_desc_nil_r. by rewrite reverse_involutive. Qed.

Lemma merge_asc_snoc ms ns x y :
  merge_asc (ms ++ [x]) (ns ++ [y]) =
  if seg_ge x y then merge_asc ms (ns ++ [y]) ++ [x] else merge_asc (ms ++ [x]) ns ++ [y].
Proof.
  unfold merge_asc. rewrite !reverse_snoc. simpl.
  destruct (seg_ge x y); by rewrite reverse_cons.
Qed.

Ltac len_lia :=
  unfold len in *; rewrite ?length_app in *; cbn [length] in *; lia.

Lemma drain_loop_spec ns : ∀ fuel n_rest P X S,
  length X = length ns → (length ns ≤ fuel)%nat →
  drain_loop fuel (ns ++ n_rest) (P ++ X ++ S) (len ns - 1) (len P + len ns - 1)
  = P ++ ns ++ S.
Proof.
  induction ns as [|y ns IH] using rev_ind; intros fuel n_rest P X S HX Hfuel.
  - destruct X; [|done]. destruct fuel; done.
  - destruct fuel as [|fuel]; [len_lia|].
    destruct X as [|x0 X _] using rev_ind; [len_lia|].
    cbn [drain_loop].
    replace (0 <=? len (ns ++ [y]) - 1) with true by (symmetry; apply Z.leb_le; len_lia).
    replace ((ns ++ [y]) ++ n_rest) with (ns ++ y :: n_rest) by (by rewrite <- app_assoc).
    rewrite idx_middle by len_lia.
    replace (P ++ (X ++ [x0]) ++ S) with ((P ++ X) ++ x0 :: S) by (by rewrite <- !app_assoc).
    rewrite insert_middle by len_lia.
    replace (len (ns ++ [y]) - 1 - 1) with (len ns - 1) by len_lia.
    replace (len P + len (ns ++ [y]) - 1 - 1) with (len P + len ns - 1) by len_lia.
    replace ((P ++ X) ++ y :: S) with (P ++ X ++ y :: S) by (by rewrite <- app_assoc).
    rewrite (IH fuel (y :: n_rest) P X (y :: S)) by len_lia.
    by rewrite <- app_assoc.
Qed.

Lemma merge_loops_spec : ∀ fuel ms ns n_rest X S f2,
  length X = length ns → (length ms + length ns ≤ fuel)%nat → (length ns ≤ f2)%nat →
  (let '(m, j, k) := merge_loop fuel (ns ++ n_rest) (ms ++ X ++ S)
                       (len ms - 1) (len ns - 1) (len ms + len ns - 1) in
   drain_loop f2 (ns ++ n_rest) m j k) = merge_asc ms ns ++ S.
Proof.
  induction fuel as [|fuel IH]; intros ms ns n_rest X S f2 HX Hfuel Hf2.
  - destruct ms; [|len_lia]. destruct ns; [|len_lia].
    destruct X; [|done]. simpl. destruct f2; done.
  - destruct ms as [|x ms _] using rev_ind.
    + cbn [merge_loop]. rewrite merge_asc_nil_l.
      change (len (@nil seg) - 1) with (-1). cbn [Z.leb andb Z.compare].
      by apply (drain_loop_spec ns f2 n_rest [] X S).
    + destruct ns as [|y ns _] using rev_ind.
      * destruct X; [|done]. rewrite merge_asc_nil_r.
        cbn [merge_loop]. change (len (@nil seg) - 1) with (-1).
        rewrite andb_false_r. destruct f2; done.
      * destruct X as [|x0 X _] using rev_ind; [len_lia|].
        cbn [merge_loop].
        replace (0 <=? len (ms ++ [x]) - 1) with true by (symmetry; apply Z.leb_le; len_lia).
        replace (0 <=? len (ns ++ [y]) - 1) with true by (symmetry; apply Z.leb_le; len_lia).
        cbn [andb].
        replace ((ns ++ [y]) ++ n_rest) with (ns ++ y :: n_rest) by (by rewrite <- app_assoc).
        replace ((ms ++ [x]) ++ (X ++ [x0]) ++ S) with (ms ++ x :: (X ++ x0 :: S))
          by (by rewrite <- !app_assoc).
        rewrite !idx_middle by len_lia.
        rewrite merge_asc_snoc.
        replace (ms ++ x :: (X ++ x0 :: S)) with ((ms ++ x :: X) ++ x0 :: S)
          by (by rewrite <- !app_assoc).
        destruct (seg_ge x y).
        -- rewrite insert_middle by len_lia.
           replace (len (ms ++ [x]) + len (ns ++ [y]) - 1 - 1) with (len ms + len (ns ++ [y]) - 1)
             by len_lia.
           replace (len (ms ++ [x]) - 1 - 1) with (len ms - 1) by len_lia.
           replace (ns ++ y :: n_rest) with ((ns ++ [y]) ++ n_rest) by (by rewrite <- app_assoc).
           replace ((ms ++ x :: X) ++ x :: S) with (ms ++ (x :: X) ++ x :: S)
             by (by rewrite <- app_assoc).
           rewrite (IH ms (ns ++ [y]) n_rest (x :: X) (x :: S) f2) by len_lia.
           by rewrite <- app_assoc.
        -- rewrite insert_middle by len_lia.
           replace (len (ms ++ [x]) + len (ns ++ [y]) - 1 - 1) with (len (ms ++ [x]) + len ns - 1)
             by len_lia.
           replace (len (ns ++ [y]) - 1 - 1) with (len ns - 1) by len_lia.
           replace ((ms ++ x :: X) ++ y :: S) with ((ms ++ [x]) ++ X ++ y :: S)
             by (by rewrite <- !app_assoc).
           rewrite (IH (ms ++ [x]) ns (y :: n_rest) X (y :: S) f2) by len_lia.
           by rewrite <- app_assoc.
Qed.

Lemma mergeSegs_merge_asc a b :
  mergeSegs a b = if (length a <? length b)%nat then merge_asc b a else merge_asc a b.
Proof.
  unfold mergeSegs.
  destruct a as [|a0 a]; [simpl; destruct b; [done|]; simpl; by rewrite merge_asc_nil_r|].
  destruct b as [|b0 b]; [simpl; by rewrite merge_asc_nil_r|].
  replace (len (a0 :: a) =? 0) with false by (symmetry; apply Z.eqb_neq; rewrite len_cons; pose proof (len_nonneg a); lia).
  replace (len (b0 :: b) =? 0) with false by (symmetry; apply Z.eqb_neq; rewrite len_cons; pose proof (len_nonneg b); lia).
  assert (Hlt : (len (a0 :: a) <? len (b0 :: b)) = (length (a0 :: a) <? length (b0 :: b))%nat).
  { unfold len. destruct (Nat.ltb_spec (length (a0 :: a)) (length (b0 :: b)));
      [apply Z.ltb_lt|apply Z.ltb_ge]; lia. }
  rewrite Hlt.
  assert (Hgen : ∀ m n : list seg,
    (let '(m0, j, k) := merge_loop (length (m ++ n)) n (m ++ n) (len m - 1) (len n - 1) (len m + len n - 1) in
     drain_loop (length n) n m0 j k) = merge_asc m n).
  { intros m n.
    pose proof (merge_loops_spec (length (m ++ n)) m n [] n [] (length n)) as H.
    rewrite !app_nil_r in H. apply H; rewrite ?length_app; lia. }
  destruct (length (a0 :: a) <? length (b0 :: b))%nat; apply Hgen.
Qed.

Lemma seg_ge_key_le x y : seg_ge x y = true ↔ key_le y x.
Proof. unfold seg_ge, key_le. rewrite orb_true_iff, andb_true_iff, orb_true_iff. lia. Qed.

Lemma seg_ge_false x y : seg_ge x y = false → key_le x y.
Proof.
  intros H. destruct (seg_ge y x) eqn:E; [by apply seg_ge_key_le|].
  apply not_true_iff_false in H, E. rewrite seg_ge_key_le in H, E.
  unfold key_le in *. lia.
Qed.

Lemma key_le_off_le x y : key_le x y → off_le x y.
Proof. unfold key_le, off_le. lia. Qed.

Section merge_sorted.
Variable R : relation seg.
Hypothesis R_ge : ∀ x y, seg_ge x y = true → R x y.
Hypothesis R_lt : ∀ x y, seg_ge x y = false → R y x.

Lemma merge_desc_HdRel z xs ys :
  HdRel R z xs → HdRel R z ys → HdRel R z (merge_desc xs ys).
Proof.
  destruct xs as [|x xs], ys as [|y ys]; simpl; try done.
  intros Hx Hy. destruct (seg_ge x y); constructor.
  - by inversion Hx.
  - by inversion Hy.
Qed.

Lemma merge_desc_Sorted xs : ∀ ys,
  Sorted R xs → Sorted R ys → Sorted R (merge_desc xs ys).
Proof.
  induction xs as [|x xs IHx]; intros ys Hxs Hys.
  - by rewrite merge_desc_nil_l.
  - induction ys as [|y ys IHy]; [done|].
    simpl. destruct (seg_ge x y) eqn:E.
    + apply Sorted_cons.
      * apply IHx; [by inversion Hxs|done].
      * apply merge_desc_HdRel; [by inversion Hxs|]. constructor. by apply R_ge.
    + apply Sorted_cons.
      * apply IHy. by inversion Hys.
      * change (HdRel R y (merge_desc (x :: xs) ys)).
        apply merge_desc_HdRel; [|by inversion Hys]. constructor. by apply R_lt.
Qed.
End merge_sorted.

Lemma merge_desc_Permutation xs : ∀ ys, merge_desc xs ys ≡ₚ xs ++ ys.
Proof.
  induction xs as [|x xs IHx]; intros ys.
  - by rewrite merge_desc_nil_l.
  - induction ys as [|y ys IHy]; [by rewrite app_nil_r|].
    simpl. destruct (seg_ge x y).
    + apply perm_skip, IHx.
    + change (y :: merge_desc (x :: xs) ys ≡ₚ (x :: xs) ++ y :: ys).
      etrans; [apply perm_skip, IHy|]. apply Permutation_middle.
Qed.

Lemma merge_asc_Permutation m n : merge_asc m n ≡ₚ m ++ n.
Proof.
  unfold merge_asc.
  etrans; [apply reverse_Permutation|].
  etrans; [apply merge_desc_Permutation|].
  apply Permutation_app; apply reverse_Permutation.
Qed.

Lemma Sorted_flip_reverse (Q : relation seg) l : Sorted Q l → Sorted (flip Q) (reverse l).
Proof. apply Sorted_reverse. Qed.

Lemma merge_asc_Sorted (Q : relation seg) m n :
  (∀ x y, seg_ge x y = true → Q y x) →
  (∀ x y, seg_ge x y = false → Q x y) →
  Sorted Q m → Sorted Q n → Sorted Q (merge_asc m n).
Proof.
  intros Hge Hlt Hm Hn. unfold merge_asc.
  apply (Sorted_reverse (flip Q)).
  apply merge_desc_Sorted; [done|done|by apply Sorted_reverse..].
Qed.

Lemma mergeSegs_Permutation a b : mergeSegs a b ≡ₚ a ++ b.
Proof.
  rewrite mergeSegs_merge_asc. destruct (length a <? length b)%nat.
  - etrans; [apply merge_asc_Permutation|]. apply Permutation_app_comm.
  - apply merge_asc_Permutation.
Qed.

Lemma mergeSegs_Sorted (Q : relation seg) a b :
  (∀ x y, seg_ge x y = true → Q y x) →
  (∀ x y, seg_ge x y = false → Q x y) →
  Sorted Q a → Sorted Q b → Sorted Q (mergeSegs a b).
Proof.
  intros Hge Hlt Ha Hb. rewrite mergeSegs_merge_asc.
  destruct (length a <? length b)%nat; by apply merge_asc_Sorted.
Qed.

(** C3 *)
Theorem mergeSegs_ascending (a b : list seg) :
  Sorted off_le a → Sorted off_le b →
  mergeSegs a b ≡ₚ a ++ b
  ∧ Sorted off_le (mergeSegs a b)
  ∧ (Sorted key_le a → Sorted key_le b → Sorted key_le (mergeSegs a b)).
Proof.
  intros Ha Hb. split; [apply mergeSegs_Permutation|]. split.
  - apply mergeSegs_Sorted; [| |done..].
    + intros x y H. apply key_le_off_le. by apply seg_ge_key_le.
    + intros x y H. apply key_le_off_le. by apply seg_ge_false.
  - apply mergeSegs_Sorted.
    + intros x y H. by apply seg_ge_key_le.
    + apply seg_ge_false.
Qed.

Lemma mergeSegs_ascending_witness :
  Sorted key_le (mergeSegs [sg 0 2; sg 5 1] [sg 0 1; sg 3 1; sg 7 7]).
Proof.
  apply (mergeSegs_ascending [sg 0 2; sg 5 1] [sg 0 1; sg 3 1; sg 7 7]).
  - repeat constructor; unfold off_le; simpl; lia.
  - repeat constructor; unfold off_le; simpl; lia.
  - repeat constructor; unfold key_le; simpl; lia.
  - repeat constructor; unfold key_le; simpl; lia.
Defined.

Lemma mergeSegs_not_descending :
  Sorted off_le [sg 1 1] ∧ Sorted off_le [sg 2 1]
  ∧ ¬ Sorted key_ge (mergeSegs [sg 1 1] [sg 2 1]).
Proof.
  split; [repeat constructor|]. split; [repeat constructor|].
  intros H. change (mergeSegs [sg 1 1] [sg 2 1]) with [sg 1 1; sg 2 1] in H.
  inversion H as [|? ? _ Hd]; subst. inversion Hd as [|? ? Hk]; subst.
  unfold key_ge, key_le in Hk. simpl in Hk. lia.
Qed.

(** * Closing the merged file *)

Lemma SegFile_Close_open sf :
  is_open sf → (SegFile_Close sf).2 = None ∧ is_closed (SegFile_Close sf).1.
Proof.
  unfold is_open, is_closed, SegFile_Close, os_Close. intros ->. by simpl.
Qed.

Lemma SegFile_Close_closed sf :
  is_closed sf → SegFile_Close sf = (sf, Some ErrClosed).
Proof.
  unfold is_closed, SegFile_Close, os_Close. intros ->. by destruct sf.
Qed.

Lemma SegFile_Close_error sf e :
  (SegFile_Close sf).2 = Some e → e = ErrClosed ∧ is_closed sf.
Proof.
  unfold SegFile_Close, os_Close, is_closed.
  destruct (closed (sf_file sf)) eqn:E; simpl; [|done]. by intros [= <-].
Qed.

Lemma close_loop_spec fs :
  match (close_loop fs).2 with
  | None => Forall is_open fs ∧ (close_loop fs).1 = (λ sf, (SegFile_Close sf).1) <$> fs
  | Some e =>
      ∃ pre sf post,
        fs = pre ++ sf :: post ∧ Forall is_open pre ∧ is_closed sf ∧ e = ErrClosed
        ∧ (close_loop fs).1 = ((λ sf, (SegFile_Close sf).1) <$> pre) ++ sf :: post
  end.
Proof.
  induction fs as [|sf fs IH]; [done|].
  cbn [close_loop].
  destruct (SegFile_Close sf) as [sf' [e|]] eqn:E.
  - pose proof (SegFile_Close_error sf e) as [-> Hc]; [by rewrite E|].
    rewrite (SegFile_Close_closed sf Hc) in E. injection E as <-.
    by exists [], sf, fs.
  - assert (Ho : is_open sf).
    { unfold is_open. destruct (closed (sf_file sf)) eqn:Hc; [|done].
      rewrite (SegFile_Close_closed sf Hc) in E. done. }
    destruct (close_loop fs) as [fs'' [e|]] eqn:E'; simpl in IH |- *.
    + destruct IH as (pre & sf0 & post & -> & Hpre & Hc & -> & ->).
      exists (sf :: pre), sf0, post. simpl. rewrite E.
      by repeat split; [constructor|..].
    + destruct IH as [Hopen ->]. simpl. rewrite E. by split; [constructor|].
Qed.

(** C8 (as amended): [File.Close] closes the shards in order and stops at
    the first shard whose close fails: it returns that error, the shards
    before it are closed and the shards after it are left as they were. When
    no close fails every shard is closed and the result is nil. *)
Theorem File_Close_stops_at_first_error (f : File) :
  f_size (File_Close f).1 = f_size f ∧
  match (File_Close f).2 with
  | None => all_closed (File_Close f).1
  | Some e =>
      ∃ pre sf post,
        f_files f = pre ++ sf :: post
        ∧ Forall is_open pre
        ∧ (SegFile_Close sf).2 = Some e
        ∧ f_files (File_Close f).1 = ((λ sf, (SegFile_Close sf).1) <$> pre) ++ sf :: post
        ∧ Forall is_closed ((λ sf, (SegFile_Close sf).1) <$> pre)
  end.
Proof.
  unfold File_Close, all_closed. pose proof (close_loop_spec (f_files f)) as H.
  destruct (close_loop (f_files f)) as [fs [e|]]; simpl in *; (split; [done|]).
  - destruct H as (pre & sf & post & Hf & Hpre & Hc & -> & ->).
    exists pre, sf, post. repeat split; try done.
    + by rewrite (SegFile_Close_closed sf Hc).
    + apply Forall_fmap. eapply Forall_impl; [exact Hpre|].
      intros x Hx. by apply SegFile_Close_open.
  - destruct H as [Hopen ->]. apply Forall_fmap. eapply Forall_impl; [exact Hopen|].
    intros x Hx. by apply SegFile_Close_open.
Qed.

(** C8 (as stated) fails: with the first shard's handle closed already,
    [File.Close] reports the error and the second shard stays open. *)
Lemma File_Close_leaves_shard_open :
  (File_Close half_closed).2 = Some ErrClosed ∧ ¬ all_closed (File_Close half_closed).1.
Proof.
  split; [reflexivity|].
  unfold all_closed. intros H. apply Forall_cons in H as [_ H].
  apply Forall_cons in H as [H _]. vm_compute in H. discriminate.
Qed.

(** * Machine integers within their range *)

Lemma u64_small z : 0 ≤ z < 2 ^ 64 → u64 z = z.
Proof. intros H. unfold u64. by apply Z.mod_small. Qed.

Lemma i64_small z : - 2 ^ 63 ≤ z < 2 ^ 63 → i64 z = z.
Proof. intros H. unfold i64. rewrite Z.mod_small; lia. Qed.

Lemma u64_range z : 0 ≤ u64 z < 2 ^ 64.
Proof. unfold u64. apply Z.mod_pos_bound. lia. Qed.

Lemma i64_range z : - 2 ^ 63 ≤ i64 z < 2 ^ 63.
Proof. unfold i64. pose proof (Z.mod_pos_bound (z + 2 ^ 63) (2 ^ 64)). lia. Qed.

Ltac wrap_small :=
  repeat match goal with
  | |- context [u64 ?z] => rewrite (u64_small z) by (unfold segHeaderSize in *; lia)
  | |- context [i64 ?z] => rewrite (i64_small z) by (unfold segHeaderSize in *; lia)
  end.

(** * The frame header *)

Lemma length_marshal h : length (marshal h) = 16%nat.
Proof. unfold marshal. by rewrite length_app, !length_le_split. Qed.

Lemma len_marshal h : len (marshal h) = 16.
Proof. unfold len. by rewrite length_marshal. Qed.

Lemma unmarshal_marshal h :
  0 ≤ h_off h < 2 ^ 64 → 0 ≤ h_size h < 2 ^ 64 → unmarshal (marshal h) = h.
Proof.
  intros Ho Hs. destruct h as [o s]. unfold unmarshal, marshal.
  cbn [h_off h_size] in *.
  rewrite take_app_length' by (by rewrite length_le_split).
  rewrite drop_app_length' by (by rewrite length_le_split).
  rewrite take_ge by (rewrite length_le_split; lia).
  rewrite !le_combine_split.
  change (Z.of_nat 8 * 8) with 64. by rewrite !Z.mod_small.
Qed.

Lemma unmarshal_marshal_app h rest :
  0 ≤ h_off h < 2 ^ 64 → 0 ≤ h_size h < 2 ^ 64 →
  unmarshal (take 16 (marshal h ++ rest)) = h.
Proof.
  intros. rewrite take_app_length' by (by rewrite length_marshal).
  by apply unmarshal_marshal.
Qed.

(** * Appending a frame *)

Lemma len_encode_frame fr : len (encode_frame fr) = 16 + len (fr_data fr).
Proof. unfold encode_frame. by rewrite len_app, len_marshal. Qed.

Lemma write_bytes_end c b : write_bytes c (length c) b = c ++ b.
Proof.
  unfold write_bytes. rewrite firstn_all, Nat.sub_diag.
  rewrite drop_ge by lia. simpl. by rewrite app_nil_r.
Qed.

Lemma SegFile_WriteAt_segs f b off :
  sf_segs (SegFile_WriteAt f b off).1.1
  = sf_segs f ++ [{| seg_off := u64 off; seg_size := u64 (len b);
                     seg_pos := u64 (i64 (sf_off f + i64 segHeaderSize));
                     seg_data := [] |}]
  ∧ sf_off (SegFile_WriteAt f b off).1.1
    = i64 (sf_off f + i64 (i64 segHeaderSize + i64 (u64 (len b)))).
Proof.
  unfold SegFile_WriteAt. cbn [seg_off seg_size seg_pos].
  destruct (os_WriteAt (sf_file f) _ _) as [[file1 n1] e1].
  by destruct (os_WriteAt file1 _ _) as [[file2 n2] e2].
Qed.

Lemma os_WriteAt_end f b off :
  closed f = false → off = len (content f) →
  os_WriteAt f b off =
    ({| fname := fname f; content := content f ++ b; closed := closed f |}, len b, None).
Proof.
  intros Hc ->. unfold os_WriteAt. rewrite Hc.
  replace (len (content f) <? 0) with false
    by (symmetry; apply Z.ltb_ge; apply len_nonneg).
  destruct (len b <=? 0) eqn:E.
  - apply Z.leb_le in E. assert (b = []) as -> by (destruct b; [done|len_lia]).
    rewrite app_nil_r. by destruct f; simpl in *; subst.
  - unfold len at 1. by rewrite Nat2Z.id, write_bytes_end.
Qed.

Lemma os_WriteAt_closed f b off :
  closed f = true → 0 ≤ off → 0 < len b → os_WriteAt f b off = (f, 0, Some ErrClosed).
Proof.
  intros Hc Ho Hb. unfold os_WriteAt. rewrite Hc.
  replace (off <? 0) with false by (symmetry; apply Z.ltb_ge; lia).
  by replace (len b <=? 0) with false by (symmetry; apply Z.leb_gt; lia).
Qed.

Lemma SegFile_WriteAt_open f b off :
  is_open f → sf_off f = len (content (sf_file f)) → sf_off f + 16 + len b < 2 ^ 63 →
  SegFile_WriteAt f b off =
    ({| sf_name := sf_name f;
        sf_file := {| fname := fname (sf_file f);
                      content := content (sf_file f)
                                 ++ encode_frame {| fr_off := u64 off; fr_data := b |};
                      closed := false |};
        sf_size := i64 (sf_size f + len b);
        sf_off := sf_off f + 16 + len b;
        sf_segs := sf_segs f ++ [{| seg_off := u64 off; seg_size := len b;
                                    seg_pos := sf_off f + 16; seg_data := [] |}] |},
     len b, None).
Proof.
  intros Hopen Hoff Hfit. unfold is_open in Hopen.
  pose proof (len_nonneg b) as Hb. pose proof (len_nonneg (content (sf_file f))) as Hc.
  unfold SegFile_WriteAt. cbn [seg_off seg_size seg_pos].
  wrap_small.
  rewrite (os_WriteAt_end (sf_file f)) by done.
  rewrite os_WriteAt_end;
    [|done|cbn [content]; rewrite len_app, len_marshal; unfold segHeaderSize; lia].
  cbn [fname content closed]. unfold encode_frame. cbn [fr_off fr_data].
  rewrite <- app_assoc, Hopen. unfold segHeaderSize.
  by replace (sf_off f + (16 + len b)) with (sf_off f + 16 + len b) by lia.
Qed.

(** C6, the failing path: a write to a shard whose handle is closed reports
    the error with nothing written, and still appends the descriptor and
    moves the append cursor past the frame that is not there. *)
Theorem SegFile_WriteAt_failure_keeps_descriptor (f : SegFile) (b : list byte) (off : Z) :
  is_closed f → 0 < len b → 0 ≤ sf_off f → sf_off f + 16 + len b < 2 ^ 63 →
  (SegFile_WriteAt f b off).1.2 = 0
  ∧ (SegFile_WriteAt f b off).2 = Some ErrClosed
  ∧ sf_segs (SegFile_WriteAt f b off).1.1
    = sf_segs f ++ [{| seg_off := u64 off; seg_size := len b;
                       seg_pos := sf_off f + 16; seg_data := [] |}]
  ∧ sf_off (SegFile_WriteAt f b off).1.1 = sf_off f + 16 + len b.
Proof.
  intros Hc Hb Ho Hfit. unfold is_closed in Hc.
  destruct (SegFile_WriteAt_segs f b off) as [Hs Hoff].
  rewrite Hs, Hoff. wrap_small. unfold segHeaderSize.
  assert (HW : SegFile_WriteAt f b off
               = ((SegFile_WriteAt f b off).1.1, 0, Some ErrClosed)).
  { unfold SegFile_WriteAt. cbn [seg_off seg_size seg_pos]. wrap_small.
    rewrite (os_WriteAt_closed (sf_file f)) by (rewrite ?len_marshal; done || lia).
    by rewrite (os_WriteAt_closed (sf_file f)) by (unfold segHeaderSize; done || lia). }
  split; [by rewrite HW|]. split; [by rewrite HW|]. split; [done|lia].
Qed.

Lemma SegFile_WriteAt_failure_keeps_descriptor_witness :
  (SegFile_WriteAt (closed_shard "m-0") [Byte.x01] 0).2 = Some ErrClosed
  ∧ sf_off (SegFile_WriteAt (closed_shard "m-0") [Byte.x01] 0).1.1 = 17.
Proof.
  pose proof (SegFile_WriteAt_failure_keeps_descriptor (closed_shard "m-0") [Byte.x01] 0)
    as H.
  destruct H as (_ & He & _ & Ho); [reflexivity|reflexivity|done|reflexivity|].
  split; [exact He|exact Ho].
Defined.

(** * The position invariant of a shard *)

Lemma frame_bytes_app l1 l2 : frame_bytes (l1 ++ l2) = frame_bytes l1 + frame_bytes l2.
Proof. induction l1 as [|s l1 IH]; simpl; [done|]. rewrite IH. lia. Qed.

Lemma chain_app l1 : ∀ c l2,
  chain c (l1 ++ l2) ↔ chain c l1 ∧ chain (c + frame_bytes l1) l2.
Proof.
  induction l1 as [|s l1 IH]; intros c l2; simpl.
  - rewrite Z.add_0_r. tauto.
  - rewrite IH.
    replace (c + segHeaderSize + seg_size s + frame_bytes l1)
      with (c + (segHeaderSize + seg_size s + frame_bytes l1)) by lia.
    tauto.
Qed.

Lemma chain_positions l : ∀ c,
  chain c l ↔
    (∀ s, head l = Some s → seg_pos s = c + segHeaderSize)
    ∧ (∀ i s t, l !! i = Some s → l !! S i = Some t →
         seg_pos t = seg_pos s + seg_size s + segHeaderSize).
Proof.
  induction l as [|x l IH]; intros c; simpl.
  - split; [|done]. intros _. split; [done|]. intros i s t H. by destruct i.
  - rewrite IH. split.
    + intros (Hx & Hh & Ht). split; [by intros s [= <-]|].
      intros [|i] s t Hs Ht'; simpl in *.
      * injection Hs as <-. rewrite Hx.
        rewrite (Hh t); [lia|]. by destruct l; simplify_eq.
      * by apply (Ht i).
    + intros [Hh Ht]. split; [by apply Hh|]. split.
      * intros s Hs. destruct l as [|y l]; [done|]. injection Hs as <-.
        rewrite (Ht 0%nat x y eq_refl eq_refl), (Hh x eq_refl). lia.
      * intros i s t Hs Ht'. by apply (Ht (S i)).
Qed.

Lemma log_inv_chain f :
  log_inv f ↔ chain 0 (sf_segs f) ∧ sf_off f = frame_bytes (sf_segs f).
Proof. unfold log_inv. rewrite chain_positions. simpl. tauto. Qed.

Lemma SegFile_WriteAt_log_inv f b off :
  log_inv f → 0 ≤ sf_off f → sf_off f + 16 + len b < 2 ^ 63 →
  log_inv (SegFile_WriteAt f b off).1.1.
Proof.
  intros [Hch Hoff]%log_inv_chain Ho Hfit. apply log_inv_chain.
  destruct (SegFile_WriteAt_segs f b off) as [-> ->].
  pose proof (len_nonneg b). wrap_small.
  rewrite chain_app, frame_bytes_app. simpl. rewrite <- Hoff.
  unfold segHeaderSize. repeat split; [done|lia..].
Qed.

(** * Replay of a log *)

Lemma os_ReadAt_open f n off :
  closed f = false → 0 ≤ off → 0 < n →
  os_ReadAt f n off =
    (take (Z.to_nat n) (drop (Z.to_nat off) (content f)),
     if len (take (Z.to_nat n) (drop (Z.to_nat off) (content f))) <? n
     then Some EOF else None).
Proof.
  intros Hc Ho Hn. unfold os_ReadAt. rewrite Hc.
  replace (off <? 0) with false by (symmetry; apply Z.ltb_ge; lia).
  by replace (n <=? 0) with false by (symmetry; apply Z.leb_gt; lia).
Qed.

Lemma encode_log_cons fr frs : encode_log (fr :: frs) = encode_frame fr ++ encode_log frs.
Proof. done. Qed.

Lemma encode_log_app frs1 frs2 :
  encode_log (frs1 ++ frs2) = encode_log frs1 ++ encode_log frs2.
Proof. unfold encode_log. by rewrite fmap_app, concat_app. Qed.

Lemma descriptors_app frs1 : ∀ c frs2,
  descriptors c (frs1 ++ frs2)
  = descriptors c frs1 ++ descriptors (c + len (encode_log frs1)) frs2.
Proof.
  induction frs1 as [|fr frs1 IH]; intros c frs2; simpl.
  - change (len (encode_log [])) with 0. by rewrite Z.add_0_r.
  - rewrite IH, encode_log_cons, len_app, len_encode_frame.
    do 3 f_equal. unfold segHeaderSize. lia.
Qed.

Lemma chain_descriptors frs : ∀ c, chain c (descriptors c frs).
Proof. induction frs as [|fr frs IH]; intros c; simpl; [done|]. split; [done|apply IH]. Qed.

Lemma frame_bytes_descriptors frs : ∀ c,
  frame_bytes (descriptors c frs) = len (encode_log frs).
Proof.
  induction frs as [|fr frs IH]; intros c; simpl; [done|].
  rewrite IH, encode_log_cons, len_app, len_encode_frame. unfold segHeaderSize. lia.
Qed.

Lemma to_nat_len {A} (l : list A) : Z.to_nat (len l) = length l.
Proof. unfold len. apply Nat2Z.id. Qed.

Lemma os_ReadAt_header f pre h rest :
  closed f = false → content f = pre ++ marshal h ++ rest →
  os_ReadAt f segHeaderSize (len pre) = (marshal h, None).
Proof.
  intros Hc Hcont. pose proof (len_nonneg pre).
  rewrite os_ReadAt_open by (done || unfold segHeaderSize; lia).
  rewrite Hcont, to_nat_len, drop_app_length.
  change (Z.to_nat segHeaderSize) with 16%nat.
  rewrite take_app_length' by (by rewrite length_marshal).
  by rewrite len_marshal.
Qed.

Lemma os_ReadAt_at_end f n :
  closed f = false → 0 < n → os_ReadAt f n (len (content f)) = ([], Some EOF).
Proof.
  intros Hc Hn. pose proof (len_nonneg (content f)).
  rewrite os_ReadAt_open by (done || lia).
  rewrite to_nat_len, drop_all. rewrite take_nil.
  change (len []) with 0. by replace (0 <? n) with true by (symmetry; apply Z.ltb_lt; lia).
Qed.

Lemma replay_spec rest : ∀ fuel f pre,
  is_open f →
  content (sf_file f) = pre ++ encode_log rest →
  sf_off f = len pre →
  Forall (λ fr, 0 ≤ fr_off fr < 2 ^ 64) rest →
  len pre + len (encode_log rest) < 2 ^ 63 →
  (length rest < fuel)%nat →
  replay fuel f (sf_off f) =
    Some (inl {| sf_name := sf_name f; sf_file := sf_file f;
                 sf_size := replay_size (sf_size f) rest;
                 sf_off := sf_off f + len (encode_log rest);
                 sf_segs := sf_segs f ++ descriptors (sf_off f) rest |}).
Proof.
  induction rest as [|fr rest IH]; intros fuel f pre Hopen Hcont Hoff Hwf Hfit Hfuel;
    (destruct fuel as [|fuel]; [simpl in Hfuel; lia|]);
    pose proof (len_nonneg pre) as Hpre; cbn [replay].
  - change (encode_log []) with (@nil byte) in *. rewrite app_nil_r in Hcont.
    rewrite Hoff at 1. rewrite <- Hcont, os_ReadAt_at_end by done.
    change (len (@nil byte)) with 0. rewrite Z.add_0_r, app_nil_r.
    by destruct f.
  - apply Forall_cons in Hwf as [Hfr Hwf].
    rewrite encode_log_cons, len_app, len_encode_frame in Hfit.
    pose proof (len_nonneg (fr_data fr)) as Hd.
    pose proof (len_nonneg (encode_log rest)) as Hr.
    rewrite Hoff at 1.
    rewrite (os_ReadAt_header (sf_file f) pre
               {| h_off := fr_off fr; h_size := len (fr_data fr) |}
               (fr_data fr ++ encode_log rest)); [|done|].
    2:{ rewrite Hcont, encode_log_cons. unfold encode_frame. by rewrite <- app_assoc. }
    rewrite len_marshal, unmarshal_marshal by (simpl; lia).
    cbn [Z.eqb Pos.eqb negb segHeaderSize h_off h_size seg_off seg_size].
    wrap_small.
    set (f' := {| sf_name := sf_name f; sf_file := sf_file f;
                  sf_size := i64 (u64 (fr_off fr + len (fr_data fr)));
                  sf_off := sf_off f + (16 + len (fr_data fr));
                  sf_segs := sf_segs f ++ [{| seg_off := fr_off fr; seg_size := len (fr_data fr);
                                              seg_pos := sf_off f + 16; seg_data := [] |}] |}).
    change (replay fuel _ _) with (replay fuel f' (sf_off f')).
    rewrite (IH fuel f' (pre ++ encode_frame fr)); try done.
    + subst f'. cbn [sf_name sf_file sf_size sf_off sf_segs descriptors replay_size foldl].
      rewrite encode_log_cons, len_app, len_encode_frame, <- app_assoc.
      unfold segHeaderSize. simpl.
      replace (sf_off f + (16 + len (fr_data fr))) with (sf_off f + 16 + len (fr_data fr)) by lia.
      by replace (sf_off f + (16 + len (fr_data fr) + len (encode_log rest)))
        with (sf_off f + 16 + len (fr_data fr) + len (encode_log rest)) by lia.
    + subst f'. cbn [sf_file]. rewrite Hcont, encode_log_cons. unfold encode_frame.
      by rewrite <- !app_assoc.
    + subst f'. cbn [sf_off]. rewrite len_app, len_encode_frame. lia.
    + rewrite len_app, len_encode_frame. lia.
    + simpl in Hfuel. lia.
Qed.

(** More rounds than a replay needs do not change its result. *)
Lemma replay_fuel_mono fuel : ∀ fuel' f off r,
  replay fuel f off = Some r → (fuel ≤ fuel')%nat → replay fuel' f off = Some r.
Proof.
  induction fuel as [|fuel IH]; intros fuel' f off r Hr Hle; [done|].
  destruct fuel' as [|fuel']; [lia|]. cbn [replay] in *.
  destruct (os_ReadAt (sf_file f) segHeaderSize off) as [buf [[]|]]; try done.
  destruct (negb (len buf =? segHeaderSize)); [done|].
  apply IH; [done|lia].
Qed.

Lemma length_encode_log frs : (length frs ≤ length (encode_log frs))%nat.
Proof.
  induction frs as [|fr frs IH]; [done|].
  rewrite encode_log_cons, length_app. unfold encode_frame.
  rewrite length_app, length_marshal. simpl. lia.
Qed.

Lemma OpenSegFile_log d name frs :
  default [] (d !! name) = encode_log frs → wf_log frs →
  OpenSegFile d name =
    Some (inl {| sf_name := name; sf_file := os_OpenFile d name;
                 sf_size := replay_size 0 frs;
                 sf_off := len (encode_log frs);
                 sf_segs := descriptors 0 frs |}).
Proof.
  intros Hd [Hwf Hfit]. unfold OpenSegFile.
  set (f0 := {| sf_name := name; sf_file := os_OpenFile d name; sf_size := 0;
                sf_off := 0; sf_segs := [] |}).
  change 0 with (sf_off f0) at 2.
  rewrite (replay_spec frs _ f0 []); try done.
  unfold os_OpenFile. cbn [content]. rewrite Hd.
  pose proof (length_encode_log frs). lia.
Qed.

Lemma log_inv_replayed name file sz frs :
  log_inv {| sf_name := name; sf_file := file; sf_size := sz;
             sf_off := len (encode_log frs); sf_segs := descriptors 0 frs |}.
Proof.
  apply log_inv_chain. cbn [sf_segs sf_off]. split; [apply chain_descriptors|].
  by rewrite frame_bytes_descriptors.
Qed.

(** C9: the position invariant holds after the replay of a well-formed log
    and is kept by every write: the first payload position is 16, each next
    one is the previous position plus the previous length plus 16, and the
    append cursor is the sum of 16 + length over the descriptors. *)
Theorem log_inv_kept :
  (∀ (d : gmap string (list byte)) (name : string) (frs : list frame),
     default [] (d !! name) = encode_log frs → wf_log frs →
     ∃ f, OpenSegFile d name = Some (inl f) ∧ log_inv f)
  ∧ (∀ (f : SegFile) (b : list byte) (off : Z),
       log_inv f → 0 ≤ sf_off f → sf_off f + 16 + len b < 2 ^ 63 →
       log_inv (SegFile_WriteAt f b off).1.1).
Proof.
  split.
  - intros d name frs Hd Hwf. eexists. split; [by apply OpenSegFile_log|].
    apply log_inv_replayed.
  - apply SegFile_WriteAt_log_inv.
Qed.

Lemma log_inv_empty_shard name : log_inv (empty_shard name).
Proof. apply log_inv_chain. by split. Qed.

Lemma log_inv_kept_witness :
  (∃ f, OpenSegFile one_frame_disk "m-0" = Some (inl f) ∧ log_inv f)
  ∧ log_inv (SegFile_WriteAt (empty_shard "m-0") [Byte.x01] 0).1.1.
Proof.
  destruct log_inv_kept as [Hopen Hwrite]. split.
  - apply (Hopen one_frame_disk "m-0"%string one_frame_log).
    + reflexivity.
    + split; [repeat constructor; simpl; lia|reflexivity].
  - apply (Hwrite (empty_shard "m-0") [Byte.x01] 0).
    + apply log_inv_empty_shard.
    + simpl. lia.
    + reflexivity.
Defined.

(** * The window query *)

Lemma search_loop_spec (f : Z → bool) (n : Z) :
  n < 2 ^ 63 →
  (∀ a b, 0 ≤ a → a ≤ b → b < n → f a = true → f b = true) →
  ∀ fuel i j,
    0 ≤ i → i ≤ j → j ≤ n → j - i ≤ Z.of_nat fuel →
    (∀ k, 0 ≤ k < i → f k = false) →
    (∀ k, j ≤ k < n → f k = true) →
    i ≤ search_loop fuel f i j ≤ j
    ∧ (∀ k, 0 ≤ k < search_loop fuel f i j → f k = false)
    ∧ (∀ k, search_loop fuel f i j ≤ k < n → f k = true).
Proof.
  intros Hn Hmono. induction fuel as [|fuel IH]; intros i j Hi Hij Hj Hfuel Hlo Hhi.
  - simpl. assert (i = j) as -> by lia. repeat split; [lia..|done|done].
  - cbn [search_loop]. destruct (i <? j) eqn:E.
    2:{ apply Z.ltb_ge in E. assert (i = j) as -> by lia.
        repeat split; [lia..|done|done]. }
    apply Z.ltb_lt in E.
    rewrite (u64_small (i + j)) by lia.
    rewrite Z.shiftr_div_pow2 by lia. change (2 ^ 1) with 2.
    assert (Hh : i ≤ (i + j) / 2 < j) by (split; [apply Z.div_le_lower_bound|apply Z.div_lt_upper_bound]; lia).
    rewrite (i64_small ((i + j) / 2)) by lia.
    destruct (f ((i + j) / 2)) eqn:Ef; cbn [negb].
    + destruct (IH i ((i + j) / 2)) as (Hr & Hl & Hu); try lia; [done| |].
      { intros k Hk. apply (Hmono ((i + j) / 2) k); [lia..|done]. }
      repeat split; [lia..|done|done].
    + destruct (IH ((i + j) / 2 + 1) j) as (Hr & Hl & Hu); try lia; [|done|].
      { intros k Hk. destruct (f k) eqn:Efk; [|done].
        rewrite (Hmono k ((i + j) / 2)) in Ef; [done|lia..|done]. }
      repeat split; [lia..|done|done].
Qed.

Lemma seg_ok_range s : seg_ok s → 0 ≤ seg_size s < 2 ^ 63.
Proof. unfold seg_ok, maxAlloc. lia. Qed.

Lemma ends_before_StronglySorted l :
  Forall seg_ok l → Sorted ends_before l → StronglySorted ends_before l.
Proof.
  intros Hok Hs. induction Hs as [|x l Hs IH Hhd]; [constructor|].
  apply Forall_cons in Hok as [Hx Hok]. constructor; [by apply IH|].
  specialize (IH Hok).
  destruct Hhd as [|y l Hxy]; [constructor|].
  apply StronglySorted_inv in IH as [_ Hy]. apply Forall_cons in Hok as [Hyok _].
  constructor; [done|]. eapply Forall_impl; [exact Hy|].
  intros z Hz. unfold ends_before in *. unfold seg_ok in Hyok. lia.
Qed.

Lemma ends_before_off_le l :
  Forall seg_ok l → Sorted ends_before l → StronglySorted off_le l.
Proof.
  intros Hok Hs. pose proof (ends_before_StronglySorted l Hok Hs) as Hss.
  induction Hss as [|x l Hss IH Hall]; [constructor|].
  apply Forall_cons in Hok as [Hx Hok]. constructor.
  - apply IH; [done|]. by apply Sorted_inv in Hs as [? _].
  - eapply Forall_impl; [exact Hall|]. intros z Hz.
    unfold ends_before, off_le, seg_ok in *. lia.
Qed.

Lemma hits_spec off size s :
  hits off size s ↔ off < seg_off s + seg_size s ∧ seg_off s < off + size.
Proof.
  unfold hits. rewrite Is_true_true, andb_true_iff, !Z.ltb_lt. tauto.
Qed.

Lemma hits_false off size s :
  hits off size s = false ↔ seg_off s + seg_size s ≤ off ∨ off + size ≤ seg_off s.
Proof. unfold hits. rewrite andb_false_iff, !Z.ltb_ge. tauto. Qed.

Lemma filter_hits_none off size (l : list seg) :
  Forall (λ s, hits off size s = false) l → filter (hits off size) l = [].
Proof.
  induction 1 as [|s l Hs _ IH]; [done|].
  rewrite filter_cons_False; [exact IH|]. rewrite Hs. exact id.
Qed.

Lemma len_replicate {A} (n : Z) (x : A) : 0 ≤ n → len (replicate (Z.to_nat n) x) = n.
Proof. intros. unfold len. rewrite length_replicate. lia. Qed.

Lemma scan_spec file off size l :
  Forall seg_ok l → StronglySorted off_le l →
  0 ≤ off → 0 ≤ size → off + size < 2 ^ 63 →
  ∀ acc err,
    scan file off size l acc err =
      Ok (acc ++ (load file <$> filter (hits off size) l),
          scan_err file err (filter (hits off size) l)).
Proof.
  intros Hok Hs Hoff Hsize Hfit.
  induction l as [|s l IH]; intros acc err; [by rewrite app_nil_r|].
  apply Forall_cons in Hok as [Hsok Hok]. apply StronglySorted_inv in Hs as [Hs Hall].
  specialize (IH Hok Hs). cbn [scan].
  destruct Hsok as (Ho & Hz & He & Hp).
  rewrite (u64_small (seg_off s + seg_size s)) by lia.
  rewrite (i64_small (seg_off s + seg_size s)) by lia.
  rewrite (i64_small (off + size)) by lia.
  rewrite (i64_small (seg_off s)) by lia.
  destruct (seg_off s + seg_size s <=? off) eqn:E1.
  { rewrite IH, filter_cons_False; [done|].
    rewrite hits_spec. apply Z.leb_le in E1. lia. }
  apply Z.leb_gt in E1.
  destruct (off + size <=? seg_off s) eqn:E2.
  { apply Z.leb_le in E2. rewrite filter_hits_none; [by rewrite app_nil_r|].
    constructor.
    - apply hits_false. lia.
    - eapply Forall_impl; [exact Hall|]. intros z Hz'. apply hits_false.
      unfold off_le in *. lia. }
  apply Z.leb_gt in E2.
  replace (maxAlloc <? seg_size s) with false by (symmetry; apply Z.ltb_ge; lia).
  rewrite len_replicate by lia.
  destruct (os_ReadAt file (seg_size s) (i64 (seg_pos s))) as [got e] eqn:Er.
  rewrite IH, filter_cons_True.
  2:{ rewrite hits_spec. lia. }
  rewrite fmap_cons, <- app_assoc. unfold load at 2. cbn [scan_err foldl].
  by rewrite Er.
Qed.

Lemma StronglySorted_lookup (R : relation seg) l : ∀ i j x y,
  StronglySorted R l → l !! i = Some x → l !! j = Some y → (i < j)%nat → R x y.
Proof.
  induction l as [|z l IH]; intros i j x y Hs Hi Hj Hij; [done|].
  apply StronglySorted_inv in Hs as [Hs Hall].
  destruct j as [|j]; [lia|]. destruct i as [|i]; simpl in *.
  - injection Hi as <-. rewrite Forall_forall in Hall. apply Hall.
    by eapply list_elem_of_lookup_2.
  - apply (IH i j); [done..|lia].
Qed.

Lemma idx_lookup (l : list seg) (i : Z) :
  0 ≤ i < len l → l !! Z.to_nat i = Some (idx l i).
Proof.
  intros Hi. unfold idx. destruct (l !! Z.to_nat i) eqn:E; [done|].
  apply lookup_ge_None in E. unfold len in Hi. lia.
Qed.

Lemma SegFile_ReadAt_spec f off size :
  Sorted ends_before (sf_segs f) → Forall seg_ok (sf_segs f) →
  len (sf_segs f) < 2 ^ 63 →
  0 ≤ off → 0 ≤ size → off + size < 2 ^ 63 →
  SegFile_ReadAt f off size =
    Ok (load (sf_file f) <$> filter (hits off size) (sf_segs f),
        scan_err (sf_file f) None (filter (hits off size) (sf_segs f))).
Proof.
  intros Hsort Hok Hlen Hoff Hsize Hfit.
  pose proof (ends_before_StronglySorted _ Hok Hsort) as Hends.
  pose proof (ends_before_off_le _ Hok Hsort) as Hoffs.
  set (l := sf_segs f) in *.
  unfold SegFile_ReadAt. fold l.
  set (p := λ i : Z, u64 off <? seg_off (idx l i)).
  destruct (search_loop_spec p (len l) Hlen) with (fuel := Z.to_nat (len l)) (i := 0) (j := len l)
    as (Hr & Hlo & _).
  { intros a b Ha Hab Hb. unfold p. rewrite !Z.ltb_lt. intros Hpa.
    destruct (decide (a = b)) as [->|Hne]; [done|].
    pose proof (StronglySorted_lookup off_le l (Z.to_nat a) (Z.to_nat b) _ _ Hoffs
                  (idx_lookup l a ltac:(lia)) (idx_lookup l b ltac:(lia)) ltac:(lia)) as H.
    unfold off_le in H. lia. }
  { lia. } { apply len_nonneg. } { lia. } { lia. } { lia. } { lia. }
  fold (sort_Search (len l) p) in Hr, Hlo |- *.
  set (r := sort_Search (len l) p) in *.
  set (start := if r - 1 <? 0 then 0 else r - 1).
  assert (Hstart : 0 ≤ start ≤ len l ∧ (start = 0 ∨ start = r - 1)).
  { subst start. destruct (r - 1 <? 0) eqn:E; [lia|]. apply Z.ltb_ge in E. lia. }
  rewrite scan_spec; try done.
  2:{ by apply Forall_drop. }
  2:{ rewrite <- (take_drop (Z.to_nat start) l) in Hoffs.
      by apply StronglySorted_app_1_r in Hoffs. }
  assert (Hf : filter (hits off size) l = filter (hits off size) (drop (Z.to_nat start) l));
    [|by rewrite Hf].
  rewrite <- (take_drop (Z.to_nat start) l) at 1.
  rewrite filter_app, (filter_hits_none off size (take _ _)); [done|].
  apply Forall_lookup. intros k x Hk.
  assert (Hklt : (k < Z.to_nat start)%nat).
  { apply lookup_lt_Some in Hk. rewrite length_take in Hk. lia. }
  rewrite lookup_take_lt in Hk by done.
  destruct Hstart as [Hst [Hz|Hr1]]; [lia|].
  assert (Hp : p (r - 1) = false) by (apply Hlo; lia).
  unfold p in Hp. apply Z.ltb_ge in Hp. rewrite u64_small in Hp by lia.
  pose proof (StronglySorted_lookup ends_before l k (Z.to_nat (r - 1)) _ _ Hends Hk
                (idx_lookup l (r - 1) ltac:(lia)) ltac:(lia)) as H.
  apply hits_false. unfold ends_before in H. lia.
Qed.

Lemma StronglySorted_filter (R : relation seg) (P : seg → bool) l :
  StronglySorted R l → StronglySorted R (filter P l).
Proof.
  induction 1 as [|x l Hs IH Hall]; [constructor|].
  rewrite filter_cons. destruct (decide (P x)); [|done].
  constructor; [done|]. apply Forall_forall. intros y Hy.
  apply list_elem_of_filter in Hy as [_ Hy]. rewrite Forall_forall in Hall. by apply Hall.
Qed.

Lemma hits_intersects off size s :
  0 < seg_size s → 0 < size → hits off size s ↔ intersects off size s.
Proof.
  intros Hs Hw. rewrite hits_spec. unfold intersects. split.
  - intros [H1 H2]. exists (Z.max off (seg_off s)). lia.
  - intros (x & H1 & H2). lia.
Qed.

Lemma descriptor_load file s : descriptor (load file s) = descriptor s.
Proof. done. Qed.

(** C4 (as amended): on a shard whose frames lie one after the other,
    each ending at or before the start of the next, with offsets from 0 on,
    ends and storage positions below [2^63] and sizes of at most [2^48]
    bytes, the query of a window whose offset and length are at least 0 and
    whose end is below [2^63] returns exactly the descriptors that end after
    the window's start and start before the window's end, in the order of
    the shard, which is ascending in offset. For a frame and a window that
    are not empty that test is the intersection of the two intervals. *)
Theorem SegFile_ReadAt_disjoint (f : SegFile) (off size : Z) :
  Sorted ends_before (sf_segs f) → Forall seg_ok (sf_segs f) →
  len (sf_segs f) < 2 ^ 63 →
  0 ≤ off → 0 ≤ size → off + size < 2 ^ 63 →
  ∃ segs err,
    SegFile_ReadAt f off size = Ok (segs, err)
    ∧ descriptor <$> segs = descriptor <$> filter (hits off size) (sf_segs f)
    ∧ Sorted off_le segs
    ∧ (∀ s, 0 < seg_size s → 0 < size → hits off size s ↔ intersects off size s).
Proof.
  intros Hsort Hok Hlen Hoff Hsize Hfit.
  eexists _, _. split; [by apply SegFile_ReadAt_spec|].
  split; [|split].
  - rewrite <- list_fmap_compose. by apply list_fmap_ext.
  - apply StronglySorted_Sorted.
    apply StronglySorted_fmap with (R1 := off_le); [by intros x y|].
    apply StronglySorted_filter. by apply ends_before_off_le.
  - intros s. apply hits_intersects.
Qed.

(** Evaluate the descriptor list of a concrete shard in the goal. *)
Ltac eval_segs f :=
  let l := eval vm_compute in (sf_segs f) in
  change (sf_segs f) with l.

Lemma SegFile_ReadAt_disjoint_witness :
  ∃ segs err,
    SegFile_ReadAt three_frame_shard 5 3 = Ok (segs, err)
    ∧ descriptor <$> segs = descriptor <$> filter (hits 5 3) (sf_segs three_frame_shard).
Proof.
  destruct (SegFile_ReadAt_disjoint three_frame_shard 5 3) as (segs & err & H1 & H2 & _).
  - eval_segs three_frame_shard. repeat constructor; unfold ends_before; simpl; lia.
  - eval_segs three_frame_shard. repeat constructor; simpl; unfold maxAlloc; lia.
  - reflexivity.
  - lia.
  - lia.
  - reflexivity.
  - exists segs, err. exact (conj H1 H2).
Defined.

(** C4 (as stated) fails: the offsets of the shard are non-decreasing, the
    frame of 100 bytes at offset 0 intersects the window [12, 13), and the
    query, which starts one position before the first offset above 12,
    returns the frame at offset 10 alone. *)
Lemma SegFile_ReadAt_misses_long_frame :
  Sorted off_le (sf_segs overlap_shard)
  ∧ ∃ s, s ∈ sf_segs overlap_shard ∧ intersects 12 1 s
       ∧ ∃ segs err, SegFile_ReadAt overlap_shard 12 1 = Ok (segs, err)
                     ∧ s ∉ descriptor <$> segs.
Proof.
  eval_segs overlap_shard.
  split; [repeat constructor; unfold off_le; simpl; lia|].
  exists {| seg_off := 0; seg_size := 100; seg_pos := 16; seg_data := [] |}.
  split; [by left|]. split; [exists 12; simpl; lia|].
  eexists _, _. split; [vm_compute; reflexivity|].
  intros H. apply list_elem_of_In in H. simpl in H. destruct H as [H|[]]. discriminate.
Qed.

(** Outside those ranges the test no longer describes the query. A
    negative window offset is searched for as a 64-bit word above every
    frame offset, so the scan starts at the last frame: the window
    [-1, 2) meets the frame at offset 0 and the query returns nothing. *)
Lemma SegFile_ReadAt_negative_window :
  hits (-1) 3 {| seg_off := 0; seg_size := 4; seg_pos := 16; seg_data := [] |} = true
  ∧ {| seg_off := 0; seg_size := 4; seg_pos := 16; seg_data := [] |}
      ∈ sf_segs three_frame_shard
  ∧ SegFile_ReadAt three_frame_shard (-1) 3 = Ok ([], None).
Proof. split; [reflexivity|]. split; [by left|reflexivity]. Qed.

(** A frame in the window whose header announces more bytes than can be
    allocated makes the query panic. *)
Lemma SegFile_ReadAt_huge_frame :
  ∃ sf, OpenSegFile {[ "m-0"%string := marshal {| h_off := 0; h_size := 2 ^ 50 |} ]} "m-0"
        = Some (inl sf)
        ∧ SegFile_ReadAt sf 0 1 = Panic.
Proof. eexists. split; reflexivity. Qed.

(** * The query of a shard that holds a log *)

Lemma os_ReadAt_payload f pre fr rest :
  closed f = false →
  content f = pre ++ encode_frame fr ++ rest →
  os_ReadAt f (len (fr_data fr)) (len pre + 16) = (fr_data fr, None).
Proof.
  intros Hc Hcont. unfold os_ReadAt.
  pose proof (len_nonneg pre). pose proof (len_nonneg (fr_data fr)).
  replace (len pre + 16 <? 0) with false by (symmetry; apply Z.ltb_ge; lia).
  destruct (len (fr_data fr) <=? 0) eqn:E.
  - apply Z.leb_le in E. destruct (fr_data fr); [done|len_lia].
  - rewrite Hc, Hcont. unfold encode_frame.
    replace (pre ++ (marshal {| h_off := fr_off fr; h_size := len (fr_data fr) |} ++ fr_data fr) ++ rest)
      with ((pre ++ marshal {| h_off := fr_off fr; h_size := len (fr_data fr) |})
              ++ fr_data fr ++ rest) by (by rewrite <- !app_assoc).
    replace (Z.to_nat (len pre + 16))
      with (length (pre ++ marshal {| h_off := fr_off fr; h_size := len (fr_data fr) |}))
      by (rewrite length_app, length_marshal; unfold len; lia).
    rewrite drop_app_length, to_nat_len, take_app_length.
    by rewrite Z.ltb_irrefl.
Qed.

Lemma overlay_full (got : list byte) n :
  length got = n → overlay got (replicate n Byte.x00) = got.
Proof.
  intros <-. unfold overlay. rewrite drop_ge by (by rewrite length_replicate).
  apply app_nil_r.
Qed.

Lemma load_descriptors file l : ∀ pre rest off size,
  closed file = false →
  content file = pre ++ encode_log l ++ rest →
  len pre + len (encode_log l) < 2 ^ 63 →
  load file <$> filter (hits off size) (descriptors (len pre) l)
    = filter (hits off size) (loaded (len pre) l)
  ∧ ∀ e, scan_err file e (filter (hits off size) (descriptors (len pre) l))
         = if decide (filter (hits off size) (descriptors (len pre) l) = []) then e else None.
Proof.
  induction l as [|fr l IH]; intros pre rest off size Hc Hcont Hfit; [done|].
  rewrite encode_log_cons, len_app, len_encode_frame in Hfit.
  rewrite encode_log_cons, <- app_assoc in Hcont.
  pose proof (len_nonneg pre). pose proof (len_nonneg (fr_data fr)).
  pose proof (len_nonneg (encode_log l)).
  cbn [descriptors loaded].
  replace (len pre + segHeaderSize + len (fr_data fr)) with (len (pre ++ encode_frame fr))
    by (rewrite len_app, len_encode_frame; unfold segHeaderSize; lia).
  destruct (IH (pre ++ encode_frame fr) rest off size Hc) as [IH1 IH2].
  { by rewrite <- app_assoc. }
  { rewrite len_app, len_encode_frame. lia. }
  rewrite !filter_cons. cbn [hits seg_off seg_size].
  set (s := {| seg_off := fr_off fr; seg_size := len (fr_data fr);
               seg_pos := len pre + segHeaderSize; seg_data := [] |}).
  assert (Hload : load file s = {| seg_off := fr_off fr; seg_size := len (fr_data fr);
                                   seg_pos := len pre + segHeaderSize;
                                   seg_data := fr_data fr |}
                  ∧ (os_ReadAt file (seg_size s) (i64 (seg_pos s))).2 = None).
  { unfold load, s. cbn [seg_off seg_size seg_pos]. unfold segHeaderSize.
    rewrite i64_small by lia.
    rewrite (os_ReadAt_payload file pre fr (encode_log l ++ rest)) by done.
    cbn [fst snd]. by rewrite overlay_full by (by rewrite to_nat_len). }
  destruct Hload as [Hl He].
  change (hits off size {| seg_off := fr_off fr; seg_size := len (fr_data fr);
                           seg_pos := len pre + segHeaderSize; seg_data := fr_data fr |})
    with (hits off size s).
  destruct (decide (hits off size s)) as [Hh|Hh].
  - rewrite fmap_cons, Hl, IH1. split; [done|].
    intros e. cbn [scan_err foldl]. fold (scan_err file). rewrite He.
    rewrite decide_False by done.
    change (foldl _ None ?l) with (scan_err file None l).
    rewrite IH2. by destruct (decide _).
  - split; [done|]. apply IH2.
Qed.

Lemma length_descriptors l : ∀ c, length (descriptors c l) = length l.
Proof. induction l as [|fr l IH]; intros c; simpl; [done|]. by rewrite IH. Qed.

Lemma descriptors_seg_ok l : ∀ c,
  Forall frame_ok l → 0 ≤ c → c + len (encode_log l) < 2 ^ 63 →
  Forall seg_ok (descriptors c l).
Proof.
  induction l as [|fr l IH]; intros c Hok Hc Hfit; [constructor|].
  apply Forall_cons in Hok as [(Ho & He & Hm) Hok].
  rewrite encode_log_cons, len_app, len_encode_frame in Hfit.
  pose proof (len_nonneg (fr_data fr)). pose proof (len_nonneg (encode_log l)).
  cbn [descriptors]. constructor.
  - unfold seg_ok, fr_end, segHeaderSize in *. simpl. lia.
  - apply IH; [done|unfold segHeaderSize; lia..].
Qed.

Lemma descriptors_Sorted l : ∀ c,
  Sorted ends_beforeF l → Sorted ends_before (descriptors c l).
Proof.
  induction l as [|fr l IH]; intros c Hs; [constructor|].
  apply Sorted_inv in Hs as [Hs Hhd]. cbn [descriptors]. constructor; [by apply IH|].
  destruct Hhd as [|fr' l' Hr]; constructor. exact Hr.
Qed.

Lemma SegFile_ReadAt_holds sf l off size :
  holds sf l → log_ok l → Sorted ends_beforeF l →
  0 ≤ off → 0 ≤ size → off + size < 2 ^ 63 →
  SegFile_ReadAt sf off size = Ok (window off size l, None).
Proof.
  intros (Hopen & Hcont & Hcur & Hsegs) [Hok Hfit] Hsort Hoff Hsize Hwin.
  rewrite SegFile_ReadAt_spec; rewrite ?Hsegs; try done.
  - destruct (load_descriptors (sf_file sf) l [] [] off size) as [H1 H2]; try done.
    { by rewrite app_nil_r. }
    change (len (@nil byte)) with 0 in *. unfold window. rewrite H1, H2.
    by destruct (decide _).
  - by apply descriptors_Sorted.
  - apply descriptors_seg_ok; [done|lia|lia].
  - unfold len. rewrite length_descriptors.
    pose proof (length_encode_log l). unfold len in Hfit. lia.
Qed.

(** * Gathering the windows of all shards *)

Lemma gather_holds fs : ∀ logs off n acc,
  Forall2 holds fs logs → Forall log_ok logs → Forall (Sorted ends_beforeF) logs →
  0 ≤ off → 0 ≤ n → off + n < 2 ^ 63 →
  gather fs off n acc = Ok (inl (foldl mergeSegs acc (window off n <$> logs))).
Proof.
  induction fs as [|sf fs IH]; intros logs off n acc Hrel Hok Hsort Hoff Hn Hfit.
  - by apply Forall2_nil_inv_l in Hrel as ->.
  - apply Forall2_cons_inv_l in Hrel as (l & logs' & Hh & Hrel & ->).
    apply Forall_cons in Hok as [Hl Hok]. apply Forall_cons in Hsort as [Hs Hsort].
    cbn [gather]. rewrite (SegFile_ReadAt_holds sf l) by done.
    cbn. by apply IH.
Qed.

Lemma foldl_mergeSegs_Permutation qs : ∀ acc,
  foldl mergeSegs acc qs ≡ₚ acc ++ concat qs.
Proof.
  induction qs as [|q qs IH]; intros acc; simpl; [by rewrite app_nil_r|].
  etrans; [apply IH|]. rewrite app_assoc.
  apply Permutation_app; [apply mergeSegs_Permutation|done].
Qed.

Lemma foldl_mergeSegs_Sorted qs : ∀ acc,
  Sorted key_le acc → Forall (Sorted key_le) qs → Sorted key_le (foldl mergeSegs acc qs).
Proof.
  induction qs as [|q qs IH]; intros acc Hacc Hqs; [done|].
  apply Forall_cons in Hqs as [Hq Hqs]. simpl. apply IH; [|done].
  apply mergeSegs_Sorted; [|apply seg_ge_false|done..].
  intros x y H. by apply seg_ge_key_le.
Qed.

(** * The copy loop *)

Lemma len_take {A} (l : list A) (n : Z) : 0 ≤ n ≤ len l → len (take (Z.to_nat n) l) = n.
Proof. intros H. unfold len in *. rewrite length_take. lia. Qed.

Lemma len_drop {A} (l : list A) (n : Z) : 0 ≤ n ≤ len l → len (drop (Z.to_nat n) l) = len l - n.
Proof. intros H. unfold len in *. rewrite length_drop. lia. Qed.

Lemma length_splice b n x :
  (n + length x ≤ length b)%nat → length (splice b n x) = length b.
Proof. intros H. unfold splice. rewrite !length_app, length_take, length_drop. lia. Qed.

Lemma splice_nil b n : splice b n [] = b.
Proof. unfold splice. simpl. by rewrite Nat.add_0_r, take_drop. Qed.

Lemma splice_splice b n y x :
  (n + length y ≤ length b)%nat →
  splice (splice b n y) (n + length y) x = splice b n (y ++ x).
Proof.
  intros H. unfold splice.
  rewrite (app_assoc (take n b) y).
  rewrite take_app_length' by (rewrite length_app, length_take; lia).
  rewrite drop_app_ge by (rewrite length_app, length_take; lia).
  rewrite length_app, length_take, drop_drop, length_app, <- !app_assoc.
  do 3 f_equal. f_equal. lia.
Qed.

Lemma copy_loop_full G b cur n : len b ≤ n → copy_loop G b cur n = Ok (b, n).
Proof.
  intros H. destruct G; [done|]. cbn [copy_loop].
  by replace (n <? len b) with false by (symmetry; apply Z.ltb_ge; lia).
Qed.

Lemma slice_ok (l : list byte) lo hi :
  0 ≤ lo → lo ≤ hi → hi ≤ len l →
  slice l lo hi = Ok (take (Z.to_nat (hi - lo)) (drop (Z.to_nat lo) l)).
Proof.
  intros H1 H2 H3. unfold slice.
  replace (0 <=? lo) with true by (symmetry; apply Z.leb_le; lia).
  replace (lo <=? hi) with true by (symmetry; apply Z.leb_le; lia).
  by replace (hi <=? len l) with true by (symmetry; apply Z.leb_le; lia).
Qed.

(** One round of the loop on a frame that covers the current offset. *)
Lemma copy_loop_step s G b cur n :
  seg_size s = len (seg_data s) →
  0 ≤ seg_off s → seg_off s ≤ cur → cur ≤ seg_off s + seg_size s →
  seg_off s + seg_size s < 2 ^ 63 →
  0 ≤ n → n < len b →
  let num := Z.min (len b - n) (seg_off s + seg_size s - cur) in
  let y := take (Z.to_nat num) (drop (Z.to_nat (cur - seg_off s)) (seg_data s)) in
  len y = num
  ∧ copy_loop (s :: G) b cur n = copy_loop G (splice b (Z.to_nat n) y) (cur + num) (n + num).
Proof.
  intros Hsz Ho Hcur Hend Hfit Hn Hnb num y.
  pose proof (len_nonneg (seg_data s)) as Hd.
  assert (Hy : len y = num).
  { subst y. rewrite len_take; [done|]. rewrite len_drop by lia. lia. }
  split; [done|]. cbn [copy_loop].
  replace (n <? len b) with true by (symmetry; apply Z.ltb_lt; lia).
  rewrite (i64_small (seg_off s)) by lia.
  rewrite (i64_small (cur - seg_off s)) by lia.
  rewrite (u64_small (cur - seg_off s)) by lia.
  rewrite (u64_small (seg_size s - (cur - seg_off s))) by lia.
  rewrite (i64_small (seg_size s - (cur - seg_off s))) by lia.
  set (readSize := if len b - n <? seg_size s - (cur - seg_off s)
                   then len b - n else seg_size s - (cur - seg_off s)).
  assert (HrS : readSize = num).
  { subst readSize num. destruct (len b - n <? seg_size s - (cur - seg_off s)) eqn:E;
      [apply Z.ltb_lt in E|apply Z.ltb_ge in E]; lia. }
  rewrite HrS.
  rewrite slice_ok by lia. unfold slice_from. rewrite slice_ok by lia.
  cbn [mbind outcome_bind].
  replace (n + num - n) with num by lia.
  rewrite (len_take (drop (Z.to_nat n) b) num) by (rewrite len_drop by lia; lia).
  rewrite (len_take (drop _ (seg_data s))) by (rewrite len_drop by lia; lia).
  replace (Z.min num (len (seg_data s) - (cur - seg_off s))) with num by lia.
  rewrite (i64_small (cur + num)) by lia.
  f_equal. unfold splice.
  replace (take (Z.to_nat num)
             (take (Z.to_nat (len (seg_data s) - (cur - seg_off s)))
                (drop (Z.to_nat (cur - seg_off s)) (seg_data s)))) with y.
  2:{ subst y. rewrite take_take. f_equal. lia. }
  do 3 f_equal. unfold len in Hy. lia.
Qed.

Lemma payload_cons fr fs : payload (fr :: fs) = fr_data fr ++ payload fs.
Proof. done. Qed.

Lemma payload_app fs1 fs2 : payload (fs1 ++ fs2) = payload fs1 ++ payload fs2.
Proof. unfold payload. by rewrite fmap_app, concat_app. Qed.

Lemma strip_bare_inv s fr :
  strip s = bare fr →
  seg_off s = fr_off fr ∧ seg_size s = len (fr_data fr) ∧ seg_data s = fr_data fr.
Proof. unfold strip, bare. by intros [= -> -> ->]. Qed.

(** The copy loop over the frames of a gapless chain that meet the window
    [off0, off0 + L): the buffer receives the bytes of the chain from the
    current offset on, as many as fit and as there are. *)
Lemma copy_chain L off0 :
  0 ≤ off0 → 0 ≤ L →
  ∀ fs G o cur n b,
    strip <$> G = filter (hits off0 L) (bare <$> fs) →
    contig o fs → len b = L →
    0 ≤ o → o + len (payload fs) < 2 ^ 63 →
    0 ≤ n → n ≤ L → cur = off0 + n → o ≤ cur → cur ≤ o + len (payload fs) →
    (n = 0 ∨ cur = o ∨ n = L) →
    copy_loop G b cur n =
      Ok (splice b (Z.to_nat n)
            (take (Z.to_nat (Z.min (L - n) (o + len (payload fs) - cur)))
               (drop (Z.to_nat (cur - o)) (payload fs))),
          n + Z.min (L - n) (o + len (payload fs) - cur)).
Proof.
  intros Hoff0 HL. induction fs as [|fr fs IH];
    intros G o cur n b HG Hc Hb Ho Hfit Hn HnL Hcur Hlo Hhi Hinv.
  - apply fmap_nil_inv in HG as ->.
    change (len (payload [])) with 0 in *.
    replace (Z.min (L - n) (o + 0 - cur)) with 0 by lia.
    cbn [copy_loop]. rewrite take_0, splice_nil. by rewrite Z.add_0_r.
  - destruct Hc as [Hfo Hc]. rewrite payload_cons, len_app in *.
    pose proof (len_nonneg (fr_data fr)) as Hd.
    pose proof (len_nonneg (payload fs)) as Hp.
    destruct (decide (n = L)) as [->|HnL'].
    { rewrite copy_loop_full by lia.
      replace (Z.min (L - L) (o + (len (fr_data fr) + len (payload fs)) - cur)) with 0 by lia.
      rewrite take_0, splice_nil. by rewrite Z.add_0_r. }
    rewrite fmap_cons, filter_cons in HG.
    destruct (decide (hits off0 L (bare fr))) as [Hh|Hh].
    + apply hits_spec in Hh. cbn [bare seg_off seg_size] in Hh.
      apply fmap_cons_inv in HG as (s & G' & Hs & HG' & ->).
      symmetry in Hs. apply strip_bare_inv in Hs as (Hso & Hss & Hsd).
      destruct (copy_loop_step s G' b cur n) as [Hy Hstep];
        rewrite ?Hso, ?Hss, ?Hsd, ?Hfo, ?Hb; try lia.
      rewrite Hstep. clear Hstep. rewrite Hso, Hss, Hsd, Hfo, Hb in *.
      set (num := Z.min (L - n) (o + len (fr_data fr) - cur)) in *.
      set (y := take (Z.to_nat num) (drop (Z.to_nat (cur - o)) (fr_data fr))) in *.
      destruct (decide (num = L - n)) as [Hfull|Hpart].
      * rewrite copy_loop_full.
        2:{ unfold len. rewrite length_splice; unfold len in *; lia. }
        replace (Z.min (L - n) (o + (len (fr_data fr) + len (payload fs)) - cur)) with num by lia.
        do 3 f_equal. subst y.
        rewrite drop_app_le by (unfold len in *; lia).
        rewrite take_app_le; [done|]. rewrite length_drop. unfold len in *. lia.
      * assert (Hnum : num = o + len (fr_data fr) - cur) by lia.
        rewrite (IH G' (o + len (fr_data fr)) (cur + num) (n + num)); try lia; try done.
        2:{ unfold len. rewrite length_splice; unfold len in *; lia. }
        replace (Z.to_nat (n + num)) with (Z.to_nat n + length y)%nat by (unfold len in *; lia).
        rewrite splice_splice by (unfold len in *; lia).
        replace (cur + num - (o + len (fr_data fr))) with 0 by lia.
        rewrite drop_0.
        replace (o + len (fr_data fr) + len (payload fs) - (cur + num)) with (len (payload fs))
          by lia.
        f_equal. f_equal.
        -- f_equal. subst y.
           rewrite drop_app_le by (unfold len in *; lia).
           rewrite (take_ge (drop _ (fr_data fr))) by (rewrite length_drop; unfold len in *; lia).
           replace (Z.to_nat (Z.min (L - n) (o + (len (fr_data fr) + len (payload fs)) - cur)))
             with (length (drop (Z.to_nat (cur - o)) (fr_data fr))
                   + Z.to_nat (Z.min (L - (n + num)) (len (payload fs))))%nat
             by (rewrite length_drop; unfold len in *; lia).
           by rewrite take_app_add.
        -- lia.
    + assert (Hmiss : o + len (fr_data fr) ≤ off0 ∨ off0 + L ≤ o).
      { rewrite hits_spec in Hh. cbn [bare seg_off seg_size] in Hh. lia. }
      assert (Hn0 : n = 0) by lia. subst n.
      rewrite (IH G (o + len (fr_data fr)) cur 0); try lia; try done.
      replace (o + len (fr_data fr) + len (payload fs) - cur)
        with (o + (len (fr_data fr) + len (payload fs)) - cur) by lia.
      do 3 f_equal.
      rewrite drop_app_ge by (unfold len in *; lia).
      do 2 f_equal. unfold len in *. lia.
Qed.

(** * Gapless chains of frames *)

#[export] Instance ends_beforeF_trans : Transitive ends_beforeF.
Proof.
  intros x y z Hxy Hyz. unfold ends_beforeF, fr_end in *.
  pose proof (len_nonneg (fr_data y)). lia.
Qed.

#[export] Instance key_le_trans : Transitive key_le.
Proof. intros x y z. unfold key_le. lia. Qed.

Lemma contig_Sorted fs : ∀ o, contig o fs → Sorted ends_beforeF fs.
Proof.
  induction fs as [|fr fs IH]; intros o Hc; [constructor|].
  destruct Hc as [Ho Hc]. constructor; [by eapply IH|].
  destruct fs as [|fr' fs]; constructor.
  destruct Hc as [Ho' _]. unfold ends_beforeF, fr_end. lia.
Qed.

Lemma contig_end fs : ∀ o,
  contig o fs → Forall frame_ok fs → 0 ≤ o < 2 ^ 63 →
  o + len (payload fs) < 2 ^ 63.
Proof.
  induction fs as [|fr fs IH]; intros o Hc Hok Ho.
  - change (len (payload [])) with 0. lia.
  - destruct Hc as [Hfo Hc]. apply Forall_cons in Hok as [(H0 & He & _) Hok].
    rewrite payload_cons, len_app. unfold fr_end in He.
    pose proof (len_nonneg (fr_data fr)).
    specialize (IH (o + len (fr_data fr)) Hc Hok). lia.
Qed.

Lemma StronglySorted_elem_of (R : relation frame) fs x y :
  StronglySorted R fs → x ∈ fs → y ∈ fs → x = y ∨ R x y ∨ R y x.
Proof.
  induction 1 as [|z fs Hs IH Hall]; intros Hx Hy; [by apply elem_of_nil in Hx|].
  rewrite Forall_forall in Hall.
  apply elem_of_cons in Hx as [->|Hx]; apply elem_of_cons in Hy as [->|Hy]; auto.
Qed.

Lemma chain_key_unique fs o fr1 fr2 :
  contig o fs → fr1 ∈ fs → fr2 ∈ fs →
  fr_off fr1 = fr_off fr2 → len (fr_data fr1) = len (fr_data fr2) → fr1 = fr2.
Proof.
  intros Hc H1 H2 Ho Hl.
  assert (Hs : StronglySorted ends_beforeF fs)
    by (apply Sorted_StronglySorted; [apply _|by eapply contig_Sorted]).
  assert (Hnil : ∀ l : list byte, len l ≤ 0 → l = []).
  { intros [|? ?] H; [done|]. rewrite len_cons in H. pose proof (len_nonneg l). lia. }
  destruct (StronglySorted_elem_of ends_beforeF fs fr1 fr2 Hs H1 H2) as [?|[H|H]]; [done|..];
    unfold ends_beforeF, fr_end in H;
    destruct fr1 as [o1 d1], fr2 as [o2 d2]; simpl in *; subst;
    rewrite (Hnil d1), (Hnil d2) by lia; done.
Qed.

(** * From the windows of the shards to the window of the chain *)

Lemma strip_loaded l : ∀ c, strip <$> loaded c l = bare <$> l.
Proof. induction l as [|fr l IH]; intros c; [done|]. cbn. by rewrite IH. Qed.

Lemma filter_hits_strip off n (l : list seg) :
  strip <$> filter (hits off n) l = filter (hits off n) (strip <$> l).
Proof.
  induction l as [|s l IH]; [done|].
  rewrite fmap_cons, !filter_cons.
  change (hits off n (strip s)) with (hits off n s).
  destruct (decide (hits off n s)); [|done]. by rewrite fmap_cons, IH.
Qed.

Lemma strip_window off n l : strip <$> window off n l = filter (hits off n) (bare <$> l).
Proof. unfold window. by rewrite filter_hits_strip, strip_loaded. Qed.

Lemma filter_concat_windows off n logs :
  strip <$> concat (window off n <$> logs) = filter (hits off n) (bare <$> concat logs).
Proof.
  induction logs as [|l logs IH]; [done|].
  cbn [fmap list_fmap concat]. rewrite !fmap_app, filter_app, <- IH. f_equal.
  apply strip_window.
Qed.

Lemma loaded_key_Sorted l : ∀ c,
  StronglySorted ends_beforeF l → StronglySorted key_le (loaded c l).
Proof.
  induction l as [|fr l IH]; intros c Hs; [constructor|].
  apply StronglySorted_inv in Hs as [Hs Hall]. cbn [loaded]. constructor; [by apply IH|].
  clear IH Hs. generalize (c + segHeaderSize + len (fr_data fr)).
  induction Hall as [|fr' l Hr _ IH]; intros c'; [constructor|].
  cbn [loaded]. constructor; [|apply IH].
  unfold key_le, ends_beforeF, fr_end in *. simpl.
  pose proof (len_nonneg (fr_data fr)). pose proof (len_nonneg (fr_data fr')). lia.
Qed.

Lemma window_Sorted off n l : Sorted ends_beforeF l → Sorted key_le (window off n l).
Proof.
  intros Hs. apply StronglySorted_Sorted. unfold window.
  apply StronglySorted_filter, loaded_key_Sorted.
  by apply Sorted_StronglySorted; [apply _|].
Qed.

Lemma bare_key_Sorted fs :
  StronglySorted ends_beforeF fs → StronglySorted key_le (bare <$> fs).
Proof.
  intros Hs. rewrite <- (strip_loaded fs 0).
  apply StronglySorted_fmap with (R1 := key_le); [by intros x y|].
  by apply loaded_key_Sorted.
Qed.

Lemma gathered_window off n logs fs :
  gapless logs fs →
  strip <$> foldl mergeSegs [] (window off n <$> logs) = filter (hits off n) (bare <$> fs).
Proof.
  intros (Hperm & Hsort & Hc).
  apply (StronglySorted_unique_strong key_le).
  - intros x1 x2 Hx1 Hx2 H12 H21.
    apply list_elem_of_filter in Hx2 as [_ Hx2].
    apply list_elem_of_fmap in Hx2 as (fr2 & -> & Hfr2).
    assert (Hx1' : x1 ∈ bare <$> fs).
    { apply list_elem_of_fmap in Hx1 as (s & -> & Hs).
      assert (Hs' : s ∈ concat (window off n <$> logs)).
      { eapply elem_of_Permutation_proper; [|exact Hs].
        symmetry. apply (foldl_mergeSegs_Permutation _ []). }
      assert (Hs'' : strip s ∈ strip <$> concat (window off n <$> logs))
        by (apply list_elem_of_fmap; eauto).
      rewrite filter_concat_windows in Hs''.
      apply list_elem_of_filter in Hs'' as [_ Hs''].
      eapply elem_of_Permutation_proper; [|exact Hs''].
      symmetry. by apply fmap_Permutation. }
    apply list_elem_of_fmap in Hx1' as (fr1 & -> & Hfr1).
    f_equal. apply (chain_key_unique fs 0); try done;
      unfold key_le in *; simpl in *; lia.
  - apply StronglySorted_fmap with (R1 := key_le); [by intros x y|].
    apply Sorted_StronglySorted; [apply _|].
    apply foldl_mergeSegs_Sorted; [constructor|].
    apply Forall_fmap. eapply Forall_impl; [exact Hsort|].
    intros l Hl. by apply window_Sorted.
  - apply StronglySorted_filter, bare_key_Sorted.
    apply Sorted_StronglySorted; [apply _|]. by eapply contig_Sorted.
  - etrans; [apply fmap_Permutation, (foldl_mergeSegs_Permutation _ [])|].
    simpl. rewrite filter_concat_windows.
    apply filter_Permutation. by apply fmap_Permutation.
Qed.

(** * Reading a gapless store *)

Lemma len_encode_log_Permutation l1 l2 :
  l1 ≡ₚ l2 → len (encode_log l1) = len (encode_log l2).
Proof.
  induction 1 as [|x l1 l2 _ IH|x y l|l1 l2 l3 _ IH1 _ IH2];
    rewrite ?encode_log_cons, ?len_app; lia.
Qed.

Lemma len_encode_log_concat (logs : list (list frame)) l :
  l ∈ logs → len (encode_log l) ≤ len (encode_log (concat logs)).
Proof.
  induction logs as [|l' logs IH]; intros Hl; [by apply elem_of_nil in Hl|].
  cbn [concat]. rewrite encode_log_app, len_app.
  pose proof (len_nonneg (encode_log l')). pose proof (len_nonneg (encode_log (concat logs))).
  apply elem_of_cons in Hl as [->|Hl]; [lia|]. specialize (IH Hl). lia.
Qed.

Lemma elem_of_concat {A} (ls : list (list A)) (l : list A) (x : A) :
  l ∈ ls → x ∈ l → x ∈ concat ls.
Proof.
  intros Hl Hx. apply list_elem_of_In, in_concat. exists l.
  by split; apply list_elem_of_In.
Qed.

Lemma gapless_log_ok logs fs :
  concat logs ≡ₚ fs → Forall frame_ok fs → len (encode_log fs) < 2 ^ 63 →
  Forall log_ok logs.
Proof.
  intros Hperm Hok Hfit. apply Forall_forall. intros l Hl. split.
  - apply Forall_forall. intros fr Hfr. rewrite Forall_forall in Hok. apply Hok.
    eapply elem_of_Permutation_proper; [symmetry; exact Hperm|].
    by eapply elem_of_concat.
  - pose proof (len_encode_log_concat logs l Hl).
    pose proof (len_encode_log_Permutation _ _ Hperm). lia.
Qed.

Lemma File_ReadAt_gapless f logs fs b off :
  stored f logs → gapless logs fs →
  Forall frame_ok fs → len (encode_log fs) < 2 ^ 63 →
  0 ≤ off → off ≤ f_size f → off ≤ len (payload fs) → off + len b < 2 ^ 63 →
  File_ReadAt f b off =
    Ok (splice b 0 (take (Z.to_nat (Z.min (len b) (len (payload fs) - off)))
                      (drop (Z.to_nat off) (payload fs))),
        Z.min (len b) (len (payload fs) - off), None).
Proof.
  intros Hst Hg Hok Hfit Hoff Hsize HT Hwin.
  pose proof (len_nonneg b) as Hb.
  unfold File_ReadAt.
  replace (f_size f <? off) with false by (symmetry; apply Z.ltb_ge; lia).
  destruct Hg as (Hperm & Hsort & Hc).
  rewrite (gather_holds _ logs) by (done || by eapply gapless_log_ok).
  cbn [mbind outcome_bind].
  assert (HG := gathered_window off (len b) logs fs (conj Hperm (conj Hsort Hc))).
  pose proof (contig_end fs 0 Hc Hok ltac:(lia)) as Hend.
  rewrite (copy_chain (len b) off Hoff Hb fs _ 0 off 0 b HG Hc); try lia.
  cbn [fst snd]. change (Z.to_nat 0) with 0%nat.
  by rewrite !Z.sub_0_r, !Z.add_0_l.
Qed.

(** * Writes on a store described by its logs *)

Lemma holds_write sf l b off :
  holds sf l → len (encode_log l) + 16 + len b < 2 ^ 63 →
  ∃ sf', SegFile_WriteAt sf b off = (sf', len b, None)
         ∧ holds sf' (l ++ [{| fr_off := u64 off; fr_data := b |}]).
Proof.
  intros (Hopen & Hcont & Hcur & Hsegs) Hfit.
  eexists. split.
  - apply SegFile_WriteAt_open; [done|by rewrite Hcur, Hcont|by rewrite Hcur].
  - unfold holds, is_open. cbn [sf_file sf_off sf_segs content closed].
    rewrite encode_log_app, descriptors_app, len_app, Hcont, Hcur, Hsegs.
    cbn [encode_log fmap list_fmap concat descriptors fr_off fr_data].
    rewrite app_nil_r, len_encode_frame. cbn [fr_data].
    repeat split; try done; try lia.
Qed.

Lemma stored_write fs : ∀ logs r sf sf' l fr,
  Forall2 holds fs logs → fs !! r = Some sf → logs !! r = Some l →
  holds sf' (l ++ [fr]) →
  Forall2 holds (<[r := sf']> fs) (alter (λ l, l ++ [fr]) r logs).
Proof.
  induction fs as [|sf0 fs IH]; intros logs r sf sf' l fr Hrel Hsf Hl Hh; [done|].
  apply Forall2_cons_inv_l in Hrel as (l0 & logs' & Hh0 & Hrel & ->).
  destruct r as [|r]; simpl in *.
  - injection Hl as ->. by constructor.
  - constructor; [done|]. by eapply IH.
Qed.

Lemma File_WriteAt_stored f logs w l :
  stored f logs → logs !! w_shard w = Some l →
  len (encode_log l) + 16 + len (w_data w) < 2 ^ 63 →
  ∃ f', File_WriteAt f (w_shard w) (w_data w) (w_off w) = Ok (f', len (w_data w), None)
        ∧ stored f' (log_write logs w)
        ∧ f_size f' = i64 (f_size f + i64 (len (w_data w))).
Proof.
  intros Hst Hl Hfit. unfold stored in Hst.
  destruct (Forall2_lookup_r _ _ _ _ _ Hst Hl) as (sf & Hsf & Hh).
  destruct (holds_write sf l (w_data w) (w_off w) Hh Hfit) as (sf' & HW & Hh').
  unfold File_WriteAt. rewrite Hsf, HW. eexists. split; [done|]. split; [|done].
  unfold stored, log_write. cbn [f_files]. by eapply stored_write.
Qed.

Lemma concat_alter_snoc (logs : list (list frame)) : ∀ r l fr,
  logs !! r = Some l →
  concat (alter (λ l, l ++ [fr]) r logs) ≡ₚ concat logs ++ [fr].
Proof.
  induction logs as [|l0 logs IH]; intros r l fr Hl; [done|].
  destruct r as [|r]; simpl in *.
  - rewrite <- !app_assoc. apply Permutation_app; [done|]. apply Permutation_app_comm.
  - rewrite <- app_assoc. apply Permutation_app; [done|]. by eapply IH.
Qed.

Lemma contig_app fs1 : ∀ o fs2,
  contig o (fs1 ++ fs2) ↔ contig o fs1 ∧ contig (o + len (payload fs1)) fs2.
Proof.
  induction fs1 as [|fr fs1 IH]; intros o fs2; simpl.
  - change (len (payload [])) with 0. rewrite Z.add_0_r. tauto.
  - rewrite IH, payload_cons, len_app.
    replace (o + len (fr_data fr) + len (payload fs1))
      with (o + (len (fr_data fr) + len (payload fs1))) by lia.
    tauto.
Qed.

Lemma contig_bounds fs : ∀ o fr,
  contig o fs → fr ∈ fs → o ≤ fr_off fr ∧ fr_end fr ≤ o + len (payload fs).
Proof.
  induction fs as [|fr0 fs IH]; intros o fr Hc Hfr; [by apply elem_of_nil in Hfr|].
  destruct Hc as [Ho Hc]. rewrite payload_cons, len_app.
  pose proof (len_nonneg (fr_data fr0)). pose proof (len_nonneg (payload fs)).
  apply elem_of_cons in Hfr as [->|Hfr].
  - unfold fr_end. lia.
  - specialize (IH _ _ Hc Hfr). lia.
Qed.

Lemma Sorted_ends_snoc l fr :
  Sorted ends_beforeF l → Forall (λ x, fr_end x ≤ fr_off fr) l →
  Sorted ends_beforeF (l ++ [fr]).
Proof.
  intros Hs Hall. apply StronglySorted_Sorted, StronglySorted_app.
  split; [|split].
  - intros x1 x2 Hx1 Hx2. apply list_elem_of_singleton in Hx2 as ->.
    rewrite Forall_forall in Hall. by apply Hall.
  - by apply Sorted_StronglySorted; [apply _|].
  - repeat constructor.
Qed.

Lemma gapless_write logs fs w l :
  gapless logs fs → logs !! w_shard w = Some l →
  fr_off (w_frame w) = len (payload fs) →
  gapless (log_write logs w) (fs ++ [w_frame w]).
Proof.
  intros (Hperm & Hsort & Hc) Hl Hoff. split; [|split].
  - etrans; [by eapply concat_alter_snoc|]. by apply Permutation_app.
  - unfold log_write. apply Forall_alter; [done|].
    intros l' Hl' Hs. rewrite Hl in Hl'. injection Hl' as <-.
    apply Sorted_ends_snoc; [done|].
    apply Forall_forall. intros x Hx.
    assert (Hxfs : x ∈ fs).
    { eapply elem_of_Permutation_proper; [symmetry; exact Hperm|].
      eapply elem_of_concat; [|exact Hx]. by eapply list_elem_of_lookup_2. }
    destruct (contig_bounds fs 0 x Hc Hxfs). lia.
  - apply contig_app. split; [done|]. cbn [contig]. split; [lia|done].
Qed.

(** * Gapless sequences of writes *)

Lemma len_payload_le fs : len (payload fs) ≤ len (encode_log fs).
Proof.
  induction fs as [|fr fs IH]; [done|].
  rewrite payload_cons, encode_log_cons, !len_app, len_encode_frame. lia.
Qed.

Lemma OpenFile_fresh name : OpenFile ∅ name = Some (inl (fresh name)).
Proof. reflexivity. Qed.

Lemma holds_empty_shard nm : holds (empty_shard nm) [].
Proof. by repeat split. Qed.

Lemma sound_fresh name : sound (fresh name) [[]; []] [].
Proof.
  split; [|split; [|split; [|split]]]; try done.
  - repeat constructor; apply holds_empty_shard.
  - split; [done|]. split; [|done]. repeat constructor.
Qed.

Lemma sound_write f logs fs w :
  sound f logs fs →
  w_off w = len (payload fs) → (w_shard w < numFiles)%nat →
  len (w_data w) ≤ maxAlloc →
  len (encode_log fs) + 16 + len (w_data w) < 2 ^ 63 →
  ∃ f', File_WriteAt f (w_shard w) (w_data w) (w_off w) = Ok (f', len (w_data w), None)
        ∧ sound f' (log_write logs w) (fs ++ [w_frame w]).
Proof.
  intros (Hst & Hg & Hok & Hsize & Hlen) Hoff Hshard Hmax Hfit.
  destruct (lookup_lt_is_Some_2 logs (w_shard w)) as [l Hl]; [lia|].
  pose proof (len_payload_le fs) as Hple. pose proof (len_nonneg (payload fs)) as Hp.
  pose proof (len_nonneg (w_data w)) as Hd.
  assert (Hll : len (encode_log l) ≤ len (encode_log fs)).
  { destruct Hg as (Hperm & _). rewrite <- (len_encode_log_Permutation _ _ Hperm).
    apply len_encode_log_concat. by eapply list_elem_of_lookup_2. }
  destruct (File_WriteAt_stored f logs w l Hst Hl) as (f' & HW & Hst' & Hsize'); [lia|].
  assert (Hfo : fr_off (w_frame w) = len (payload fs)).
  { cbn. rewrite Hoff. apply u64_small. lia. }
  exists f'. split; [done|]. split; [done|]. split; [by eapply gapless_write|].
  split; [|split].
  - apply Forall_app. split; [done|]. constructor; [|constructor].
    unfold frame_ok, fr_end. rewrite Hfo. cbn [w_frame fr_data]. lia.
  - rewrite Hsize', Hsize, payload_app, len_app. cbn. rewrite app_nil_r.
    rewrite (i64_small (len (w_data w))) by lia. rewrite i64_small; lia.
  - unfold log_write. by rewrite length_alter.
Qed.

Lemma run_writes_sound ws : ∀ f logs fs,
  sound f logs fs →
  contig_writes (len (payload fs)) ws →
  Forall (λ w, len (w_data w) ≤ maxAlloc) ws →
  len (encode_log fs) + len (encode_log (w_frame <$> ws)) < 2 ^ 63 →
  ∃ f', run_writes f ws = Ok f'
        ∧ sound f' (foldl log_write logs ws) (fs ++ (w_frame <$> ws)).
Proof.
  induction ws as [|w ws IH]; intros f logs fs Hs Hc Hmax Hfit.
  - exists f. by rewrite app_nil_r.
  - destruct Hc as (Hoff & Hshard & Hc). apply Forall_cons in Hmax as [Hm Hmax].
    rewrite fmap_cons, encode_log_cons, len_app, len_encode_frame in Hfit.
    cbn [w_frame fr_data] in Hfit.
    pose proof (len_nonneg (encode_log (w_frame <$> ws))).
    destruct (sound_write f logs fs w Hs Hoff Hshard Hm) as (f' & HW & Hs'); [lia|].
    destruct (IH f' (log_write logs w) (fs ++ [w_frame w]) Hs') as (f'' & HR & Hs'').
    + rewrite payload_app, len_app. cbn. by rewrite app_nil_r.
    + done.
    + rewrite encode_log_app, len_app. cbn [encode_log fmap list_fmap concat].
      rewrite app_nil_r, len_encode_frame. cbn [w_frame fr_data]. lia.
    + exists f''. cbn [run_writes]. rewrite HW. cbn. split; [done|].
      by rewrite <- app_assoc in Hs''.
Qed.

(** After gapless writes on an empty store a read at any offset up to the
    known size returns the bytes written from that offset on, as many as
    the buffer takes and as there are. *)
Lemma File_ReadAt_contiguous name ws :
  contig_writes 0 ws → writes_fit ws →
  ∃ f, run_writes (fresh name) ws = Ok f
       ∧ f_size f = len (written ws)
       ∧ ∀ b off,
           0 ≤ off → off ≤ f_size f → off + len b < 2 ^ 63 →
           File_ReadAt f b off =
             Ok (splice b 0 (take (Z.to_nat (Z.min (len b) (len (written ws) - off)))
                               (drop (Z.to_nat off) (written ws))),
                 Z.min (len b) (len (written ws) - off), None).
Proof.
  intros Hc [Hmax Hfit].
  destruct (run_writes_sound ws (fresh name) [[]; []] [] (sound_fresh name))
    as (f & HR & Hst & Hg & Hok & Hsize & Hlen); [done..|].
  rewrite app_nil_l in *. exists f. split; [done|]. split; [done|].
  intros b off Hoff Hle Hwin.
  apply (File_ReadAt_gapless f _ _ b off Hst Hg Hok); try done. unfold written in *. lia.
Qed.

(** * Round trip, end of data and bounds of the merged read *)

Lemma writes_fit_len ws : writes_fit ws → len (written ws) < 2 ^ 63.
Proof.
  intros [_ H]. unfold written. pose proof (len_payload_le (w_frame <$> ws)). lia.
Qed.

Lemma splice_all (b x : list byte) : length b = length x → splice b 0 x = x.
Proof.
  intros H. unfold splice. rewrite take_0, drop_ge by lia. simpl. apply app_nil_r.
Qed.

(** C1 (as amended): after writes that start at offset 0 on an empty store
    and follow one another without gap or overlap, whatever shard each one
    lands on, a read of the whole range written returns the payloads one
    after the other, byte for byte, and their total length. *)
Theorem roundtrip_contiguous (name : string) (ws : list write) (b : list byte) :
  contig_writes 0 ws → writes_fit ws → len b = len (written ws) →
  ∃ f0 f,
    OpenFile ∅ name = Some (inl f0)
    ∧ run_writes f0 ws = Ok f
    ∧ File_ReadAt f b 0 = Ok (written ws, len (written ws), None).
Proof.
  intros Hc Hfit Hb.
  destruct (File_ReadAt_contiguous name ws Hc Hfit) as (f & HR & Hsize & Hread).
  pose proof (writes_fit_len ws Hfit). pose proof (len_nonneg (written ws)).
  exists (fresh name), f. split; [apply OpenFile_fresh|]. split; [done|].
  rewrite Hread by lia. rewrite Hb, Z.sub_0_r, Z.min_id.
  change (Z.to_nat 0) with 0%nat. rewrite drop_0, to_nat_len, firstn_all.
  rewrite splice_all; [done|]. unfold len in Hb. lia.
Qed.

Lemma roundtrip_contiguous_witness :
  ∃ f0 f,
    OpenFile ∅ "m" = Some (inl f0)
    ∧ run_writes f0 two_writes = Ok f
    ∧ File_ReadAt f (replicate 6 Byte.x00) 0 = Ok (written two_writes, len (written two_writes), None).
Proof.
  apply (roundtrip_contiguous "m" two_writes (replicate 6 Byte.x00)).
  - repeat split; first [reflexivity | cbn; unfold numFiles; lia].
  - split; [repeat constructor; by vm_compute|reflexivity].
  - reflexivity.
Defined.

(** C1 (as stated) fails. A single byte written at offset 5 is a sequence
    of non-overlapping writes at increasing offsets, and the read of its
    range reports the end of the data with no byte; two writes with a gap
    between them make the read of the range they span panic. *)
Lemma roundtrip_fails_off_origin :
  (∃ f, run_writes (fresh "m") sparse_writes = Ok f
        ∧ File_ReadAt f [Byte.x00] 5 = Ok ([Byte.x00], 0, Some EOF))
  ∧ (∃ f, run_writes (fresh "m") gap_writes = Ok f
          ∧ File_ReadAt f (replicate 7 Byte.x00) 0 = Panic).
Proof. split; eexists; split; reflexivity. Qed.

(** C5 (as amended): a read that starts beyond the known size returns no
    byte and the end-of-data signal, on every store. On a store built by
    gapless writes from offset 0 a read into a buffer that is not empty,
    starting one byte before the known size, returns that one byte. *)
Theorem eof_boundary :
  (∀ (f : File) (b : list byte) (off : Z),
     f_size f < off → File_ReadAt f b off = Ok (b, 0, Some EOF))
  ∧ (∀ (name : string) (ws : list write) (b : list byte),
       contig_writes 0 ws → writes_fit ws →
       0 < len (written ws) → 0 < len b → len (written ws) + len b ≤ 2 ^ 63 →
       ∃ f, run_writes (fresh name) ws = Ok f
            ∧ f_size f = len (written ws)
            ∧ File_ReadAt f b (f_size f - 1)
              = Ok (splice b 0 (drop (Z.to_nat (f_size f - 1)) (written ws)), 1, None)).
Proof.
  split.
  - intros f b off H. unfold File_ReadAt.
    by replace (f_size f <? off) with true by (symmetry; apply Z.ltb_lt; lia).
  - intros name ws b Hc Hfit HT Hb Hmax.
    destruct (File_ReadAt_contiguous name ws Hc Hfit) as (f & HR & Hsize & Hread).
    pose proof (writes_fit_len ws Hfit).
    exists f. split; [done|]. split; [done|].
    rewrite Hread by lia. rewrite Hsize.
    replace (Z.min (len b) (len (written ws) - (len (written ws) - 1))) with 1 by lia.
    rewrite take_ge; [done|]. rewrite length_drop. unfold len in *. lia.
Qed.

Lemma eof_boundary_witness :
  File_ReadAt (fresh "m") [Byte.x00] 1 = Ok ([Byte.x00], 0, Some EOF)
  ∧ ∃ f, run_writes (fresh "m") two_writes = Ok f
         ∧ f_size f = len (written two_writes)
         ∧ File_ReadAt f [Byte.x00] (f_size f - 1)
           = Ok (splice [Byte.x00] 0 (drop (Z.to_nat (f_size f - 1)) (written two_writes)),
                 1, None).
Proof.
  destruct eof_boundary as [Hpast Hlast]. split.
  - apply (Hpast (fresh "m") [Byte.x00] 1). simpl. lia.
  - apply (Hlast "m"%string two_writes [Byte.x00]).
    + repeat split; first [reflexivity | cbn; unfold numFiles; lia].
    + split; [repeat constructor; by vm_compute|reflexivity].
    + reflexivity.
    + reflexivity.
    + by vm_compute.
Defined.

(** C5 (as stated) fails: with one byte stored at offset 5 the known size
    is 1, and the read that starts one byte before it, at offset 0, returns
    no byte. *)
Lemma read_before_extent_returns_nothing :
  ∃ f, run_writes (fresh "m") sparse_writes = Ok f
       ∧ f_size f = 1
       ∧ File_ReadAt f [Byte.x00] (f_size f - 1) = Ok ([Byte.x00], 0, None).
Proof. eexists. repeat split; reflexivity. Qed.

(** What the guard [off > f.size] leaves to the loops: a read that starts
    exactly at the known size of a gapless store returns no byte and no
    error. *)
Example read_at_extent :
  ∃ f, run_writes (fresh "m") two_writes = Ok f
       ∧ File_ReadAt f [Byte.x00] (f_size f) = Ok ([Byte.x00], 0, None).
Proof. eexists. split; reflexivity. Qed.

(** C10 (as amended): on a store built by gapless writes from offset 0,
    a read at an offset from 0 up to the known size makes only in-bounds
    accesses: it does not panic, and it returns a count between 0 and the
    length of the buffer, whose length is kept. *)
Theorem ReadAt_in_bounds (name : string) (ws : list write) :
  contig_writes 0 ws → writes_fit ws →
  ∃ f, run_writes (fresh name) ws = Ok f
       ∧ ∀ (b : list byte) (off : Z),
           0 ≤ off → off ≤ f_size f → off + len b < 2 ^ 63 →
           ∃ b' n err,
             File_ReadAt f b off = Ok (b', n, err)
             ∧ 0 ≤ n ≤ len b ∧ len b' = len b.
Proof.
  intros Hc Hfit.
  destruct (File_ReadAt_contiguous name ws Hc Hfit) as (f & HR & Hsize & Hread).
  exists f. split; [done|]. intros b off Hoff Hle Hwin.
  eexists _, _, _. split; [by apply Hread|].
  pose proof (len_nonneg b). split; [lia|].
  unfold len. rewrite length_splice; [done|].
  rewrite length_take, length_drop. unfold len in *. lia.
Qed.

Lemma ReadAt_in_bounds_witness :
  ∃ f, run_writes (fresh "m") two_writes = Ok f
       ∧ ∃ b' n err,
           File_ReadAt f (replicate 10 Byte.x00) 5 = Ok (b', n, err)
           ∧ 0 ≤ n ≤ len (replicate 10 Byte.x00) ∧ len b' = len (replicate 10 Byte.x00).
Proof.
  destruct (ReadAt_in_bounds "m" two_writes) as (f & HR & Hread).
  - repeat split; first [reflexivity | cbn; unfold numFiles; lia].
  - split; [repeat constructor; by vm_compute|reflexivity].
  - exists f. split; [exact HR|].
    assert (H1 : 0 ≤ 5) by lia.
    assert (H2 : 5 ≤ f_size f) by (injection HR as <-; by vm_compute).
    assert (H3 : 5 + len (replicate 10 Byte.x00) < 2 ^ 63) by reflexivity.
    exact (Hread (replicate 10 Byte.x00) 5 H1 H2 H3).
Defined.

(** C10 (as stated) fails: with one byte stored at offset 5 the known size
    is 1 and a read of ten bytes at offset 0, which is not past it, slices
    the payload at index -5 and panics; so does a read at offset -1 of a
    gapless store. *)
Lemma ReadAt_panics_on_gap :
  (∃ f, run_writes (fresh "m") sparse_writes = Ok f
        ∧ 0 ≤ f_size f
        ∧ File_ReadAt f (replicate 10 Byte.x00) 0 = Panic)
  ∧ (∃ f, run_writes (fresh "m") two_writes = Ok f
          ∧ -1 ≤ f_size f
          ∧ File_ReadAt f (replicate 10 Byte.x00) (-1) = Panic).
Proof.
  split; eexists; (split; [reflexivity|]); (split; [by vm_compute|reflexivity]).
Qed.

(** * Two frames that start at the same offset *)










(** Evaluate the shards of a concrete store in the goal. *)
Ltac eval_files f :=
  let l := eval vm_compute in (f_files f) in
  change (f_files f) with l.



(** * Arbitrary writes on an empty store *)

Lemma os_WriteAt_fname f b off : fname (os_WriteAt f b off).1.1 = fname f.
Proof.
  unfold os_WriteAt. by destruct (off <? 0), (len b <=? 0), (closed f).
Qed.

Lemma SegFile_WriteAt_fname sf b off :
  fname (sf_file (SegFile_WriteAt sf b off).1.1) = fname (sf_file sf).
Proof.
  unfold SegFile_WriteAt.
  destruct (os_WriteAt (sf_file sf) _ _) as [[file1 n1] e1] eqn:E1.
  destruct (os_WriteAt file1 _ _) as [[file2 n2] e2] eqn:E2. cbn.
  pose proof (os_WriteAt_fname file1 b
    (i64 (seg_pos {| seg_off := u64 off; seg_size := u64 (len b);
                     seg_pos := u64 (i64 (sf_off sf + i64 segHeaderSize));
                     seg_data := [] |}))) as H2.
  rewrite E2 in H2. cbn in H2. rewrite H2.
  pose proof (os_WriteAt_fname (sf_file sf)
    (marshal {| h_off := u64 off; h_size := u64 (len b) |}) (i64 (sf_off sf))) as H1.
  cbn in E1. rewrite E1 in H1. exact H1.
Qed.

Lemma File_WriteAt_named name f r b off f' n e :
  File_WriteAt f r b off = Ok (f', n, e) → named name f → named name f'.
Proof.
  unfold File_WriteAt, named. destruct (f_files f !! r) as [sf|] eqn:Hsf; [|done].
  pose proof (SegFile_WriteAt_fname sf b off) as Hn.
  destruct (SegFile_WriteAt sf b off) as [[sf' n'] e'].
  intros HW Hnamed.
  assert (Hfiles : f_files f' = <[r := sf']> (f_files f))
    by (destruct e'; injection HW as <- _ _; done).
  rewrite Hfiles, list_fmap_insert, length_insert.
  rewrite list_insert_id; [done|]. rewrite list_lookup_fmap, Hsf. cbn in *. by rewrite Hn.
Qed.

Lemma len_encode_log_write logs w l :
  logs !! w_shard w = Some l →
  len (encode_log (concat (log_write logs w)))
  = len (encode_log (concat logs)) + 16 + len (w_data w).
Proof.
  intros Hl. unfold log_write.
  rewrite (len_encode_log_Permutation _ _ (concat_alter_snoc logs _ l (w_frame w) Hl)).
  rewrite encode_log_app, len_app. cbn [encode_log fmap list_fmap concat].
  rewrite app_nil_r, len_encode_frame. cbn. lia.
Qed.

Lemma kept_write name f logs w :
  kept name f logs → (w_shard w < numFiles)%nat →
  len (encode_log (concat logs)) + 16 + len (w_data w) < 2 ^ 63 →
  ∃ f', File_WriteAt f (w_shard w) (w_data w) (w_off w) = Ok (f', len (w_data w), None)
        ∧ kept name f' (log_write logs w)
        ∧ f_size f' = i64 (f_size f + i64 (len (w_data w))).
Proof.
  intros (Hst & Hnamed & Hlen & Hu) Hshard Hfit.
  destruct (lookup_lt_is_Some_2 logs (w_shard w)) as [l Hl]; [lia|].
  assert (Hll : len (encode_log l) ≤ len (encode_log (concat logs)))
    by (apply len_encode_log_concat; by eapply list_elem_of_lookup_2).
  destruct (File_WriteAt_stored f logs w l Hst Hl) as (f' & HW & Hst' & Hsize); [lia|].
  exists f'. split; [done|]. split; [|done].
  split; [done|]. split; [by eapply File_WriteAt_named|]. split.
  - unfold log_write. by rewrite length_alter.
  - unfold log_write. apply Forall_alter; [done|]. intros l' _ Hl'.
    apply Forall_app. split; [done|]. constructor; [|constructor].
    cbn. apply u64_range.
Qed.

Lemma run_writes_kept name ws : ∀ f logs,
  kept name f logs →
  Forall (λ w, (w_shard w < numFiles)%nat) ws →
  len (encode_log (concat logs)) + len (encode_log (w_frame <$> ws)) < 2 ^ 63 →
  ∃ f', run_writes f ws = Ok f' ∧ kept name f' (foldl log_write logs ws)
        ∧ len (encode_log (concat (foldl log_write logs ws)))
          = len (encode_log (concat logs)) + len (encode_log (w_frame <$> ws)).
Proof.
  induction ws as [|w ws IH]; intros f logs Hk Hsh Hfit.
  - exists f. cbn [run_writes foldl fmap list_fmap].
    change (len (encode_log [])) with 0. split; [done|]. split; [done|lia].
  - apply Forall_cons in Hsh as [Hw Hsh].
    rewrite fmap_cons, encode_log_cons, len_app, len_encode_frame in Hfit |- *.
    cbn [w_frame fr_data] in *.
    pose proof (len_nonneg (encode_log (w_frame <$> ws))).
    destruct (kept_write name f logs w Hk Hw) as (f' & HW & Hk' & _); [lia|].
    destruct Hk as (_ & _ & Hlen & _).
    destruct (lookup_lt_is_Some_2 logs (w_shard w)) as [l Hl]; [lia|].
    pose proof (len_encode_log_write logs w l Hl) as Hlw.
    destruct (IH f' (log_write logs w) Hk' Hsh) as (f'' & HR & Hk'' & Hlen''); [lia|].
    exists f''. cbn [run_writes foldl]. rewrite HW. cbn. split; [done|]. split; [done|lia].
Qed.

Lemma kept_fresh name : kept name (fresh name) [[]; []].
Proof.
  split; [|split; [|split]]; try done.
  - repeat constructor; apply holds_empty_shard.
  - repeat constructor.
Qed.

(** * Closing and reopening a store *)

Lemma shard_names_differ name : shard_name name 0 ≠ shard_name name 1.
Proof.
  unfold shard_name. intros H. apply (inj (String.app name)) in H.
  vm_compute in H. discriminate.
Qed.

Lemma close_loop_open fs :
  Forall is_open fs → close_loop fs = ((λ sf, (SegFile_Close sf).1) <$> fs, None).
Proof.
  intros Hopen. pose proof (close_loop_spec fs) as H.
  destruct (close_loop fs) as [fs' [e|]]; cbn in H.
  - destruct H as (pre & sf & post & -> & _ & Hc & _).
    apply Forall_app in Hopen as [_ Hopen]. apply Forall_cons in Hopen as [Ho _].
    unfold is_open, is_closed in *. congruence.
  - by destruct H as [_ ->].
Qed.

Lemma stored_open f logs : stored f logs → Forall is_open (f_files f).
Proof.
  unfold stored. intros H. induction H as [|sf l fs logs Hh _ IH]; constructor; [|done].
  by destruct Hh.
Qed.

Lemma holds_opened d nm l sz :
  default [] (d !! nm) = encode_log l →
  holds {| sf_name := nm; sf_file := os_OpenFile d nm; sf_size := sz;
           sf_off := len (encode_log l); sf_segs := descriptors 0 l |} l.
Proof. intros Hd. by repeat split. Qed.

(** Reopening the store that two open shards leave behind: every shard is
    replayed to the descriptors it had, and the known size is computed from
    the ends of the last frames. *)
Lemma reopen_kept name f l0 l1 :
  kept name f [l0; l1] →
  len (encode_log (concat [l0; l1])) < 2 ^ 63 →
  (File_Close f).2 = None
  ∧ ∃ f2, OpenFile (File_persist (File_Close f).1 ∅) name = Some (inl f2)
          ∧ stored f2 [l0; l1]
          ∧ f_size f2 = known_size [l0; l1].
Proof.
  intros (Hst & Hnamed & _ & Hu) Hfit.
  pose proof (stored_open f _ Hst) as Hopen.
  unfold File_Close. rewrite (close_loop_open _ Hopen). split; [done|].
  unfold stored in Hst.
  apply Forall2_cons_inv_r in Hst as (sf0 & fs & H0 & Hst & Hf).
  apply Forall2_cons_inv_r in Hst as (sf1 & fs' & H1 & Hst & ->).
  apply Forall2_nil_inv_r in Hst as ->.
  unfold named in Hnamed. rewrite Hf in Hnamed |- *. cbn in Hnamed.
  injection Hnamed as Hn0 Hn1.
  apply Forall_cons in Hu as [Hu0 Hu]. apply Forall_cons in Hu as [Hu1 _].
  cbn [concat] in Hfit. rewrite app_nil_r, encode_log_app, len_app in Hfit.
  pose proof (len_nonneg (encode_log l0)). pose proof (len_nonneg (encode_log l1)).
  destruct H0 as (Ho0 & Hc0 & Hcur0 & Hs0). destruct H1 as (Ho1 & Hc1 & Hcur1 & Hs1).
  unfold is_open in Ho0, Ho1.
  set (d := File_persist _ ∅).
  assert (Hd0 : default [] (d !! shard_name name 0) = encode_log l0).
  { subst d. unfold File_persist, os_persist, SegFile_Close, os_Close.
    cbn [f_files fmap list_fmap foldr]. rewrite Ho0, Ho1.
    cbn [fst f_files foldr sf_file fname content].
    by rewrite Hn0, lookup_insert_eq, Hc0. }
  assert (Hd1 : default [] (d !! shard_name name 1) = encode_log l1).
  { subst d. unfold File_persist, os_persist, SegFile_Close, os_Close.
    cbn [f_files fmap list_fmap foldr]. rewrite Ho0, Ho1.
    cbn [fst f_files foldr sf_file fname content].
    rewrite Hn0, Hn1, lookup_insert_ne by apply shard_names_differ.
    by rewrite lookup_insert_eq, Hc1. }
  unfold OpenFile. change (seq 0 numFiles) with [0%nat; 1%nat]. cbn [open_shards].
  rewrite (OpenSegFile_log d _ l0 Hd0) by (split; [done|lia]).
  rewrite (OpenSegFile_log d _ l1 Hd1) by (split; [done|lia]).
  eexists. split; [done|]. split.
  - unfold stored. cbn [f_files app]. repeat constructor; by apply holds_opened.
  - done.
Qed.

(** * Reads depend on the logs and on the size guard only *)

Lemma os_ReadAt_ext f f' n off :
  content f = content f' → closed f = closed f' → os_ReadAt f n off = os_ReadAt f' n off.
Proof. intros Hc Hcl. unfold os_ReadAt. by rewrite Hc, Hcl. Qed.

Lemma scan_ext file file' off size l :
  content file = content file' → closed file = closed file' →
  ∀ acc err, scan file off size l acc err = scan file' off size l acc err.
Proof.
  intros Hc Hcl. induction l as [|s l IH]; intros acc err; [done|].
  cbn [scan]. rewrite (os_ReadAt_ext file file') by done.
  destruct (os_ReadAt file' _ _) as [got e]. by rewrite !IH.
Qed.

Lemma SegFile_ReadAt_same sf sf' l off n :
  holds sf l → holds sf' l → SegFile_ReadAt sf off n = SegFile_ReadAt sf' off n.
Proof.
  intros (Ho & Hc & _ & Hs) (Ho' & Hc' & _ & Hs'). unfold SegFile_ReadAt, is_open in *.
  rewrite Hs, Hs'. apply scan_ext; congruence.
Qed.

Lemma gather_same fs fs' logs off n :
  Forall2 holds fs logs → Forall2 holds fs' logs →
  ∀ acc, gather fs off n acc = gather fs' off n acc.
Proof.
  intros H. revert fs'. induction H as [|sf l fs logs Hh _ IH]; intros fs' H' acc.
  - by apply Forall2_nil_inv_r in H' as ->.
  - apply Forall2_cons_inv_r in H' as (sf' & fs'' & Hh' & H' & ->).
    cbn [gather]. rewrite (SegFile_ReadAt_same sf sf' l) by done.
    destruct (SegFile_ReadAt sf' off n) as [[ss [[]|]]|]; cbn; try done; by apply IH.
Qed.

Lemma File_ReadAt_same f f' logs b off :
  stored f logs → stored f' logs → (f_size f <? off) = (f_size f' <? off) →
  File_ReadAt f b off = File_ReadAt f' b off.
Proof.
  intros Hst Hst' Hguard. unfold File_ReadAt. rewrite Hguard.
  by rewrite (gather_same _ _ logs off (len b) Hst Hst').
Qed.

(** * The known size after reopening a gapless store *)

Lemma replay_size_last l : ∀ sz,
  replay_size sz l = match last l with Some fr => i64 (u64 (fr_end fr)) | None => sz end.
Proof.
  induction l as [|x l _] using rev_ind; intros sz; [done|].
  unfold replay_size. by rewrite foldl_app, last_snoc.
Qed.

Lemma Sorted_last_end l z y :
  Sorted ends_beforeF l → z ∈ l → last l = Some y → fr_end z ≤ fr_end y.
Proof.
  intros Hs Hz Hy. destruct l as [|x l _] using rev_ind; [done|].
  rewrite last_snoc in Hy. injection Hy as ->.
  apply Sorted_StronglySorted in Hs; [|apply _].
  apply StronglySorted_app in Hs as (Hr & _ & _).
  apply elem_of_app in Hz as [Hz|Hz].
  - specialize (Hr z y Hz ltac:(by left)). unfold ends_beforeF, fr_end in *.
    pose proof (len_nonneg (fr_data y)). lia.
  - apply list_elem_of_singleton in Hz as ->. lia.
Qed.

Lemma known_size_fold T logs : ∀ acc,
  0 ≤ acc ≤ T → T < 2 ^ 63 →
  Forall (λ l, 0 ≤ replay_size 0 l ≤ T) logs →
  acc = T ∨ Exists (λ l, replay_size 0 l = T) logs →
  foldl (λ size l, if size <? i64 (replay_size 0 l) then i64 (replay_size 0 l) else size)
        acc logs = T.
Proof.
  induction logs as [|l logs IH]; intros acc Hacc HT Hall Hex.
  - destruct Hex as [->|Hex]; [done|]. by apply Exists_nil in Hex.
  - apply Forall_cons in Hall as [Hl Hall]. cbn [foldl].
    rewrite i64_small by lia.
    destruct (acc <? replay_size 0 l) eqn:E; [apply Z.ltb_lt in E|apply Z.ltb_ge in E];
      (apply IH; [lia|done|done|]);
      (destruct Hex as [->|Hex]; [|apply Exists_cons in Hex as [Hex|Hex]]);
      first [by right | left; lia].
Qed.

Lemma known_size_gapless logs fs :
  gapless logs fs → Forall frame_ok fs → known_size logs = len (payload fs).
Proof.
  intros (Hperm & Hsort & Hc) Hok.
  pose proof (contig_end fs 0 Hc Hok ltac:(lia)) as HT.
  pose proof (len_nonneg (payload fs)) as HT0.
  assert (Hin : ∀ l fr, l ∈ logs → fr ∈ l → fr ∈ fs).
  { intros l fr Hl Hfr. eapply elem_of_Permutation_proper; [symmetry; exact Hperm|].
    by eapply elem_of_concat. }
  assert (Hend : ∀ fr, fr ∈ fs → i64 (u64 (fr_end fr)) = fr_end fr
                                 ∧ 0 ≤ fr_end fr ≤ len (payload fs)).
  { intros fr Hfr. rewrite Forall_forall in Hok. destruct (Hok fr Hfr) as (H0 & He & _).
    destruct (contig_bounds fs 0 fr Hc Hfr) as [Hlo Hhi].
    unfold fr_end in *. pose proof (len_nonneg (fr_data fr)).
    rewrite u64_small, i64_small by lia. lia. }
  unfold known_size. apply known_size_fold; [lia|lia| |].
  - apply Forall_forall. intros l Hl. rewrite replay_size_last.
    destruct (last l) as [y|] eqn:Hy; [|lia].
    destruct (Hend y) as [-> ?]; [|done]. eapply Hin; [done|]. by apply last_Some_elem_of.
  - destruct fs as [|z fs _] using rev_ind; [by left|]. right.
    assert (Hz : z ∈ concat logs).
    { eapply elem_of_Permutation_proper; [exact Hperm|]. apply elem_of_app. right. by left. }
    apply list_elem_of_In, in_concat in Hz as (l & Hl & Hz).
    apply list_elem_of_In in Hl, Hz.
    apply Exists_exists. exists l. split; [done|].
    rewrite replay_size_last.
    destruct (last l) as [y|] eqn:Hy;
      [|apply last_None in Hy as ->; by apply elem_of_nil in Hz].
    assert (Hyfs : y ∈ fs ++ [z]) by (eapply Hin; [done|]; by apply last_Some_elem_of).
    destruct (Hend y Hyfs) as [-> Hyb].
    rewrite Forall_forall in Hsort.
    pose proof (Sorted_last_end l z y (Hsort l Hl) Hz Hy) as Hzy.
    apply contig_app in Hc as [_ [Hzo _]].
    rewrite payload_app, len_app in *. cbn in Hyb |- *. rewrite app_nil_r in *.
    unfold fr_end in *. lia.
Qed.

Lemma two_logs (logs : list (list frame)) :
  length logs = numFiles → ∃ l0 l1, logs = [l0; l1].
Proof. destruct logs as [|l0 [|l1 [|l2 logs]]]; try done. intros _. by exists l0, l1. Qed.

(** C7 (as amended): after any sequence of writes on a store opened empty,
    closing the store succeeds and opening it again from the files it left
    gives every shard the descriptors, the bytes and the append cursor it
    had before closing, on an open handle. When the writes start at offset 0
    and follow one another without gap, the reopened store also has the
    known size it had before closing, and every read returns what the same
    read returned before closing: buffer, count and error. *)
Theorem reopen_same_reads (name : string) (ws : list write) :
  Forall (λ w, (w_shard w < numFiles)%nat) ws → writes_fit ws →
  ∃ f f2,
    run_writes (fresh name) ws = Ok f
    ∧ (File_Close f).2 = None
    ∧ OpenFile (File_persist (File_Close f).1 ∅) name = Some (inl f2)
    ∧ Forall2 (λ sf sf2, is_open sf2
                         ∧ sf_segs sf2 = sf_segs sf
                         ∧ content (sf_file sf2) = content (sf_file sf)
                         ∧ sf_off sf2 = sf_off sf)
              (f_files f) (f_files f2)
    ∧ (contig_writes 0 ws →
       f_size f2 = f_size f
       ∧ ∀ (b : list byte) (off : Z), File_ReadAt f2 b off = File_ReadAt f b off).
Proof.
  intros Hsh [Hmax Hfit].
  destruct (run_writes_kept name ws (fresh name) [[]; []] (kept_fresh name) Hsh)
    as (f & HR & Hk & Hlen); [done|].
  change (len (encode_log (concat [[]; []]))) with 0 in Hlen.
  set (logs := foldl log_write [[]; []] ws) in *.
  destruct (two_logs logs) as (l0 & l1 & Hlogs); [by destruct Hk as (_ & _ & ? & _)|].
  rewrite Hlogs in *.
  destruct (reopen_kept name f l0 l1 Hk) as (Hclose & f2 & Hopen & Hst2 & Hsize2); [lia|].
  assert (Hst : stored f [l0; l1]) by (by destruct Hk).
  exists f, f2. split; [done|]. split; [done|]. split; [done|]. split.
  - unfold stored in Hst, Hst2. apply Forall2_flip in Hst2.
    eapply Forall2_trans; [|exact Hst|exact Hst2].
    intros sf l sf2 (_ & Hc & Ho & Hs) (Hopen2 & Hc2 & Ho2 & Hs2).
    split; [done|]. split; [congruence|]. split; congruence.
  - intros Hc.
    destruct (run_writes_sound ws (fresh name) [[]; []] [] (sound_fresh name))
      as (f' & HR' & _ & Hg & Hok & Hsize & _); [done..|].
    rewrite HR in HR'. injection HR' as <-. fold logs in Hg. rewrite Hlogs in Hg.
    assert (Hsz : f_size f2 = f_size f)
      by (by rewrite Hsize2, Hsize, (known_size_gapless _ _ Hg Hok)).
    split; [done|]. intros b off.
    apply (File_ReadAt_same f2 f [l0; l1]); [done|done|by rewrite Hsz].
Qed.

Lemma reopen_same_reads_witness :
  ∃ f f2,
    run_writes (fresh "m") two_writes = Ok f
    ∧ OpenFile (File_persist (File_Close f).1 ∅) "m" = Some (inl f2)
    ∧ File_ReadAt f2 (replicate 3 Byte.x00) 2 = File_ReadAt f (replicate 3 Byte.x00) 2
    ∧ f_size f2 = f_size f.
Proof.
  destruct (reopen_same_reads "m" two_writes) as (f & f2 & HR & _ & Hopen & _ & Hsame).
  - repeat constructor.
  - split; [repeat constructor; by vm_compute|reflexivity].
  - exists f, f2. split; [exact HR|]. split; [exact Hopen|].
    assert (Hc : contig_writes 0 two_writes)
      by (repeat split; first [reflexivity | cbn; unfold numFiles; lia]).
    destruct (Hsame Hc) as [Hsize Hread].
    split; [apply Hread|exact Hsize].
Defined.

(** C7 (as stated) fails: after one byte written at offset 5 the known size
    is 1 and the read of that byte reports the end of the data; after
    closing and reopening the known size is 6 and the same read returns the
    byte. *)
Lemma reopen_changes_read :
  ∃ f f2,
    run_writes (fresh "m") sparse_writes = Ok f
    ∧ (File_Close f).2 = None
    ∧ OpenFile (File_persist (File_Close f).1 ∅) "m" = Some (inl f2)
    ∧ File_ReadAt f [Byte.x00] 5 = Ok ([Byte.x00], 0, Some EOF)
    ∧ File_ReadAt f2 [Byte.x00] 5 = Ok ([Byte.x01], 1, None).
Proof. eexists _, _. repeat split; reflexivity. Qed.

(** * The header codec *)

Lemma marshal_unmarshal b : len b = segHeaderSize → marshal (unmarshal b) = b.
Proof.
  unfold len, segHeaderSize. intros Hb. unfold marshal, unmarshal. cbn [h_off h_size].
  rewrite !split_le_combine' by (rewrite ?length_take, ?length_drop; lia).
  rewrite <- (take_drop 8 b) at 3. f_equal.
  apply take_ge. rewrite length_drop. lia.
Qed.

Lemma unmarshal_range b :
  0 ≤ h_off (unmarshal b) < 2 ^ 64 ∧ 0 ≤ h_size (unmarshal b) < 2 ^ 64.
Proof.
  unfold unmarshal. cbn [h_off h_size].
  pose proof (le_combine_bound (take 8 b)) as H1.
  pose proof (le_combine_bound (take 8 (drop 8 b))) as H2.
  assert (H8 : ∀ l : list byte, 2 ^ (8 * Z.of_nat (length (take 8 l))) ≤ 2 ^ 64).
  { intros l. apply Z.pow_le_mono_r; [lia|]. rewrite length_take. lia. }
  pose proof (H8 b). pose proof (H8 (drop 8 b)). lia.
Qed.

(** X1: the header codec. A header whose two fields are 64-bit words is
    marshalled into 16 bytes from which [unmarshal] reads the same header
    back, whatever bytes follow; and any 16 bytes are the image of the
    header [unmarshal] reads from them: no 16 bytes are refused. *)
Theorem header_codec :
  (∀ (h : segHeader) (rest : list byte),
     0 ≤ h_off h < 2 ^ 64 → 0 ≤ h_size h < 2 ^ 64 →
     len (marshal h) = segHeaderSize ∧ unmarshal (marshal h ++ rest) = h)
  ∧ (∀ b : list byte,
       len b = segHeaderSize →
       0 ≤ h_off (unmarshal b) < 2 ^ 64 ∧ 0 ≤ h_size (unmarshal b) < 2 ^ 64
       ∧ marshal (unmarshal b) = b).
Proof.
  split.
  - intros h rest Ho Hs. split; [apply len_marshal|].
    rewrite <- (unmarshal_marshal h Ho Hs) at 2.
    unfold unmarshal.
    rewrite drop_app_le by (rewrite length_marshal; lia).
    rewrite !take_app_le by (rewrite ?length_drop, length_marshal; lia). done.
  - intros b Hb. pose proof (unmarshal_range b) as [H1 H2].
    by split; [|split; [|apply marshal_unmarshal]].
Qed.

Lemma header_codec_witness :
  unmarshal (marshal {| h_off := 7; h_size := 3 |} ++ [Byte.x01; Byte.x02; Byte.x03])
  = {| h_off := 7; h_size := 3 |}
  ∧ marshal (unmarshal (replicate 16 Byte.xff)) = replicate 16 Byte.xff.
Proof.
  destruct header_codec as [Hm Hu]. split.
  - apply (Hm {| h_off := 7; h_size := 3 |} [Byte.x01; Byte.x02; Byte.x03]); simpl; lia.
  - apply (Hu (replicate 16 Byte.xff)). reflexivity.
Defined.

(** * The merge as an interleaving *)

Lemma sublist_reverse {A} (l k : list A) :
  l `sublist_of` k → reverse l `sublist_of` reverse k.
Proof.
  induction 1 as [|x l k _ IH|x l k _ IH]; [done|..]; rewrite ?reverse_cons.
  - by apply sublist_app.
  - by apply sublist_inserts_r.
Qed.

Lemma merge_desc_sublist xs : ∀ ys,
  xs `sublist_of` merge_desc xs ys ∧ ys `sublist_of` merge_desc xs ys.
Proof.
  induction xs as [|x xs IHx]; intros ys.
  - rewrite merge_desc_nil_l. split; [apply sublist_nil_l|done].
  - induction ys as [|y ys IHy].
    + rewrite merge_desc_nil_r. split; [done|apply sublist_nil_l].
    + cbn [merge_desc]. destruct (seg_ge x y).
      * destruct (IHx (y :: ys)) as [H1 H2].
        split; [by apply sublist_skip|by apply sublist_cons].
      * change ((fix merge_aux (ys0 : list seg) : list seg :=
                   match ys0 with
                   | [] => x :: xs
                   | y0 :: ys' =>
                       if seg_ge x y0 then x :: merge_desc xs ys0 else y0 :: merge_aux ys'
                   end) ys) with (merge_desc (x :: xs) ys).
        destruct IHy as [H1 H2].
        split; [by apply sublist_cons|by apply sublist_skip].
Qed.

Lemma merge_asc_sublist m n :
  m `sublist_of` merge_asc m n ∧ n `sublist_of` merge_asc m n.
Proof.
  unfold merge_asc.
  destruct (merge_desc_sublist (reverse m) (reverse n)) as [H1 H2].
  apply sublist_reverse in H1, H2. by rewrite reverse_involutive in H1, H2.
Qed.

(** X2: the merge is an interleaving of its arguments, sorted or not. Every
    frame of either slice is in the result exactly as often as in the two
    slices together, and the frames of each slice keep the order they had:
    each argument is a subsequence of the result. *)
Theorem mergeSegs_interleaves (a b : list seg) :
  mergeSegs a b ≡ₚ a ++ b
  ∧ a `sublist_of` mergeSegs a b
  ∧ b `sublist_of` mergeSegs a b
  ∧ len (mergeSegs a b) = len a + len b.
Proof.
  pose proof (mergeSegs_Permutation a b) as HP.
  split; [done|]. rewrite mergeSegs_merge_asc.
  repeat split.
  - destruct (length a <? length b)%nat; apply merge_asc_sublist.
  - destruct (length a <? length b)%nat; apply merge_asc_sublist.
  - rewrite <- mergeSegs_merge_asc. unfold len.
    rewrite (Permutation_length HP), length_app. lia.
Qed.

(** * Appending to a shard *)

(** X3: a write on an open shard whose file is the log [l] appends one frame
    and nothing else: the file grows by the 16-byte header (the offset as a
    64-bit word, the length) followed by the payload, the bytes already there
    are kept, and the call returns [len(b)] and no error. No offset is
    refused: a negative one is stored as the word [2^64 + off]. *)
Theorem SegFile_WriteAt_appends (sf : SegFile) (l : list frame) (b : list byte) (off : Z) :
  holds sf l → len (encode_log l) + 16 + len b < 2 ^ 63 →
  ∃ sf',
    SegFile_WriteAt sf b off = (sf', len b, None)
    ∧ content (sf_file sf')
      = content (sf_file sf) ++ marshal {| h_off := u64 off; h_size := len b |} ++ b
    ∧ sf_segs sf'
      = sf_segs sf ++ [{| seg_off := u64 off; seg_size := len b;
                          seg_pos := len (content (sf_file sf)) + segHeaderSize;
                          seg_data := [] |}]
    ∧ holds sf' (l ++ [{| fr_off := u64 off; fr_data := b |}]).
Proof.
  intros Hh Hfit. pose proof Hh as (Hopen & Hcont & Hcur & Hsegs).
  destruct (holds_write sf l b off Hh Hfit) as (sf' & HW & Hh').
  exists sf'. split; [done|].
  rewrite SegFile_WriteAt_open in HW; [|done|by rewrite Hcur, Hcont|by rewrite Hcur].
  injection HW as <-. cbn [sf_file sf_segs content].
  split; [done|]. split; [|exact Hh']. by rewrite Hcur, <- Hcont.
Qed.

Lemma SegFile_WriteAt_appends_witness :
  ∃ sf',
    SegFile_WriteAt (empty_shard "m-0") [Byte.x01; Byte.x02] (-1)
    = (sf', len [Byte.x01; Byte.x02], None)
    ∧ content (sf_file sf')
      = content (sf_file (empty_shard "m-0"))
        ++ marshal {| h_off := u64 (-1); h_size := len [Byte.x01; Byte.x02] |}
        ++ [Byte.x01; Byte.x02]
    ∧ sf_segs sf'
      = sf_segs (empty_shard "m-0")
        ++ [{| seg_off := u64 (-1); seg_size := len [Byte.x01; Byte.x02];
               seg_pos := len (content (sf_file (empty_shard "m-0"))) + segHeaderSize;
               seg_data := [] |}]
    ∧ holds sf' ([] ++ [{| fr_off := u64 (-1); fr_data := [Byte.x01; Byte.x02] |}]).
Proof.
  apply (SegFile_WriteAt_appends (empty_shard "m-0") [] [Byte.x01; Byte.x02] (-1)).
  - apply holds_empty_shard.
  - reflexivity.
Defined.

(** * The known size counts the bytes written *)

Lemma run_writes_size name ws : ∀ f logs,
  kept name f logs →
  Forall (λ w, (w_shard w < numFiles)%nat) ws →
  len (encode_log (concat logs)) + len (encode_log (w_frame <$> ws)) < 2 ^ 63 →
  0 ≤ f_size f → f_size f ≤ len (encode_log (concat logs)) →
  ∃ f', run_writes f ws = Ok f' ∧ f_size f' = f_size f + len (written ws).
Proof.
  induction ws as [|w ws IH]; intros f logs Hk Hsh Hfit Hs0 Hs1.
  - exists f. split; [done|]. change (len (written [])) with 0. lia.
  - apply Forall_cons in Hsh as [Hw Hsh].
    rewrite fmap_cons, encode_log_cons, len_app, len_encode_frame in Hfit.
    cbn [w_frame fr_data] in Hfit.
    pose proof (len_nonneg (w_data w)) as Hd.
    pose proof (len_nonneg (encode_log (w_frame <$> ws))) as Hr.
    destruct (kept_write name f logs w Hk Hw) as (f1 & HW & Hk1 & Hsz); [lia|].
    cbn [run_writes]. rewrite HW. cbn [mbind outcome_bind fst].
    assert (Hlen : len (encode_log (concat (log_write logs w)))
                   = len (encode_log (concat logs)) + 16 + len (w_data w)).
    { destruct Hk as (Hst & _ & Hn & _).
      destruct (lookup_lt_is_Some_2 logs (w_shard w)) as [l Hl]; [by rewrite Hn|].
      by apply len_encode_log_write with l. }
    rewrite !i64_small in Hsz by (rewrite ?i64_small; lia).
    destruct (IH f1 (log_write logs w) Hk1 Hsh) as (f' & HR & Hsz'); [lia..|].
    exists f'. split; [done|].
    rewrite Hsz', Hsz. unfold written. rewrite fmap_cons, payload_cons, len_app.
    cbn [w_frame fr_data]. unfold written. lia.
Qed.

(** X4: the known size of a store counts the bytes written, not the extent
    of the data. After any sequence of successful writes on a store opened
    empty, whatever their offsets, [File.size] is the sum of the lengths of
    the payloads: bytes written twice count twice and gaps do not count. *)
Theorem File_size_counts_written (name : string) (ws : list write) :
  Forall (λ w, (w_shard w < numFiles)%nat) ws → writes_fit ws →
  ∃ f, run_writes (fresh name) ws = Ok f ∧ f_size f = len (written ws).
Proof.
  intros Hsh [_ Hfit].
  destruct (run_writes_size name ws (fresh name) [[]; []]) as (f & HR & Hsz);
    [apply kept_fresh|done|done|done|done|].
  exists f. split; [done|]. rewrite Hsz. simpl. lia.
Qed.

Lemma File_size_counts_written_witness :
  ∃ f, run_writes (fresh "m") rewrite_writes = Ok f
       ∧ f_size f = len (written rewrite_writes).
Proof.
  apply (File_size_counts_written "m"%string rewrite_writes).
  - repeat constructor.
  - split; [repeat constructor; by vm_compute|reflexivity].
Defined.

(** * Opening a shard whose file ends in a torn header *)

Lemma os_ReadAt_short f pre tail :
  closed f = false → content f = pre ++ tail → len tail < segHeaderSize →
  os_ReadAt f segHeaderSize (len pre) = (tail, Some EOF).
Proof.
  intros Hc Hcont Ht. pose proof (len_nonneg pre).
  rewrite os_ReadAt_open by (done || unfold segHeaderSize; lia).
  rewrite Hcont, to_nat_len, drop_app_length.
  rewrite take_ge by (unfold len, segHeaderSize in *; lia).
  by replace (len tail <? segHeaderSize) with true by (symmetry; apply Z.ltb_lt; lia).
Qed.

Lemma replay_torn rest : ∀ fuel f pre tail,
  is_open f →
  content (sf_file f) = pre ++ encode_log rest ++ tail →
  len tail < segHeaderSize →
  sf_off f = len pre →
  Forall (λ fr, 0 ≤ fr_off fr < 2 ^ 64) rest →
  len pre + len (encode_log rest) < 2 ^ 63 →
  (length rest < fuel)%nat →
  replay fuel f (sf_off f) =
    Some (inl {| sf_name := sf_name f; sf_file := sf_file f;
                 sf_size := replay_size (sf_size f) rest;
                 sf_off := sf_off f + len (encode_log rest);
                 sf_segs := sf_segs f ++ descriptors (sf_off f) rest |}).
Proof.
  induction rest as [|fr rest IH]; intros fuel f pre tail Hopen Hcont Ht Hoff Hwf Hfit Hfuel;
    (destruct fuel as [|fuel]; [simpl in Hfuel; lia|]);
    pose proof (len_nonneg pre) as Hpre; cbn [replay].
  - change (encode_log []) with (@nil byte) in *. rewrite app_nil_l in Hcont.
    rewrite Hoff at 1. rewrite (os_ReadAt_short _ pre tail) by done.
    change (len (@nil byte)) with 0. rewrite Z.add_0_r, app_nil_r.
    by destruct f.
  - apply Forall_cons in Hwf as [Hfr Hwf].
    rewrite encode_log_cons, len_app, len_encode_frame in Hfit.
    pose proof (len_nonneg (fr_data fr)) as Hd.
    pose proof (len_nonneg (encode_log rest)) as Hr.
    rewrite Hoff at 1.
    rewrite (os_ReadAt_header (sf_file f) pre
               {| h_off := fr_off fr; h_size := len (fr_data fr) |}
               (fr_data fr ++ encode_log rest ++ tail)); [|done|].
    2:{ rewrite Hcont, encode_log_cons. unfold encode_frame. by rewrite <- !app_assoc. }
    rewrite len_marshal, unmarshal_marshal by (simpl; lia).
    cbn [Z.eqb Pos.eqb negb segHeaderSize h_off h_size seg_off seg_size].
    wrap_small.
    set (f' := {| sf_name := sf_name f; sf_file := sf_file f;
                  sf_size := i64 (u64 (fr_off fr + len (fr_data fr)));
                  sf_off := sf_off f + (16 + len (fr_data fr));
                  sf_segs := sf_segs f ++ [{| seg_off := fr_off fr; seg_size := len (fr_data fr);
                                              seg_pos := sf_off f + 16; seg_data := [] |}] |}).
    change (replay fuel _ _) with (replay fuel f' (sf_off f')).
    rewrite (IH fuel f' (pre ++ encode_frame fr) tail); try done.
    + subst f'. cbn [sf_name sf_file sf_size sf_off sf_segs descriptors replay_size foldl].
      rewrite encode_log_cons, len_app, len_encode_frame, <- app_assoc.
      unfold segHeaderSize. simpl.
      replace (sf_off f + (16 + len (fr_data fr))) with (sf_off f + 16 + len (fr_data fr)) by lia.
      by replace (sf_off f + (16 + len (fr_data fr) + len (encode_log rest)))
        with (sf_off f + 16 + len (fr_data fr) + len (encode_log rest)) by lia.
    + subst f'. cbn [sf_file]. rewrite Hcont, encode_log_cons. unfold encode_frame.
      by rewrite <- !app_assoc.
    + subst f'. cbn [sf_off]. rewrite len_app, len_encode_frame. lia.
    + rewrite len_app, len_encode_frame. lia.
    + simpl in Hfuel. lia.
Qed.

Lemma OpenSegFile_torn d name frs tail :
  default [] (d !! name) = encode_log frs ++ tail → len tail < segHeaderSize → wf_log frs →
  OpenSegFile d name =
    Some (inl {| sf_name := name; sf_file := os_OpenFile d name;
                 sf_size := replay_size 0 frs;
                 sf_off := len (encode_log frs);
                 sf_segs := descriptors 0 frs |}).
Proof.
  intros Hd Ht [Hwf Hfit]. unfold OpenSegFile.
  set (f0 := {| sf_name := name; sf_file := os_OpenFile d name; sf_size := 0;
                sf_off := 0; sf_segs := [] |}).
  change 0 with (sf_off f0) at 2.
  rewrite (replay_torn frs _ f0 [] tail); try done.
  unfold os_OpenFile. cbn [content]. rewrite Hd, length_app.
  pose proof (length_encode_log frs). lia.
Qed.

(** X5: opening a shard decodes its log, and a torn header at the end of
    the file is ignored. When the file is the encoding of the frames [frs]
    followed by fewer than 16 further bytes, [OpenSegFile] succeeds with the
    descriptors of [frs] in their order, each with its offset, length and
    storage position; the append cursor is the size of the encoding, so it
    stands on the first torn byte; and the size field is the end of the last
    frame of the log (0 for an empty log). *)
Theorem OpenSegFile_recovers
    (d : gmap string (list byte)) (name : string) (frs : list frame) (tail : list byte) :
  default [] (d !! name) = encode_log frs ++ tail → len tail < segHeaderSize → wf_log frs →
  ∃ sf,
    OpenSegFile d name = Some (inl sf)
    ∧ sf_segs sf = descriptors 0 frs
    ∧ sf_off sf = len (encode_log frs)
    ∧ sf_size sf = match last frs with Some fr => i64 (u64 (fr_end fr)) | None => 0 end
    ∧ is_open sf
    ∧ content (sf_file sf) = encode_log frs ++ tail.
Proof.
  intros Hd Ht Hwf. eexists. split; [by apply OpenSegFile_torn with tail|].
  cbn [sf_segs sf_off sf_size sf_file]. repeat split; try done.
  apply replay_size_last.
Qed.

(** A log of two frames followed by three bytes of a header that was never
    completed, stored under "m-0". *)
Lemma OpenSegFile_recovers_witness :
  ∃ sf,
    OpenSegFile {[ "m-0"%string := encode_log (w_frame <$> two_writes) ++ replicate 3 Byte.x07 ]}
                "m-0"
    = Some (inl sf)
    ∧ sf_segs sf = descriptors 0 (w_frame <$> two_writes)
    ∧ sf_off sf = len (encode_log (w_frame <$> two_writes)).
Proof.
  destruct (OpenSegFile_recovers
              {[ "m-0"%string := encode_log (w_frame <$> two_writes) ++ replicate 3 Byte.x07 ]}
              "m-0"%string (w_frame <$> two_writes) (replicate 3 Byte.x07))
    as (sf & H1 & H2 & H3 & _).
  - reflexivity.
  - reflexivity.
  - split; [repeat constructor; by vm_compute|reflexivity].
  - exists sf. exact (conj H1 (conj H2 H3)).
Defined.

(** * The write after a torn header *)

Lemma write_bytes_over (c tail b : list byte) :
  (length tail ≤ length b)%nat → write_bytes (c ++ tail) (length c) b = c ++ b.
Proof.
  intros Hl. unfold write_bytes.
  rewrite take_app_length, length_app.
  replace (length c - (length c + length tail))%nat with 0%nat by lia.
  rewrite drop_ge by (rewrite length_app; lia).
  by rewrite app_nil_r.
Qed.

(** X6: the first write after a torn header repairs the log. On a shard
    opened from the encoding of [frs] followed by fewer than 16 torn bytes,
    a write puts its header over the torn bytes and its payload behind it:
    the call returns [len(b)] and no error, and the file is the encoding of
    [frs] followed by the new frame, with nothing left of the torn bytes. *)
Theorem write_after_torn_header
    (d : gmap string (list byte)) (name : string) (frs : list frame) (tail : list byte)
    (b : list byte) (off : Z) :
  default [] (d !! name) = encode_log frs ++ tail → len tail < segHeaderSize → wf_log frs →
  len (encode_log frs) + 16 + len b < 2 ^ 63 →
  ∃ sf sf',
    OpenSegFile d name = Some (inl sf)
    ∧ SegFile_WriteAt sf b off = (sf', len b, None)
    ∧ holds sf' (frs ++ [{| fr_off := u64 off; fr_data := b |}]).
Proof.
  intros Hd Ht Hwf Hfit. eexists _, _.
  split; [by apply OpenSegFile_torn with tail|].
  pose proof (len_nonneg (encode_log frs)) as H0. pose proof (len_nonneg b) as Hb.
  unfold SegFile_WriteAt. cbn [sf_off sf_file sf_name sf_size sf_segs seg_off seg_size seg_pos].
  unfold segHeaderSize. wrap_small.
  set (hdr := marshal {| h_off := u64 off; h_size := len b |}).
  assert (Hw1 : os_WriteAt (os_OpenFile d name) hdr (len (encode_log frs))
                = ({| fname := name; content := encode_log frs ++ hdr; closed := false |},
                   len hdr, None)).
  { unfold os_WriteAt. cbn [closed fname content os_OpenFile].
    replace (len (encode_log frs) <? 0) with false by (symmetry; apply Z.ltb_ge; lia).
    subst hdr. rewrite len_marshal. cbn [Z.leb Z.compare].
    rewrite Hd, to_nat_len, write_bytes_over; [done|].
    rewrite length_marshal. unfold len, segHeaderSize in Ht. lia. }
  rewrite Hw1.
  rewrite os_WriteAt_end; [|done|].
  2:{ cbn [content]. subst hdr. rewrite len_app, len_marshal. lia. }
  cbn [fname content closed]. split; [reflexivity|].
  unfold holds, is_open. cbn [sf_file sf_off sf_segs content closed].
  rewrite encode_log_app, descriptors_app, len_app, <- app_assoc.
  cbn [encode_log fmap list_fmap concat descriptors fr_off fr_data].
  rewrite app_nil_r, len_encode_frame. cbn [fr_data].
  unfold encode_frame. cbn [fr_off fr_data]. unfold segHeaderSize.
  repeat split; try done; try lia.
Qed.

Lemma write_after_torn_header_witness :
  ∃ sf sf',
    OpenSegFile {[ "m-0"%string := encode_log one_frame_log ++ replicate 15 Byte.x07 ]} "m-0"
    = Some (inl sf)
    ∧ SegFile_WriteAt sf [] 1 = (sf', len (@nil byte), None)
    ∧ holds sf' (one_frame_log ++ [{| fr_off := u64 1; fr_data := [] |}]).
Proof.
  apply (write_after_torn_header
           {[ "m-0"%string := encode_log one_frame_log ++ replicate 15 Byte.x07 ]}
           "m-0"%string one_frame_log (replicate 15 Byte.x07) [] 1).
  - reflexivity.
  - reflexivity.
  - split; [repeat constructor; by vm_compute|reflexivity].
  - reflexivity.
Defined.

(** * Headers whose length field is not a length *)

Lemma i64_high s : 2 ^ 63 ≤ s < 2 ^ 64 → i64 s = s - 2 ^ 64.
Proof.
  intros Hs. unfold i64.
  replace (s + 2 ^ 63) with ((s - 2 ^ 63) + 1 * 2 ^ 64) by lia.
  rewrite Z.mod_add by lia. rewrite Z.mod_small by lia. lia.
Qed.

Lemma replay_first_header fuel d name o s rest :
  default [] (d !! name) = marshal {| h_off := o; h_size := s |} ++ rest →
  0 ≤ o < 2 ^ 64 → 0 ≤ s < 2 ^ 64 →
  ∀ f, sf_file f = os_OpenFile d name → sf_off f = 0 →
  replay (S fuel) f 0 =
    replay fuel
      {| sf_name := sf_name f; sf_file := sf_file f;
         sf_size := i64 (u64 (o + s));
         sf_off := i64 (0 + i64 (i64 segHeaderSize + i64 s));
         sf_segs := sf_segs f ++ [{| seg_off := o; seg_size := s;
                                     seg_pos := u64 (u64 0 + u64 segHeaderSize);
                                     seg_data := [] |}] |}
      (i64 (i64 (0 + i64 (i64 segHeaderSize + i64 s)))).
Proof.
  intros Hd Ho Hs f Hf Hoff. cbn [replay].
  change 0 with (len (@nil byte)) at 1.
  rewrite (os_ReadAt_header (sf_file f) [] {| h_off := o; h_size := s |} rest);
    [|by rewrite Hf|by rewrite Hf; cbn [os_OpenFile content]; rewrite Hd].
  rewrite len_marshal, unmarshal_marshal by done.
  cbn [Z.eqb Pos.eqb negb segHeaderSize h_off h_size seg_off seg_size].
  by rewrite Hoff.
Qed.

Lemma replay_negative fuel f off :
  off < 0 → replay (S fuel) f off = Some (inr ErrNegativeOffset).
Proof.
  intros Hoff. cbn [replay]. unfold os_ReadAt.
  by replace (off <? 0) with true by (symmetry; apply Z.ltb_lt; lia).
Qed.

(** X7: a first header whose length field has its top bit set and is below
    [2^64 - 16] makes the open fail. The cursor is advanced by 16 plus the
    length taken as a signed number, which puts it below zero; the next read
    of a header is refused for its negative offset, and [OpenSegFile], and
    [OpenFile] when the shard is the first of a store, return that error. *)
Theorem OpenSegFile_negative_cursor
    (d : gmap string (list byte)) (name : string) (o s : Z) (rest : list byte) :
  default [] (d !! shard_name name 0) = marshal {| h_off := o; h_size := s |} ++ rest →
  0 ≤ o < 2 ^ 64 → 2 ^ 63 ≤ s < 2 ^ 64 - 16 →
  OpenSegFile d (shard_name name 0) = Some (inr ErrNegativeOffset)
  ∧ OpenFile d name = Some (inr ErrNegativeOffset).
Proof.
  intros Hd Ho Hs.
  assert (H1 : OpenSegFile d (shard_name name 0) = Some (inr ErrNegativeOffset)).
  { unfold OpenSegFile. cbn [os_OpenFile content].
    rewrite Hd, length_app, length_marshal.
    change (S (16 + length rest)) with (S (S (15 + length rest))).
    rewrite (replay_first_header _ d (shard_name name 0) o s rest Hd Ho) by (done || lia).
    apply replay_negative.
    unfold segHeaderSize. rewrite (i64_high s) by lia. wrap_small. lia. }
  split; [done|].
  unfold OpenFile. change (seq 0 numFiles) with [0%nat; 1%nat]. cbn [open_shards].
  by rewrite H1.
Qed.

Lemma OpenSegFile_negative_cursor_witness :
  OpenFile {[ shard_name "m" 0 := marshal {| h_off := 0; h_size := 2 ^ 63 |} ++ [] ]} "m"
  = Some (inr ErrNegativeOffset).
Proof.
  apply (OpenSegFile_negative_cursor
           {[ shard_name "m" 0 := marshal {| h_off := 0; h_size := 2 ^ 63 |} ++ [] ]}
           "m"%string 0 (2 ^ 63) []).
  - reflexivity.
  - lia.
  - lia.
Defined.

Lemma replay_stuck d name o rest :
  default [] (d !! name) = marshal {| h_off := o; h_size := 2 ^ 64 - 16 |} ++ rest →
  0 ≤ o < 2 ^ 64 →
  ∀ fuel f, sf_file f = os_OpenFile d name → sf_off f = 0 → replay fuel f 0 = None.
Proof.
  intros Hd Ho. induction fuel as [|fuel IH]; intros f Hf Hoff; [done|].
  rewrite (replay_first_header fuel d name o (2 ^ 64 - 16) rest Hd Ho) by (done || lia).
  change (i64 (0 + i64 (i64 segHeaderSize + i64 (2 ^ 64 - 16)))) with 0.
  change (i64 0) with 0. by apply IH.
Qed.

(** X8: a first header whose length field is [2^64 - 16] keeps the open from
    returning. 16 plus that length, taken as a signed number, is 0: every
    round of the replay loop records a descriptor and leaves the cursor on
    the same header, so no number of rounds ends the loop, whatever the
    other bytes of the file are. *)
Theorem OpenSegFile_never_returns
    (d : gmap string (list byte)) (name : string) (o : Z) (rest : list byte) :
  default [] (d !! name) = marshal {| h_off := o; h_size := 2 ^ 64 - 16 |} ++ rest →
  0 ≤ o < 2 ^ 64 →
  (∀ fuel, replay fuel (opened d name) 0 = None) ∧ OpenSegFile d name = None.
Proof.
  intros Hd Ho. split.
  - intros fuel. by apply (replay_stuck d name o rest).
  - unfold OpenSegFile. by apply (replay_stuck d name o rest).
Qed.

Lemma OpenSegFile_never_returns_witness :
  replay 1000 (opened {[ "m-0"%string :=
                          marshal {| h_off := 5; h_size := 2 ^ 64 - 16 |} ++ [Byte.x01] ]}
                      "m-0") 0
  = None.
Proof.
  destruct (OpenSegFile_never_returns
              {[ "m-0"%string := marshal {| h_off := 5; h_size := 2 ^ 64 - 16 |} ++ [Byte.x01] ]}
              "m-0"%string 5 [Byte.x01]) as [H _].
  - reflexivity.
  - lia.
  - exact (H 1000%nat).
Defined.

(** * Stores without files *)

Lemma os_OpenFile_absent (d : gmap string (list byte)) nm :
  d !! nm = None → os_OpenFile d nm = os_OpenFile ∅ nm.
Proof. intros H. unfold os_OpenFile. by rewrite H, lookup_empty. Qed.

Lemma OpenSegFile_absent (d : gmap string (list byte)) nm :
  d !! nm = None → OpenSegFile d nm = Some (inl (empty_shard nm)).
Proof.
  intros H. unfold OpenSegFile. rewrite (os_OpenFile_absent d nm H). reflexivity.
Qed.

Lemma OpenFile_absent (d : gmap string (list byte)) name :
  d !! shard_name name 0 = None → d !! shard_name name 1 = None →
  OpenFile d name = Some (inl (fresh name)).
Proof.
  intros H0 H1. unfold OpenFile. change (seq 0 numFiles) with [0%nat; 1%nat].
  cbn [open_shards]. rewrite (OpenSegFile_absent d _ H0), (OpenSegFile_absent d _ H1).
  reflexivity.
Qed.

Lemma File_ReadAt_fresh name b off :
  File_ReadAt (fresh name) b off = Ok (b, 0, if 0 <? off then Some EOF else None).
Proof.
  unfold File_ReadAt. cbn [fresh f_size]. destruct (0 <? off); reflexivity.
Qed.

(** X9: a store none of whose shard files exists opens as an empty store of
    size 0, and every read on it leaves the buffer as it was and returns no
    byte: with [io.EOF] when the offset is above 0, and with no error when
    the offset is 0 or below, negative offsets included. *)
Theorem empty_store_reads
    (d : gmap string (list byte)) (name : string) (b : list byte) (off : Z) :
  d !! shard_name name 0 = None → d !! shard_name name 1 = None →
  ∃ f, OpenFile d name = Some (inl f)
       ∧ f_size f = 0
       ∧ Forall (λ sf, sf_segs sf = [] ∧ sf_off sf = 0) (f_files f)
       ∧ File_ReadAt f b off = Ok (b, 0, if 0 <? off then Some EOF else None).
Proof.
  intros H0 H1. exists (fresh name).
  split; [by apply OpenFile_absent|]. split; [done|].
  split; [by repeat constructor|]. apply File_ReadAt_fresh.
Qed.

Lemma empty_store_reads_witness :
  ∃ f, OpenFile ∅ "m" = Some (inl f)
       ∧ f_size f = 0
       ∧ Forall (λ sf, sf_segs sf = [] ∧ sf_off sf = 0) (f_files f)
       ∧ File_ReadAt f [Byte.x09] (-3) = Ok ([Byte.x09], 0, if 0 <? -3 then Some EOF else None).
Proof.
  apply (empty_store_reads ∅ "m"%string [Byte.x09] (-3)); apply lookup_empty.
Defined.

(** * Removing a store *)

Lemma os_Remove_present (d : gmap string (list byte)) nm :
  is_Some (d !! nm) → os_Remove d nm = (delete nm d, None).
Proof. intros [c Hc]. unfold os_Remove. by rewrite Hc. Qed.

Lemma os_Remove_absent (d : gmap string (list byte)) nm :
  d !! nm = None → os_Remove d nm = (d, Some {| pe_op := "remove"; pe_path := nm |}).
Proof. intros Hc. unfold os_Remove. by rewrite Hc. Qed.

Lemma Remove_present (d : gmap string (list byte)) name :
  is_Some (d !! shard_name name 0) → is_Some (d !! shard_name name 1) →
  Remove d name = (delete (shard_name name 1) (delete (shard_name name 0) d), None).
Proof.
  intros H0 H1. unfold Remove. change (seq 0 numFiles) with [0%nat; 1%nat].
  cbn [remove_loop]. rewrite (os_Remove_present d _ H0).
  rewrite os_Remove_present; [done|].
  rewrite lookup_delete_ne; [done|]. apply shard_names_differ.
Qed.

(** X10: removing a store both of whose shard files exist deletes the two
    files and nothing else and returns no error. Opening the name afterwards
    gives an empty store, and a second [Remove] fails on the first shard. *)
Theorem Remove_deletes_store (d : gmap string (list byte)) (name : string) :
  is_Some (d !! shard_name name 0) → is_Some (d !! shard_name name 1) →
  (Remove d name).2 = None
  ∧ (Remove d name).1 !! shard_name name 0 = None
  ∧ (Remove d name).1 !! shard_name name 1 = None
  ∧ (∀ k, k ≠ shard_name name 0 → k ≠ shard_name name 1 → (Remove d name).1 !! k = d !! k)
  ∧ OpenFile (Remove d name).1 name = Some (inl (fresh name))
  ∧ Remove (Remove d name).1 name
    = ((Remove d name).1, Some {| pe_op := "remove"; pe_path := shard_name name 0 |}).
Proof.
  intros H0 H1. rewrite (Remove_present d name H0 H1). cbn [fst snd].
  pose proof (shard_names_differ name) as Hne.
  assert (Ha : delete (shard_name name 1) (delete (shard_name name 0) d)
               !! shard_name name 0 = None).
  { rewrite lookup_delete_ne by done. apply lookup_delete_eq. }
  assert (Hb : delete (shard_name name 1) (delete (shard_name name 0) d)
               !! shard_name name 1 = None) by apply lookup_delete_eq.
  split; [done|]. split; [done|]. split; [done|]. split; [|split].
  - intros k Hk0 Hk1. by rewrite !lookup_delete_ne.
  - by apply OpenFile_absent.
  - unfold Remove. change (seq 0 numFiles) with [0%nat; 1%nat]. cbn [remove_loop].
    by rewrite (os_Remove_absent _ _ Ha).
Qed.

Lemma Remove_deletes_store_witness :
  (Remove (File_persist (store_after two_writes) ∅) "m").2 = None
  ∧ OpenFile (Remove (File_persist (store_after two_writes) ∅) "m").1 "m"
    = Some (inl (fresh "m")).
Proof.
  destruct (Remove_deletes_store (File_persist (store_after two_writes) ∅) "m"%string)
    as (H1 & _ & _ & _ & H2 & _).
  - by eexists.
  - by eexists.
  - exact (conj H1 H2).
Defined.

(** X11: [Remove] returns at the first shard file that is missing. When the
    first is missing nothing is removed, the second file included; when only
    the second is missing the first is removed all the same. The error
    names the operation and the path of the missing file. *)
Theorem Remove_stops_at_missing_shard (d : gmap string (list byte)) (name : string) :
  (d !! shard_name name 0 = None →
   Remove d name = (d, Some {| pe_op := "remove"; pe_path := shard_name name 0 |}))
  ∧ (is_Some (d !! shard_name name 0) → d !! shard_name name 1 = None →
     Remove d name = (delete (shard_name name 0) d,
                      Some {| pe_op := "remove"; pe_path := shard_name name 1 |})).
Proof.
  unfold Remove. change (seq 0 numFiles) with [0%nat; 1%nat]. cbn [remove_loop]. split.
  - intros H0. by rewrite (os_Remove_absent d _ H0).
  - intros H0 H1. rewrite (os_Remove_present d _ H0).
    rewrite os_Remove_absent; [done|].
    rewrite lookup_delete_ne; [done|]. apply shard_names_differ.
Qed.

Lemma Remove_stops_at_missing_shard_witness :
  Remove {[ shard_name "m" 1 := [Byte.x01] ]} "m"
  = ({[ shard_name "m" 1 := [Byte.x01] ]},
     Some {| pe_op := "remove"; pe_path := shard_name "m" 0 |})
  ∧ Remove {[ shard_name "m" 0 := [Byte.x01] ]} "m"
    = (delete (shard_name "m" 0) {[ shard_name "m" 0 := [Byte.x01] ]},
       Some {| pe_op := "remove"; pe_path := shard_name "m" 1 |}).
Proof.
  split.
  - apply (Remove_stops_at_missing_shard {[ shard_name "m" 1 := [Byte.x01] ]} "m"%string).
    reflexivity.
  - apply (Remove_stops_at_missing_shard {[ shard_name "m" 0 := [Byte.x01] ]} "m"%string).
    + by eexists.
    + reflexivity.
Defined.

(** * What a window query returns, whatever the order of the frames *)

Lemma os_ReadAt_length f n off : (length (os_ReadAt f n off).1 ≤ Z.to_nat n)%nat.
Proof.
  unfold os_ReadAt.
  destruct (off <? 0); [simpl; lia|]. destruct (n <=? 0); [simpl; lia|].
  destruct (closed f); [simpl; lia|]. cbn [fst]. rewrite length_take. lia.
Qed.

Lemma length_overlay got b :
  (length got ≤ length b)%nat → length (overlay got b) = length b.
Proof. intros H. unfold overlay. rewrite length_app, length_drop. lia. Qed.

Lemma len_load_data file s : 0 ≤ seg_size s → len (seg_data (load file s)) = seg_size s.
Proof.
  intros Hs. unfold load, len. cbn [seg_data].
  rewrite length_overlay; rewrite length_replicate; [lia|apply os_ReadAt_length].
Qed.

Lemma descriptor_loads file (l : list seg) :
  descriptor <$> (load file <$> l) = descriptor <$> l.
Proof. induction l as [|s l IH]; [done|]. by rewrite !fmap_cons, IH, descriptor_load. Qed.

Lemma scan_sound file off size l :
  Forall seg_ok l → 0 ≤ off → 0 ≤ size → off + size < 2 ^ 63 →
  ∀ acc err, ∃ l' err',
    scan file off size l acc err = Ok (acc ++ (load file <$> l'), err')
    ∧ l' `sublist_of` l
    ∧ Forall (λ s, off < seg_off s + seg_size s ∧ seg_off s < off + size) l'.
Proof.
  intros Hok Hoff Hsize Hfit.
  induction l as [|s l IH]; intros acc err.
  { exists [], err. by rewrite app_nil_r. }
  apply Forall_cons in Hok as [Hsok Hok]. specialize (IH Hok). cbn [scan].
  destruct Hsok as (Ho & Hz & He & Hp).
  rewrite (u64_small (seg_off s + seg_size s)) by lia.
  rewrite (i64_small (seg_off s + seg_size s)) by lia.
  rewrite (i64_small (off + size)) by lia.
  rewrite (i64_small (seg_off s)) by lia.
  destruct (seg_off s + seg_size s <=? off) eqn:E1.
  { destruct (IH acc err) as (l' & err' & HS & Hsub & Hall).
    exists l', err'. split; [done|]. split; [by apply sublist_cons|done]. }
  apply Z.leb_gt in E1.
  destruct (off + size <=? seg_off s) eqn:E2.
  { exists [], err. rewrite app_nil_r. split; [done|]. split; [apply sublist_nil_l|done]. }
  apply Z.leb_gt in E2.
  replace (maxAlloc <? seg_size s) with false by (symmetry; apply Z.ltb_ge; lia).
  rewrite len_replicate by lia.
  destruct (os_ReadAt file (seg_size s) (i64 (seg_pos s))) as [got e] eqn:Er.
  destruct (IH (acc ++ [{| seg_off := seg_off s; seg_size := seg_size s; seg_pos := seg_pos s;
                           seg_data := overlay got
                                         (replicate (Z.to_nat (seg_size s)) Byte.x00) |}]) e)
    as (l' & err' & HS & Hsub & Hall).
  exists (s :: l'), err'. rewrite HS, fmap_cons, <- app_assoc. unfold load at 2.
  rewrite Er. split; [done|]. split; [by apply sublist_skip|].
  constructor; [lia|done].
Qed.

(** X12: a window query never invents a frame and never returns one that
    misses the window, whether or not the frames of the shard are in order.
    On a shard whose descriptors have offsets from 0 on, sizes of at most
    [2^48] bytes (what can be allocated), and ends and storage positions
    below [2^63], the query of a window whose offset and length are at
    least 0 and whose end is below [2^63] succeeds; the frames it returns
    are frames of the shard, in the order of the log; each of them ends
    after the start of the window and starts before its end; and each
    carries a payload buffer of exactly its length. *)
Theorem SegFile_ReadAt_sound (f : SegFile) (off size : Z) :
  Forall seg_ok (sf_segs f) → 0 ≤ off → 0 ≤ size → off + size < 2 ^ 63 →
  ∃ segs err,
    SegFile_ReadAt f off size = Ok (segs, err)
    ∧ descriptor <$> segs `sublist_of` descriptor <$> sf_segs f
    ∧ Forall (λ s, off < seg_off s + seg_size s ∧ seg_off s < off + size) segs
    ∧ Forall (λ s, len (seg_data s) = seg_size s) segs.
Proof.
  intros Hok Hoff Hsize Hfit. unfold SegFile_ReadAt.
  set (start := Z.to_nat _).
  destruct (scan_sound (sf_file f) off size (drop start (sf_segs f))
              (Forall_drop _ _ _ Hok) Hoff Hsize Hfit [] None)
    as (l' & err' & HS & Hsub & Hall).
  exists (load (sf_file f) <$> l'), err'. split; [done|].
  assert (Hl' : l' `sublist_of` sf_segs f).
  { etrans; [exact Hsub|apply sublist_drop]. }
  split; [|split].
  - rewrite descriptor_loads. by apply fmap_sublist.
  - apply Forall_fmap. eapply Forall_impl; [exact Hall|]. by intros s Hs.
  - apply Forall_fmap, Forall_forall. intros s Hs.
    unfold compose. rewrite len_load_data; [done|].
    assert (Hin : s ∈ sf_segs f) by (by apply (elem_of_sublist l')).
    rewrite Forall_forall in Hok. destruct (Hok s Hin) as (_ & Hz & _). lia.
Qed.

Lemma SegFile_ReadAt_sound_witness :
  ∃ segs err,
    SegFile_ReadAt overlap_shard 12 1 = Ok (segs, err)
    ∧ descriptor <$> segs `sublist_of` descriptor <$> sf_segs overlap_shard
    ∧ Forall (λ s, 12 < seg_off s + seg_size s ∧ seg_off s < 12 + 1) segs
    ∧ Forall (λ s, len (seg_data s) = seg_size s) segs.
Proof.
  apply (SegFile_ReadAt_sound overlap_shard 12 1).
  - eval_segs overlap_shard. repeat constructor; simpl; unfold maxAlloc; lia.
  - lia.
  - lia.
  - lia.
Defined.

(** * The buffer of a read *)

Lemma copied_shape (b src : list byte) (n num : Z) :
  0 ≤ n → 0 ≤ num → n + num ≤ len b → num ≤ len src →
  let b' := take (Z.to_nat n) b ++ take (Z.to_nat num) src ++ drop (Z.to_nat (n + num)) b in
  len b' = len b
  ∧ take (Z.to_nat n) b' = take (Z.to_nat n) b
  ∧ ∀ k, n + num ≤ k → drop (Z.to_nat k) b' = drop (Z.to_nat k) b.
Proof.
  intros Hn Hnum Hb Hsrc b'. unfold len in *.
  assert (H1 : length (take (Z.to_nat n) b) = Z.to_nat n) by (rewrite length_take; lia).
  assert (H2 : length (take (Z.to_nat num) src) = Z.to_nat num) by (rewrite length_take; lia).
  split; [|split].
  - subst b'. rewrite !length_app, H1, H2, length_drop. lia.
  - subst b'. rewrite take_app_length'; done.
  - intros k Hk. subst b'. rewrite app_assoc.
    rewrite drop_app_ge by (rewrite length_app, H1, H2; lia).
    rewrite length_app, H1, H2, drop_drop. f_equal. lia.
Qed.

Lemma copy_loop_frame segs : ∀ b off n b' n',
  0 ≤ n ≤ len b → copy_loop segs b off n = Ok (b', n') →
  len b' = len b ∧ n ≤ n' ≤ len b
  ∧ drop (Z.to_nat n') b' = drop (Z.to_nat n') b
  ∧ take (Z.to_nat n) b' = take (Z.to_nat n) b.
Proof.
  induction segs as [|s segs IH]; intros b off n b' n' Hn HC; cbn [copy_loop] in HC.
  { injection HC as <- <-. repeat split; lia. }
  destruct (n <? len b) eqn:E; [|injection HC as <- <-; repeat split; lia].
  apply Z.ltb_lt in E.
  set (segOff := i64 (off - i64 (seg_off s))) in HC.
  set (segRemain := i64 (u64 (seg_size s - u64 segOff))) in HC.
  set (readSize := if len b - n <? segRemain then len b - n else segRemain) in HC.
  unfold slice_from, slice in HC.
  destruct ((0 <=? n) && (n <=? n + readSize) && (n + readSize <=? len b)) eqn:E1;
    [|discriminate].
  cbn [mbind outcome_bind] in HC.
  destruct ((0 <=? segOff) && (segOff <=? len (seg_data s))
            && (len (seg_data s) <=? len (seg_data s))) eqn:E2; [|discriminate].
  cbn [mbind outcome_bind] in HC.
  apply andb_prop in E1 as [E1 E1c]. apply andb_prop in E1 as [E1a E1b].
  apply andb_prop in E2 as [E2 _]. apply andb_prop in E2 as [E2a E2b].
  apply Z.leb_le in E1a, E1b, E1c, E2a, E2b.
  set (dst := take (Z.to_nat (n + readSize - n)) (drop (Z.to_nat n) b)) in HC.
  set (src := take (Z.to_nat (len (seg_data s) - segOff))
                (drop (Z.to_nat segOff) (seg_data s))) in HC.
  set (num := Z.min (len dst) (len src)) in HC.
  assert (Hdst : len dst = readSize).
  { subst dst. unfold len in *. rewrite length_take, length_drop. lia. }
  assert (Hnum : 0 ≤ num ∧ num ≤ readSize ∧ num ≤ len src).
  { subst num. pose proof (len_nonneg src). lia. }
  destruct (copied_shape b src n num) as (HL & HT & HD); [lia..|].
  cbv zeta in HL, HT, HD.
  apply IH in HC as (H1 & H2 & H3 & H4); [|rewrite HL; lia].
  rewrite HL in H1, H2. split; [done|]. split; [lia|]. split.
  - rewrite H3. apply HD. lia.
  - assert (HH : ∀ l : list byte,
              take (Z.to_nat n) l = take (Z.to_nat n) (take (Z.to_nat (n + num)) l)).
    { intros l. rewrite take_take. f_equal. lia. }
    rewrite <- HT, (HH b'), H4. symmetry. apply HH.
Qed.

Lemma gather_not_EOF fs : ∀ off n acc e,
  gather fs off n acc = Ok (inr e) → e ≠ EOF.
Proof.
  induction fs as [|sf fs IH]; intros off n acc e HG; cbn [gather] in HG; [done|].
  destruct (SegFile_ReadAt sf off n) as [[segs err]|]; [|done].
  cbn [mbind outcome_bind snd fst] in HG.
  destruct err as [[]|]; try (by eapply IH); by injection HG as <-.
Qed.

(** X13: every read that returns leaves the buffer in order. The length of
    the buffer is unchanged, the count [n] is between 0 and that length, and
    the bytes of the buffer from index [n] on are the bytes it held before
    the call. When the call returns an error, [n] is 0 and no byte of the
    buffer has changed; and the error is [io.EOF] exactly when the offset is
    above the known size: the end-of-data report of a shard never reaches
    the caller. *)
Theorem File_ReadAt_buffer
    (f : File) (b : list byte) (off : Z) (b' : list byte) (n : Z) (err : option error) :
  File_ReadAt f b off = Ok (b', n, err) →
  len b' = len b
  ∧ 0 ≤ n ≤ len b
  ∧ drop (Z.to_nat n) b' = drop (Z.to_nat n) b
  ∧ (err ≠ None → n = 0 ∧ b' = b)
  ∧ (err = Some EOF ↔ f_size f < off).
Proof.
  unfold File_ReadAt. pose proof (len_nonneg b) as Hb.
  destruct (f_size f <? off) eqn:E.
  { apply Z.ltb_lt in E. intros [= <- <- <-]. repeat split; try done; lia. }
  apply Z.ltb_ge in E.
  destruct (gather (f_files f) off (len b) []) as [[segs|e]|] eqn:HG; [| |done];
    cbn [mbind outcome_bind].
  - destruct (copy_loop segs b off 0) as [[b1 n1]|] eqn:HC; [|done].
    cbn [mbind outcome_bind fst snd]. intros [= <- <- <-].
    apply copy_loop_frame in HC as (H1 & H2 & H3 & _); [|lia].
    repeat split; try done; try lia.
  - intros [= <- <- <-]. apply gather_not_EOF in HG.
    repeat split; try done; try lia. by intros [= ->].
Qed.

Lemma File_ReadAt_buffer_witness :
  len [Byte.x03; Byte.x04; Byte.x05; Byte.x06; Byte.x00; Byte.x00] = len (replicate 6 Byte.x00)
  ∧ 0 ≤ 4 ≤ len (replicate 6 Byte.x00)
  ∧ drop (Z.to_nat 4) [Byte.x03; Byte.x04; Byte.x05; Byte.x06; Byte.x00; Byte.x00]
    = drop (Z.to_nat 4) (replicate 6 Byte.x00)
  ∧ (@None error ≠ None →
     4 = 0 ∧ [Byte.x03; Byte.x04; Byte.x05; Byte.x06; Byte.x00; Byte.x00] = replicate 6 Byte.x00)
  ∧ (@None error = Some EOF ↔ f_size (store_after two_writes) < 2).
Proof.
  apply (File_ReadAt_buffer (store_after two_writes) (replicate 6 Byte.x00) 2
           [Byte.x03; Byte.x04; Byte.x05; Byte.x06; Byte.x00; Byte.x00] 4 None).
  vm_compute. reflexivity.
Defined.

(** * Closing twice *)

Lemma shut_open sf :
  is_open sf →
  shut sf = {| sf_name := sf_name sf;
               sf_file := {| fname := fname (sf_file sf); content := content (sf_file sf);
                             closed := true |};
               sf_size := sf_size sf; sf_off := sf_off sf; sf_segs := sf_segs sf |}.
Proof. intros Ho. unfold shut, SegFile_Close, os_Close. by rewrite Ho. Qed.

Lemma shut_closed sf : is_open sf → is_closed (shut sf).
Proof. intros Ho. by rewrite shut_open. Qed.

(** X14: closing a store whose shards are all open succeeds and closes every
    shard without touching its bytes, its descriptors or its cursor; a second
    [Close] changes nothing and returns the error of a handle that is closed
    already. *)
Theorem File_Close_twice (f : File) :
  Forall is_open (f_files f) → f_files f ≠ [] →
  (File_Close f).2 = None
  ∧ Forall2 (λ sf sf', is_closed sf'
                       ∧ content (sf_file sf') = content (sf_file sf)
                       ∧ sf_segs sf' = sf_segs sf ∧ sf_off sf' = sf_off sf)
            (f_files f) (f_files (File_Close f).1)
  ∧ f_size (File_Close f).1 = f_size f
  ∧ File_Close (File_Close f).1 = ((File_Close f).1, Some ErrClosed).
Proof.
  intros Hopen Hne.
  assert (HF : File_Close f = ({| f_files := shut <$> f_files f; f_size := f_size f |}, None)).
  { unfold File_Close. by rewrite (close_loop_open _ Hopen). }
  rewrite HF. cbn [fst snd f_files f_size].
  split; [done|]. split; [|split; [done|]].
  - apply Forall2_fmap_r, Forall_Forall2_diag.
    eapply Forall_impl; [exact Hopen|]. intros sf Ho.
    unfold compose. by rewrite shut_open.
  - unfold File_Close. cbn [f_files f_size].
    destruct (f_files f) as [|sf fs]; [done|].
    apply Forall_cons in Hopen as [Ho _].
    rewrite fmap_cons. cbn [close_loop].
    by rewrite (SegFile_Close_closed _ (shut_closed sf Ho)).
Qed.

Lemma File_Close_twice_witness :
  (File_Close (store_after two_writes)).2 = None
  ∧ File_Close (File_Close (store_after two_writes)).1
    = ((File_Close (store_after two_writes)).1, Some ErrClosed).
Proof.
  destruct (File_Close_twice (store_after two_writes)) as (H1 & _ & _ & H2).
  - eval_files (store_after two_writes). by repeat constructor.
  - eval_files (store_after two_writes). done.
  - exact (conj H1 H2).
Defined.

(** * Reading a closed store *)

Lemma scan_err_closed file (l : list seg) e :
  closed file = true →
  Forall (λ s, 0 < seg_size s ∧ 0 ≤ i64 (seg_pos s)) l → l ≠ [] →
  scan_err file e l = Some ErrClosed.
Proof.
  intros Hc Hall Hne. destruct l as [|x l _] using rev_ind; [done|].
  apply Forall_app in Hall as [_ Hx]. apply Forall_cons in Hx as [[Hs Hp] _].
  unfold scan_err. rewrite foldl_app. cbn [foldl]. unfold os_ReadAt.
  replace (i64 (seg_pos x) <? 0) with false by (symmetry; apply Z.ltb_ge; lia).
  replace (seg_size x <=? 0) with false by (symmetry; apply Z.leb_gt; lia).
  by rewrite Hc.
Qed.

Lemma contig_covers fs : ∀ o off,
  contig o fs → o ≤ off < o + len (payload fs) →
  ∃ fr, fr ∈ fs ∧ fr_off fr ≤ off < fr_end fr.
Proof.
  induction fs as [|fr fs IH]; intros o off Hc Hoff.
  { change (len (payload [])) with 0 in Hoff. lia. }
  destruct Hc as [Ho Hc]. rewrite payload_cons, len_app in Hoff.
  destruct (decide (off < o + len (fr_data fr))) as [Hlt|Hge].
  - exists fr. split; [by left|]. unfold fr_end. lia.
  - destruct (IH (o + len (fr_data fr)) off Hc) as (fr' & Hin & Hb); [lia|].
    exists fr'. split; [by right|done].
Qed.

Lemma hit_in_descriptors l : ∀ c fr off n,
  fr ∈ l → fr_off fr ≤ off < fr_end fr → 0 < n →
  filter (hits off n) (descriptors c l) ≠ [].
Proof.
  induction l as [|fr0 l IH]; intros c fr off n Hin Hb Hn; [by apply elem_of_nil in Hin|].
  cbn [descriptors]. rewrite filter_cons. destruct (decide _) as [|Hmiss]; [done|].
  apply elem_of_cons in Hin as [->|Hin]; [|by eapply IH].
  exfalso. apply Hmiss. apply hits_spec. unfold fr_end in Hb. simpl. lia.
Qed.

Lemma descriptors_positive l : ∀ c s,
  Forall (λ fr, 0 < len (fr_data fr)) l → s ∈ descriptors c l → 0 < seg_size s.
Proof.
  induction l as [|fr l IH]; intros c s Hpos Hs; [by apply elem_of_nil in Hs|].
  apply Forall_cons in Hpos as [Hfr Hpos]. cbn [descriptors] in Hs.
  apply elem_of_cons in Hs as [->|Hs]; [done|by eapply IH].
Qed.

Lemma SegFile_ReadAt_shut sf l off n :
  holds sf l → log_ok l → Sorted ends_beforeF l →
  Forall (λ fr, 0 < len (fr_data fr)) l →
  0 ≤ off → 0 ≤ n → off + n < 2 ^ 63 →
  SegFile_ReadAt (shut sf) off n
  = Ok (load (sf_file (shut sf)) <$> filter (hits off n) (descriptors 0 l),
        if decide (filter (hits off n) (descriptors 0 l) = [])
        then None else Some ErrClosed).
Proof.
  intros (Hopen & Hcont & Hcur & Hsegs) [Hok Hfit] Hsort Hpos Hoff Hn Hwin.
  pose proof (len_nonneg (encode_log l)) as Hl.
  assert (Hdok : Forall seg_ok (descriptors 0 l)) by (apply descriptors_seg_ok; [done|lia..]).
  assert (Hs' : sf_segs (shut sf) = descriptors 0 l) by (by rewrite shut_open).
  assert (Hc' : closed (sf_file (shut sf)) = true) by (by rewrite shut_open).
  rewrite SegFile_ReadAt_spec; rewrite ?Hs'; try done.
  - set (F := filter (hits off n) (descriptors 0 l)).
    assert (HF : ∀ s, s ∈ F → s ∈ descriptors 0 l).
    { intros s Hs. by apply list_elem_of_filter in Hs as [_ Hs]. }
    clearbody F. f_equal. f_equal.
    destruct (decide (F = [])) as [->|Hne]; [done|].
    apply scan_err_closed; try done.
    apply Forall_forall. intros s Hs. apply HF in Hs.
    rewrite Forall_forall in Hdok. destruct (Hdok s Hs) as (_ & _ & _ & Hp).
    rewrite i64_small by lia. split; [by eapply descriptors_positive|lia].
  - by apply descriptors_Sorted.
  - unfold len. rewrite length_descriptors.
    pose proof (length_encode_log l). unfold len in Hfit. lia.
Qed.

Lemma File_ReadAt_shut f l0 l1 fs b off :
  stored f [l0; l1] → gapless [l0; l1] fs →
  Forall frame_ok fs → len (encode_log fs) < 2 ^ 63 →
  Forall (λ fr, 0 < len (fr_data fr)) fs →
  0 ≤ off → off ≤ f_size f → off < len (payload fs) → 0 < len b → off + len b < 2 ^ 63 →
  File_ReadAt (File_Close f).1 b off = Ok (b, 0, Some ErrClosed).
Proof.
  intros Hst Hg Hok Hfit Hpos Hoff Hsize HT Hb Hwin.
  pose proof (stored_open f _ Hst) as Hopen.
  destruct Hg as (Hperm & Hsort & Hc).
  pose proof (gapless_log_ok _ _ Hperm Hok Hfit) as Hlok.
  assert (Hposl : ∀ l, l ∈ [l0; l1] → Forall (λ fr, 0 < len (fr_data fr)) l).
  { intros l Hl. apply Forall_forall. intros fr Hfr. rewrite Forall_forall in Hpos.
    apply Hpos. eapply elem_of_Permutation_proper; [symmetry; exact Hperm|].
    by eapply elem_of_concat. }
  destruct (contig_covers fs 0 off Hc) as (fr & Hin & Hfr); [lia|].
  assert (Hin' : fr ∈ l0 ∨ fr ∈ l1).
  { eapply elem_of_Permutation_proper in Hin; [|exact Hperm].
    cbn [concat] in Hin. rewrite app_nil_r in Hin. by apply elem_of_app in Hin. }
  unfold stored in Hst.
  apply Forall2_cons_inv_r in Hst as (sf0 & fs0 & H0 & Hst & Hf).
  apply Forall2_cons_inv_r in Hst as (sf1 & fs1 & H1 & Hst & ->).
  apply Forall2_nil_inv_r in Hst as ->.
  apply Forall_cons in Hlok as [Hk0 Hlok]. apply Forall_cons in Hlok as [Hk1 _].
  apply Forall_cons in Hsort as [Hs0 Hsort]. apply Forall_cons in Hsort as [Hs1 _].
  pose proof (SegFile_ReadAt_shut sf0 l0 off (len b) H0 Hk0 Hs0
                (Hposl l0 ltac:(by left)) ltac:(lia) ltac:(lia) ltac:(lia)) as HR0.
  pose proof (SegFile_ReadAt_shut sf1 l1 off (len b) H1 Hk1 Hs1
                (Hposl l1 ltac:(right; by left)) ltac:(lia) ltac:(lia) ltac:(lia)) as HR1.
  unfold File_ReadAt, File_Close. rewrite (close_loop_open _ Hopen), Hf.
  cbn [fst f_files f_size fmap list_fmap gather].
  replace (f_size f <? off) with false by (symmetry; apply Z.ltb_ge; lia).
  fold (shut sf0). fold (shut sf1). rewrite HR0. cbn [mbind outcome_bind fst snd].
  destruct (decide (filter (hits off (len b)) (descriptors 0 l0) = [])) as [E0|E0]; [|done].
  rewrite E0. change (mergeSegs [] (_ <$> [])) with (@nil seg).
  rewrite HR1. cbn [mbind outcome_bind fst snd].
  destruct (decide (filter (hits off (len b)) (descriptors 0 l1) = [])) as [E1|E1]; [|done].
  exfalso. destruct Hin' as [Hi|Hi].
  - by apply (hit_in_descriptors l0 0 fr off (len b) Hi Hfr Hb).
  - by apply (hit_in_descriptors l1 0 fr off (len b) Hi Hfr Hb).
Qed.

(** X15: a closed store refuses to read what it holds. After writes that
    follow one another from offset 0, each with at least one byte, and a
    [Close], every read of a non-empty buffer at an offset that is at least
    0 and below the known size (the end of the window below [2^63]) returns
    no byte, leaves the buffer as it was and returns the error of the
    closed handle. *)
Theorem ReadAt_after_Close (name : string) (ws : list write) :
  contig_writes 0 ws → writes_fit ws → Forall (λ w, 0 < len (w_data w)) ws →
  ∃ f, run_writes (fresh name) ws = Ok f
       ∧ (File_Close f).2 = None
       ∧ ∀ (b : list byte) (off : Z),
           0 ≤ off → off < f_size f → 0 < len b → off + len b < 2 ^ 63 →
           File_ReadAt (File_Close f).1 b off = Ok (b, 0, Some ErrClosed).
Proof.
  intros Hc [Hmax Hfit] Hpos.
  destruct (run_writes_sound ws (fresh name) [[]; []] [] (sound_fresh name))
    as (f & HR & Hst & Hg & Hok & Hsize & Hlen); [done..|].
  rewrite app_nil_l in *. exists f. split; [done|].
  pose proof (stored_open f _ Hst) as Hopen.
  split. { unfold File_Close. by rewrite (close_loop_open _ Hopen). }
  intros b off Hoff Hlt Hb Hwin.
  destruct (two_logs _ Hlen) as (l0 & l1 & Hl). rewrite Hl in Hst, Hg.
  apply (File_ReadAt_shut f l0 l1 (w_frame <$> ws)); try done; try lia.
  apply Forall_fmap. eapply Forall_impl; [exact Hpos|]. by intros w Hw.
Qed.

Lemma ReadAt_after_Close_witness :
  ∃ f, run_writes (fresh "m") two_writes = Ok f
       ∧ (File_Close f).2 = None
       ∧ File_ReadAt (File_Close f).1 [Byte.x00] 5 = Ok ([Byte.x00], 0, Some ErrClosed).
Proof.
  destruct (ReadAt_after_Close "m"%string two_writes) as (f & H1 & H2 & H3).
  - repeat split; first [reflexivity | cbn; unfold numFiles; lia].
  - split; [repeat constructor; by vm_compute|reflexivity].
  - repeat constructor.
  - exists f. split; [exact H1|]. split; [exact H2|].
    apply (H3 [Byte.x00] 5); [lia| |reflexivity|reflexivity].
    injection H1 as <-. by vm_compute.
Defined.

(** Below offset 0 the closed store is not asked: the scan of every shard
    stops before its first frame, no file is read, and the read returns no
    byte and no error. *)
Lemma ReadAt_after_Close_negative :
  File_ReadAt (File_Close (store_after two_writes)).1 [Byte.x00] (-1)
  = Ok ([Byte.x00], 0, None).
Proof. reflexivity. Qed.

(** * Writing in two sessions *)

Lemma contig_writes_app ws1 : ∀ o ws2,
  contig_writes o (ws1 ++ ws2)
  ↔ contig_writes o ws1 ∧ contig_writes (o + len (written ws1)) ws2.
Proof.
  induction ws1 as [|w ws1 IH]; intros o ws2.
  - change (len (written [])) with 0. rewrite Z.add_0_r. cbn. tauto.
  - cbn [app contig_writes]. rewrite IH.
    unfold written. rewrite fmap_cons, payload_cons, len_app. cbn [w_frame fr_data].
    replace (o + (len (w_data w) + len (payload (w_frame <$> ws1))))
      with (o + len (w_data w) + len (payload (w_frame <$> ws1))) by lia.
    tauto.
Qed.

Lemma contig_writes_shards ws : ∀ o,
  contig_writes o ws → Forall (λ w, (w_shard w < numFiles)%nat) ws.
Proof.
  induction ws as [|w ws IH]; intros o Hc; [constructor|].
  destruct Hc as (_ & Hs & Hc). constructor; [done|by eapply IH].
Qed.

(** X16: a store can be written in two sessions. When the writes of both
    sessions together follow one another from offset 0, the first session is
    closed, and the store is opened again from the files it left, the second
    session continues where the first ended: afterwards the known size is
    the number of bytes written in both, and every read at an offset from 0
    up to that size (the end of the window below [2^63]) returns the bytes
    written from its offset on, as many as fit the buffer, with no error. *)
Theorem two_sessions (name : string) (ws1 ws2 : list write) :
  contig_writes 0 (ws1 ++ ws2) → writes_fit (ws1 ++ ws2) →
  ∃ f1 f2 f3,
    run_writes (fresh name) ws1 = Ok f1
    ∧ (File_Close f1).2 = None
    ∧ OpenFile (File_persist (File_Close f1).1 ∅) name = Some (inl f2)
    ∧ f_size f2 = len (written ws1)
    ∧ run_writes f2 ws2 = Ok f3
    ∧ f_size f3 = len (written (ws1 ++ ws2))
    ∧ ∀ (b : list byte) (off : Z),
        0 ≤ off → off ≤ f_size f3 → off + len b < 2 ^ 63 →
        File_ReadAt f3 b off
        = Ok (splice b 0
                (take (Z.to_nat (Z.min (len b) (len (written (ws1 ++ ws2)) - off)))
                   (drop (Z.to_nat off) (written (ws1 ++ ws2)))),
              Z.min (len b) (len (written (ws1 ++ ws2)) - off), None).
Proof.
  intros Hc [Hmax Hfit].
  apply contig_writes_app in Hc as [Hc1 Hc2]. rewrite Z.add_0_l in Hc2.
  apply Forall_app in Hmax as [Hmax1 Hmax2].
  rewrite fmap_app, encode_log_app, len_app in Hfit.
  pose proof (len_nonneg (encode_log (w_frame <$> ws1))) as Hn1.
  pose proof (len_nonneg (encode_log (w_frame <$> ws2))) as Hn2.
  destruct (run_writes_sound ws1 (fresh name) [[]; []] [] (sound_fresh name))
    as (f1 & HR1 & Hst1 & Hg1 & Hok1 & Hsize1 & Hlen1);
    [done|done|change (len (encode_log [])) with 0; lia|].
  rewrite app_nil_l in *.
  destruct (run_writes_kept name ws1 (fresh name) [[]; []] (kept_fresh name)
              (contig_writes_shards _ _ Hc1))
    as (f1' & HR1' & Hk1 & Hlenk);
    [change (len (encode_log (concat [[]; []]))) with 0; lia|].
  rewrite HR1 in HR1'. injection HR1' as <-.
  change (len (encode_log (concat [[]; []]))) with 0 in Hlenk.
  set (logs := foldl log_write [[]; []] ws1) in *.
  destruct (two_logs logs Hlen1) as (l0 & l1 & Hlogs). rewrite Hlogs in *.
  destruct (reopen_kept name f1 l0 l1 Hk1) as (Hclose & f2 & Hopen & Hst2 & Hsize2); [lia|].
  assert (Hs2 : sound f2 [l0; l1] (w_frame <$> ws1)).
  { split; [done|]. split; [done|]. split; [done|]. split; [|done].
    by rewrite Hsize2, (known_size_gapless _ _ Hg1 Hok1). }
  destruct (run_writes_sound ws2 f2 [l0; l1] (w_frame <$> ws1) Hs2)
    as (f3 & HR3 & Hst3 & Hg3 & Hok3 & Hsize3 & Hlen3); [done|done|lia|].
  exists f1, f2, f3. split; [done|]. split; [done|]. split; [done|].
  split. { by destruct Hs2 as (_ & _ & _ & ? & _). }
  split; [done|].
  assert (Hw : written (ws1 ++ ws2) = payload ((w_frame <$> ws1) ++ (w_frame <$> ws2))).
  { unfold written. by rewrite fmap_app. }
  rewrite Hw. split; [done|].
  intros b off Hoff Hle Hwin.
  apply (File_ReadAt_gapless f3 _ _ b off Hst3 Hg3 Hok3); try done; try lia.
  rewrite encode_log_app, len_app. lia.
Qed.

(** The first half written in one session, the second half in the next. *)
Lemma two_sessions_witness :
  ∃ f1 f2 f3,
    run_writes (fresh "m") (take 1 two_writes) = Ok f1
    ∧ OpenFile (File_persist (File_Close f1).1 ∅) "m" = Some (inl f2)
    ∧ run_writes f2 (drop 1 two_writes) = Ok f3
    ∧ f_size f3 = len (written (take 1 two_writes ++ drop 1 two_writes))
    ∧ File_ReadAt f3 (replicate 3 Byte.x00) 2
      = Ok (splice (replicate 3 Byte.x00) 0
              (take (Z.to_nat (Z.min (len (replicate 3 Byte.x00))
                                 (len (written (take 1 two_writes ++ drop 1 two_writes)) - 2)))
                 (drop (Z.to_nat 2) (written (take 1 two_writes ++ drop 1 two_writes)))),
            Z.min (len (replicate 3 Byte.x00))
              (len (written (take 1 two_writes ++ drop 1 two_writes)) - 2), None).
Proof.
  destruct (two_sessions "m"%string (take 1 two_writes) (drop 1 two_writes))
    as (f1 & f2 & f3 & H1 & _ & H2 & _ & H3 & H4 & H5).
  - repeat split; first [reflexivity | cbn; unfold numFiles; lia].
  - split; [repeat constructor; by vm_compute|reflexivity].
  - exists f1, f2, f3. split; [exact H1|]. split; [exact H2|]. split; [exact H3|].
    split; [exact H4|]. apply (H5 (replicate 3 Byte.x00) 2); [lia| |reflexivity].
    rewrite H4. by vm_compute.
Defined.

(** * The payloads a window query returns *)





(** * A write on the merged file *)

(** X18: a write on the merged file changes one shard and the known size.
    On a store whose shards are open and hold the logs [logs], a write that
    picks shard [r] returns [len(b)] and no error; shard [r] then holds its
    log followed by the new frame, every other shard is the one it was, and
    the known size has grown by [len(b)], wherever the offset lies. *)
Theorem File_WriteAt_one_shard
    (f : File) (logs : list (list frame)) (r : nat) (l : list frame) (b : list byte) (off : Z) :
  stored f logs → logs !! r = Some l → len (encode_log l) + 16 + len b < 2 ^ 63 →
  ∃ f' sf',
    File_WriteAt f r b off = Ok (f', len b, None)
    ∧ f_files f' = <[r := sf']> (f_files f)
    ∧ holds sf' (l ++ [{| fr_off := u64 off; fr_data := b |}])
    ∧ (∀ i, i ≠ r → f_files f' !! i = f_files f !! i)
    ∧ f_size f' = i64 (f_size f + len b).
Proof.
  intros Hst Hl Hfit. unfold stored in Hst.
  destruct (Forall2_lookup_r _ _ _ _ _ Hst Hl) as (sf & Hsf & Hh).
  destruct (holds_write sf l b off Hh Hfit) as (sf' & HW & Hh').
  pose proof (len_nonneg b) as Hb. pose proof (len_nonneg (encode_log l)) as Hn.
  unfold File_WriteAt. rewrite Hsf, HW.
  eexists _, sf'. split; [reflexivity|]. cbn [f_files f_size].
  split; [done|]. split; [done|]. split.
  - intros i Hi. by rewrite list_lookup_insert_ne.
  - by rewrite (i64_small (len b)) by lia.
Qed.

Lemma File_WriteAt_one_shard_witness :
  ∃ f' sf',
    File_WriteAt (fresh "m") 1 [Byte.x01] 7 = Ok (f', len [Byte.x01], None)
    ∧ f_files f' = <[1%nat := sf']> (f_files (fresh "m"))
    ∧ holds sf' ([] ++ [{| fr_off := u64 7; fr_data := [Byte.x01] |}])
    ∧ (∀ i, i ≠ 1%nat → f_files f' !! i = f_files (fresh "m") !! i)
    ∧ f_size f' = i64 (f_size (fresh "m") + len [Byte.x01]).
Proof.
  apply (File_WriteAt_one_shard (fresh "m") [[]; []] 1 [] [Byte.x01] 7).
  - repeat constructor; apply holds_empty_shard.
  - reflexivity.
  - reflexivity.
Defined.

(** * A log that ends in a frame whose payload was cut short *)

Lemma replay_prefix rest : ∀ fuel f pre tail,
  is_open f →
  content (sf_file f) = pre ++ encode_log rest ++ tail →
  sf_off f = len pre →
  Forall (λ fr, 0 ≤ fr_off fr < 2 ^ 64) rest →
  len pre + len (encode_log rest) < 2 ^ 63 →
  replay (length rest + fuel) f (sf_off f) =
    replay fuel
      {| sf_name := sf_name f; sf_file := sf_file f;
         sf_size := replay_size (sf_size f) rest;
         sf_off := sf_off f + len (encode_log rest);
         sf_segs := sf_segs f ++ descriptors (sf_off f) rest |}
      (sf_off f + len (encode_log rest)).
Proof.
  induction rest as [|fr rest IH]; intros fuel f pre tail Hopen Hcont Hoff Hwf Hfit;
    pose proof (len_nonneg pre) as Hpre.
  - change (len (encode_log [])) with 0. cbn [length Nat.add descriptors replay_size foldl].
    rewrite Z.add_0_r, app_nil_r. by destruct f.
  - apply Forall_cons in Hwf as [Hfr Hwf].
    rewrite encode_log_cons, len_app, len_encode_frame in Hfit.
    pose proof (len_nonneg (fr_data fr)) as Hd.
    pose proof (len_nonneg (encode_log rest)) as Hr.
    cbn [length Nat.add replay].
    rewrite Hoff at 1.
    rewrite (os_ReadAt_header (sf_file f) pre
               {| h_off := fr_off fr; h_size := len (fr_data fr) |}
               (fr_data fr ++ encode_log rest ++ tail)); [|done|].
    2:{ rewrite Hcont, encode_log_cons. unfold encode_frame. by rewrite <- !app_assoc. }
    rewrite len_marshal, unmarshal_marshal by (simpl; lia).
    cbn [Z.eqb Pos.eqb negb segHeaderSize h_off h_size seg_off seg_size].
    wrap_small.
    set (f' := {| sf_name := sf_name f; sf_file := sf_file f;
                  sf_size := i64 (u64 (fr_off fr + len (fr_data fr)));
                  sf_off := sf_off f + (16 + len (fr_data fr));
                  sf_segs := sf_segs f ++ [{| seg_off := fr_off fr; seg_size := len (fr_data fr);
                                              seg_pos := sf_off f + 16; seg_data := [] |}] |}).
    change (replay (length rest + fuel) _ _) with (replay (length rest + fuel) f' (sf_off f')).
    rewrite (IH fuel f' (pre ++ encode_frame fr) tail); try done.
    + subst f'. cbn [sf_name sf_file sf_size sf_off sf_segs descriptors replay_size foldl].
      rewrite encode_log_cons, len_app, len_encode_frame, <- app_assoc.
      unfold segHeaderSize. simpl.
      replace (sf_off f + (16 + len (fr_data fr))) with (sf_off f + 16 + len (fr_data fr)) by lia.
      by replace (sf_off f + (16 + len (fr_data fr) + len (encode_log rest)))
        with (sf_off f + 16 + len (fr_data fr) + len (encode_log rest)) by lia.
    + subst f'. cbn [sf_file]. rewrite Hcont, encode_log_cons. unfold encode_frame.
      by rewrite <- !app_assoc.
    + subst f'. cbn [sf_off]. rewrite len_app, len_encode_frame. lia.
    + rewrite len_app, len_encode_frame. lia.
Qed.

Lemma os_ReadAt_beyond f n off :
  closed f = false → len (content f) ≤ off → 0 < n → os_ReadAt f n off = ([], Some EOF).
Proof.
  intros Hc Hoff Hn. pose proof (len_nonneg (content f)).
  rewrite os_ReadAt_open by (done || lia).
  rewrite drop_ge by (unfold len in *; lia). rewrite take_nil.
  change (len []) with 0. by replace (0 <? n) with true by (symmetry; apply Z.ltb_lt; lia).
Qed.

Lemma replay_cut fuel f pre o n part :
  is_open f →
  content (sf_file f) = pre ++ marshal {| h_off := o; h_size := n |} ++ part →
  sf_off f = len pre → 0 ≤ o < 2 ^ 64 → len part < n → len pre + 16 + n < 2 ^ 63 →
  replay (S (S fuel)) f (sf_off f) =
    Some (inl {| sf_name := sf_name f; sf_file := sf_file f;
                 sf_size := i64 (u64 (o + n));
                 sf_off := sf_off f + 16 + n;
                 sf_segs := sf_segs f ++ [{| seg_off := o; seg_size := n;
                                             seg_pos := sf_off f + 16; seg_data := [] |}] |}).
Proof.
  intros Hopen Hcont Hoff Ho Hpart Hfit.
  pose proof (len_nonneg pre) as Hpre. pose proof (len_nonneg part) as Hp.
  cbn [replay]. rewrite Hoff at 1.
  rewrite (os_ReadAt_header (sf_file f) pre {| h_off := o; h_size := n |} part) by done.
  rewrite len_marshal, unmarshal_marshal by (simpl; lia).
  cbn [Z.eqb Pos.eqb negb segHeaderSize h_off h_size seg_off seg_size sf_file].
  wrap_small.
  rewrite os_ReadAt_beyond; [|done| |unfold segHeaderSize; lia].
  - unfold segHeaderSize.
    by replace (sf_off f + (16 + n)) with (sf_off f + 16 + n) by lia.
  - rewrite Hcont, !len_app, len_marshal. unfold segHeaderSize. lia.
Qed.

Lemma os_ReadAt_cut f pre h part n :
  closed f = false → content f = pre ++ marshal h ++ part → len part < n →
  os_ReadAt f n (len pre + 16) = (part, Some EOF).
Proof.
  intros Hc Hcont Hpart. pose proof (len_nonneg pre). pose proof (len_nonneg part).
  rewrite os_ReadAt_open by (done || lia).
  replace (Z.to_nat (len pre + 16)) with (length (pre ++ marshal h))
    by (rewrite length_app, length_marshal; unfold len; lia).
  rewrite Hcont, app_assoc, drop_app_length.
  rewrite take_ge by (unfold len in *; lia).
  by replace (len part <? n) with true by (symmetry; apply Z.ltb_lt; lia).
Qed.

Lemma Sorted_ends_last l fr x :
  Sorted ends_beforeF (l ++ [fr]) → x ∈ l → fr_end x ≤ fr_off fr.
Proof.
  intros Hs Hx. apply Sorted_StronglySorted in Hs; [|apply _].
  apply (StronglySorted_app_1_elem_of _ _ _ x fr Hs Hx). by left.
Qed.

(** X19: a frame whose payload was cut short is kept and read back padded
    with zero bytes. When the file of a shard is the encoding of [frs]
    followed by a whole header for [len(data)] bytes at offset [o] and by
    only the first [k] of those bytes, and the frames of [frs] and the cut
    one after them do not overlap and are in the order of their offsets (with
    offsets from 0 on, ends below [2^63] and at most [2^48] bytes each),
    [OpenSegFile] succeeds and records the frame with its full length, with
    the append cursor past the end of the file; a query for the frame's
    range returns it with the [k] stored bytes followed by zero bytes, and
    with [io.EOF], the error that the merged read drops. *)
Theorem torn_payload_zero_padded
    (d : gmap string (list byte)) (name : string) (frs : list frame)
    (o : Z) (data : list byte) (k : nat) :
  default [] (d !! name)
    = encode_log frs ++ marshal {| h_off := o; h_size := len data |} ++ take k data →
  (k < length data)%nat →
  log_ok (frs ++ [{| fr_off := o; fr_data := data |}]) →
  Sorted ends_beforeF (frs ++ [{| fr_off := o; fr_data := data |}]) →
  ∃ sf,
    OpenSegFile d name = Some (inl sf)
    ∧ sf_segs sf = descriptors 0 (frs ++ [{| fr_off := o; fr_data := data |}])
    ∧ sf_off sf = len (encode_log (frs ++ [{| fr_off := o; fr_data := data |}]))
    ∧ len (content (sf_file sf)) < sf_off sf
    ∧ SegFile_ReadAt sf o (len data)
      = Ok ([{| seg_off := o; seg_size := len data;
                seg_pos := len (encode_log frs) + 16;
                seg_data := take k data ++ replicate (length data - k) Byte.x00 |}],
            Some EOF).
Proof.
  intros Hd Hk [Hok Hfit] Hsort.
  set (fr := {| fr_off := o; fr_data := data |}) in *.
  apply Forall_app in Hok as Hok'. destruct Hok' as [Hokf Hokl].
  apply Forall_cons in Hokl as [(Ho & He & Hm) _]. cbn [fr fr_off fr_data] in Ho, He, Hm.
  unfold fr_end in He. cbn [fr fr_off fr_data] in He.
  rewrite encode_log_app, len_app in Hfit.
  change (encode_log [fr]) with (encode_frame fr ++ []) in Hfit.
  rewrite app_nil_r, len_encode_frame in Hfit. cbn [fr fr_data] in Hfit.
  pose proof (len_nonneg (encode_log frs)) as Hn. pose proof (len_nonneg data) as Hdata.
  assert (Hpart : len (take k data) < len data).
  { unfold len. rewrite length_take. lia. }
  set (file := os_OpenFile d name).
  assert (Hcont : content file
                  = encode_log frs ++ marshal {| h_off := o; h_size := len data |}
                    ++ take k data) by done.
  set (sf1 := {| sf_name := name; sf_file := file;
                 sf_size := replay_size 0 frs;
                 sf_off := 0 + len (encode_log frs);
                 sf_segs := [] ++ descriptors 0 frs |}).
  assert (Hopen : OpenSegFile d name =
                  Some (inl {| sf_name := name; sf_file := file;
                               sf_size := i64 (u64 (o + len data));
                               sf_off := sf_off sf1 + 16 + len data;
                               sf_segs := sf_segs sf1
                                          ++ [{| seg_off := o; seg_size := len data;
                                                 seg_pos := sf_off sf1 + 16;
                                                 seg_data := [] |}] |})).
  { unfold OpenSegFile. fold file.
    set (f0 := {| sf_name := name; sf_file := file; sf_size := 0; sf_off := 0;
                  sf_segs := [] |}).
    assert (Hlen : ∃ fuel, S (length (content file)) = (length frs + S (S fuel))%nat).
    { exists (length (content file) - length frs - 1)%nat.
      pose proof (length_encode_log frs).
      rewrite Hcont, !length_app, length_marshal. lia. }
    destruct Hlen as [fuel ->].
    change 0 with (sf_off f0) at 1.
    rewrite (replay_prefix frs (S (S fuel)) f0 []
               (marshal {| h_off := o; h_size := len data |} ++ take k data));
      [|done|done|done| |simpl; change (len []) with 0; lia].
    2:{ eapply Forall_impl; [exact Hokf|]. intros x (H1 & H2 & _).
        unfold fr_end in H2. pose proof (len_nonneg (fr_data x)). lia. }
    change (replay (S (S fuel)) _ _) with (replay (S (S fuel)) sf1 (sf_off sf1)).
    rewrite (replay_cut fuel sf1 (encode_log frs) o (len data) (take k data));
      try done; try lia. }
  eexists. split; [exact Hopen|]. cbn [sf_segs sf_off sf_file sf1].
  rewrite !app_nil_l, !Z.add_0_l.
  assert (Hsegs : descriptors 0 frs
                  ++ [{| seg_off := o; seg_size := len data;
                         seg_pos := len (encode_log frs) + 16; seg_data := [] |}]
                  = descriptors 0 (frs ++ [fr])).
  { rewrite descriptors_app. cbn [descriptors fr fr_off fr_data].
    unfold segHeaderSize. by rewrite Z.add_0_l. }
  split; [done|]. split.
  { rewrite encode_log_app, len_app.
    change (encode_log [fr]) with (encode_frame fr ++ []).
    rewrite app_nil_r, len_encode_frame. cbn [fr fr_data]. lia. }
  split.
  { rewrite Hcont, !len_app, len_marshal. lia. }
  rewrite SegFile_ReadAt_spec; cbn [sf_segs sf_file]; rewrite ?Hsegs; try done; try lia.
  - rewrite <- Hsegs, filter_app.
    rewrite (filter_hits_none o (len data) (descriptors 0 frs)).
    2:{ apply Forall_forall. intros s Hs. apply hits_false. left.
        assert (Hx : ∃ x, x ∈ frs ∧ seg_off s = fr_off x ∧ seg_size s = len (fr_data x)).
        { clear -Hs. revert Hs. generalize 0 at 1. induction frs as [|x frs IH]; intros c Hs.
          - by apply elem_of_nil in Hs.
          - cbn [descriptors] in Hs. apply elem_of_cons in Hs as [->|Hs].
            + exists x. split; [by left|done].
            + destruct (IH _ Hs) as (y & Hy & Hy'). exists y. split; [by right|done]. }
        destruct Hx as (x & Hx & -> & ->).
        pose proof (Sorted_ends_last frs fr x Hsort Hx) as Hle.
        unfold fr_end in Hle. cbn [fr fr_off] in Hle. lia. }
    rewrite app_nil_l, filter_cons_True by (apply hits_spec; unfold len in *; simpl; lia).
    rewrite filter_nil. cbn [fmap list_fmap scan_err foldl]. unfold load.
    cbn [seg_off seg_size seg_pos]. rewrite (i64_small (len (encode_log frs) + 16)) by lia.
    rewrite (os_ReadAt_cut file (encode_log frs) {| h_off := o; h_size := len data |}
               (take k data)) by done.
    cbn [fst snd]. do 3 f_equal. unfold overlay.
    rewrite length_take, drop_replicate, to_nat_len.
    by replace (k `min` length data)%nat with k by lia.
  - by apply descriptors_Sorted.
  - apply descriptors_seg_ok; [done|lia|].
    rewrite encode_log_app, len_app. change (encode_log [fr]) with (encode_frame fr ++ []).
    rewrite app_nil_r, len_encode_frame. cbn [fr fr_data]. lia.
  - unfold len. rewrite length_descriptors, length_app. cbn [length].
    pose proof (length_encode_log frs). unfold len in Hfit. lia.
Qed.

Lemma torn_payload_zero_padded_witness :
  ∃ sf,
    OpenSegFile {[ "m-0"%string :=
                     encode_log one_frame_log
                     ++ marshal {| h_off := 1; h_size := len (replicate 4 Byte.x05) |}
                     ++ take 1 (replicate 4 Byte.x05) ]} "m-0"
    = Some (inl sf)
    ∧ SegFile_ReadAt sf 1 (len (replicate 4 Byte.x05))
      = Ok ([{| seg_off := 1; seg_size := len (replicate 4 Byte.x05);
                seg_pos := len (encode_log one_frame_log) + 16;
                seg_data := take 1 (replicate 4 Byte.x05)
                            ++ replicate (length (replicate 4 Byte.x05) - 1) Byte.x00 |}],
            Some EOF).
Proof.
  destruct (torn_payload_zero_padded
              {[ "m-0"%string :=
                   encode_log one_frame_log
                   ++ marshal {| h_off := 1; h_size := len (replicate 4 Byte.x05) |}
                   ++ take 1 (replicate 4 Byte.x05) ]}
              "m-0"%string one_frame_log 1 (replicate 4 Byte.x05) 1)
    as (sf & H1 & _ & _ & _ & H2).
  - reflexivity.
  - simpl. lia.
  - split; [|reflexivity].
    repeat constructor; unfold frame_ok, fr_end, maxAlloc; simpl; try lia; by vm_compute.
  - repeat constructor; unfold ends_beforeF, fr_end; simpl; by vm_compute.
  - exists sf. exact (conj H1 H2).
Defined.

